(** * mapspec: rescaling model, covariance propagation and sampler

    A shallow embedding of [mapspec.py] (Python 2, numpy/scipy).

    - Python floats and numpy [float64] values are IEEE binary64 numbers,
      modelled by Rocq's primitive [float]; comparisons with [nan] are
      [false] and [x / 0] does not raise for numpy scalars, as in the source.
    - A 1-D numpy array is a [list float], a 2-D array a [list (list float)]
      (list of rows).  A dictionary is a [gmap]; its iteration order
      ([keys()], [values()]) is the order of [map_to_list].
    - A raised exception is a value of [PyErr]; a function that may raise
      returns [result A].
    - Library functions the module only calls ([exp], [log], [percentile],
      [linalg.inv], [Spectrum.interp], the random generator) are variables
      of the sections below.
    - The kernel generators are written once over a numeric interface [Num]
      and used at [float] (what the program computes) and at [R] (exact
      arithmetic, for statements made up to rounding). *)

From Stdlib Require Import ZArith List String Floats Reals Lra Lia Bool.
From stdpp Require Import gmap strings.

Set Warnings "-inexact-float".

(** ** Python values: exceptions, integers from floats, indexing, slicing *)

Inductive PyErr : Type :=
| AttributeError | KeyError | IndexError | ValueError
| ZeroDivisionError | OverflowError | AssertionError | LinAlgError.

Definition result (A : Type) : Type := (PyErr + A)%type.

Definition raise {A} (e : PyErr) : result A := inl e.

#[global] Instance result_ret : MRet result := fun A a => inr a.
#[global] Instance result_bind : MBind result := fun A B k c =>
  match c with
  | inl e => inl e
  | inr a => k a
  end.

Definition ret {A} (a : A) : result A := mret a.

Definition of_option {A} (e : PyErr) (o : option A) : result A :=
  match o with
  | Some a => inr a
  | None => inl e
  end.

(** [float(n)] for an integer [n] (exact below 2^53). *)
Definition float_of_Z (n : Z) : float :=
  if (n <? 0)%Z then PrimFloat.opp (PrimFloat.of_uint63 (Uint63.of_Z (- n)))
  else PrimFloat.of_uint63 (Uint63.of_Z n).

(** [int(x)]: truncation toward zero; [nan] raises ValueError and an
    infinity OverflowError. *)
Definition int_of_float (x : float) : result Z :=
  match Prim2SF x with
  | S754_zero _ => ret 0%Z
  | S754_nan => raise ValueError
  | S754_infinity _ => raise OverflowError
  | S754_finite s m e =>
      let mag := match e with
                 | Z0 => Z.pos m
                 | Zpos q => (Z.pos m * 2 ^ Z.pos q)%Z
                 | Zneg q => (Z.pos m / 2 ^ Z.pos q)%Z
                 end in
      ret (if s then - mag else mag)%Z
  end.

(** Python 2 [round(x)]: to the nearest integer, halves away from zero; the
    result is a float ([nan], infinities and zeros round to themselves). *)
Definition py_round (x : float) : float :=
  match Prim2SF x with
  | S754_finite s m e =>
      let mag := match e with
                 | Z0 => Z.pos m
                 | Zpos q => (Z.pos m * 2 ^ Z.pos q)%Z
                 | Zneg q =>
                     let d := (2 ^ Z.pos q)%Z in
                     if (d <=? 2 * (Z.pos m mod d))%Z
                     then (Z.pos m / d + 1)%Z else (Z.pos m / d)%Z
                 end in
      if s then PrimFloat.opp (float_of_Z mag) else float_of_Z mag
  | _ => x
  end.

(** Normalisation of one slice bound against a length (Python's
    [PySlice_GetIndices] with step 1). *)
Definition slice_bound (len i : Z) : Z :=
  if (i <? 0)%Z then Z.max 0 (i + len) else Z.min i len.

(** [l[start:stop]]. *)
Definition py_slice {A} (l : list A) (start stop : Z) : list A :=
  let len := Z.of_nat (length l) in
  let a := slice_bound len start in
  let b := slice_bound len stop in
  take (Z.to_nat (b - a)) (drop (Z.to_nat a) l).

(** the window [l[start:stop]] reads from a list of length [n]: its first
    position and its number of elements *)
Definition window (n : nat) (start stop : Z) : nat * nat :=
  let len := Z.of_nat n in
  (Z.to_nat (slice_bound len start),
   Z.to_nat (slice_bound len stop - slice_bound len start)).

(** [l[start:]]  *)
Definition py_slice_from {A} (l : list A) (start : Z) : list A :=
  drop (Z.to_nat (slice_bound (Z.of_nat (length l)) start)) l.

(** [l[i]]: a negative index counts from the end; IndexError out of range. *)
Definition py_index {A} (l : list A) (i : Z) : result A :=
  let len := Z.of_nat (length l) in
  let j := if (i <? 0)%Z then (i + len)%Z else i in
  if (j <? 0)%Z then raise IndexError
  else of_option IndexError (l !! Z.to_nat j).

(** [d[key]]. *)
Definition py_getitem {V} (d : gmap string V) (key : string) : result V :=
  of_option KeyError (d !! key).

(** [for x in xs: acc = body(acc, x)], stopping at the first exception. *)
Fixpoint foldM {A S} (body : S -> A -> result S) (xs : list A) (acc : S)
  : result S :=
  match xs with
  | [] => ret acc
  | x :: xs' => body acc x ≫= foldM body xs'
  end.

Fixpoint mapM {A B} (g : A -> result B) (xs : list A) : result (list B) :=
  match xs with
  | [] => ret []
  | x :: xs' => y ← g x; ys ← mapM g xs'; ret (y :: ys)
  end.

(** ** The numeric interface of the kernel generators *)

Class Num (T : Type) : Type := {
  n_of_Z : Z -> T;
  n_add : T -> T -> T;
  n_sub : T -> T -> T;
  n_mul : T -> T -> T;
  n_div : T -> T -> T;
  n_opp : T -> T;
  n_abs : T -> T;
  n_exp : T -> T;
  n_sqrt : T -> T;
  n_pi : T
}.

(** binary64, with the C library's [exp] as a parameter *)
Definition float_num (fexp : float -> float) : Num float := {|
  n_of_Z := float_of_Z;
  n_add := PrimFloat.add;
  n_sub := PrimFloat.sub;
  n_mul := PrimFloat.mul;
  n_div := PrimFloat.div;
  n_opp := PrimFloat.opp;
  n_abs := PrimFloat.abs;
  n_exp := fexp;
  n_sqrt := PrimFloat.sqrt;
  n_pi := 0x1.921fb54442d18p+1%float
|}.

(** exact real arithmetic *)
Definition real_num : Num R := {|
  n_of_Z := IZR;
  n_add := Rplus;
  n_sub := Rminus;
  n_mul := Rmult;
  n_div := Rdiv;
  n_opp := Ropp;
  n_abs := Rabs;
  n_exp := exp;
  n_sqrt := sqrt;
  n_pi := PI
|}.

(** ** Kernel library ([RescaleModel._Gauss], [._Hermite], the Delta lambda) *)

(** the callable bound to [self._get_kernel] *)
Inductive kernel_fn : Type := K_Delta | K_Gauss | K_Hermite.

Section Kernels.
Context {T : Type} {num : Num T}.

(** the decimal literal [m / 10^k], e.g. [0.5 = lit 5 1] *)
Definition lit (m : Z) (k : Z) : T := n_div (n_of_Z m) (n_of_Z (10 ^ k)).

(** [x**2] *)
Definition n_sq (x : T) : T := n_mul x x.

(** [sp.r_[a:b]]: the integers [a], ..., [b - 1] *)
Definition r_range (a b : Z) : list Z :=
  map (fun i => (a + Z.of_nat i)%Z) (seq 0 (Z.to_nat (b - a))).

(** [sp.sum(k)], accumulated from the first element on *)
Definition n_sum (k : list T) : T :=
  match k with
  | [] => n_of_Z 0
  | a :: r => fold_left n_add r a
  end.

(** [k /= abs(sp.sum(k))] *)
Definition normalize (k : list T) : list T :=
  let s := n_abs (n_sum k) in map (fun ki => n_div ki s) k.

(** [prange = sp.r_[ -(x.size//2) + 1 : (x.size)//2 ]] *)
Definition prange_of (size : nat) : list Z :=
  let n := Z.of_nat size in r_range (- (n / 2) + 1) (n / 2).

(** [lambda x: sp.array([1.0])] *)
Definition _Delta (x : list T) : result (list T) := ret [lit 10 1].

(** [self.p] is reached through [getp], which raises what the attribute
    or key lookup raises.  [_Gauss_raw] is [k] before [k /= abs(sp.sum(k))]. *)
Definition _Gauss_raw (getp : string -> result T) (x : list T)
  : result (list T) :=
  x1 ← py_index x 1; x0 ← py_index x 0;
  let dlambda := n_sub x1 x0 in
  width ← getp "width";
  let pixwidth := n_div width dlambda in
  let prange := prange_of (length x) in
  if negb (Z.of_nat (length prange) mod 2 =? 1)%Z then raise AssertionError
  else
    let k := map (fun i =>
               n_exp (n_div (n_mul (n_opp (lit 5 1)) (n_of_Z (i * i)))
                            (n_sq pixwidth))) prange in
    ret k.

Definition _Gauss (getp : string -> result T) (x : list T) : result (list T) :=
  k ← _Gauss_raw getp x; ret (normalize k).

(** [numpy.polynomial.hermite_e.hermeval]: Clenshaw recursion over the
    coefficients from the highest degree down. *)
Definition hermeval (x : T) (c : list T) : T :=
  match rev c with
  | [] => n_of_Z 0
  | [a] => n_add a (n_mul (n_of_Z 0) x)
  | c1 :: c0 :: rest =>
      let '(c0', c1', _) :=
        fold_left (fun '(c0, c1, nd) ci =>
                     let nd' := (nd - 1)%Z in
                     (n_sub ci (n_mul c1 (n_of_Z (nd' - 1))),
                      n_add c0 (n_mul c1 x), nd'))
                  rest (c0, c1, Z.of_nat (length c)) in
      n_add c0' (n_mul c1' x)
  end.

(** [HermiteE(c)(y)] with the default domain and window [[-1, 1]]:
    [off = 0], [scl = 1]. *)
Definition HermiteE_call (c : list T) (y : T) : T :=
  hermeval (n_add (n_of_Z 0) (n_mul (n_of_Z 1) y)) c.

(** [_Hermite_raw] is [k] before [k /= abs(sp.sum(k))]. *)
Definition _Hermite_raw (getp : string -> result T) (x : list T)
  : result (list T) :=
  x1 ← py_index x 1; x0 ← py_index x 0;
  let dlambda := n_sub x1 x0 in
  width ← getp "width";
  let pixwidth := n_div width dlambda in
  let prange := prange_of (length x) in
  h3 ← getp "h3"; h4 ← getp "h4";
  let h := HermiteE_call [lit 10 1; lit 0 1; lit 0 1; h3; h4] in
  let k := map (fun i =>
             n_mul
               (n_mul
                  (n_div (n_div (lit 10 1) pixwidth)
                         (n_sqrt (n_mul (n_of_Z 2) n_pi)))
                  (n_exp (n_div (n_mul (n_opp (lit 5 1)) (n_of_Z (i * i)))
                                (n_sq pixwidth))))
               (h (n_div (n_of_Z i) pixwidth))) prange in
  ret k.

Definition _Hermite (getp : string -> result T) (x : list T) : result (list T) :=
  k ← _Hermite_raw getp x; ret (normalize k).

(** calling the function bound to [_get_kernel] *)
Definition run_kernel (g : kernel_fn) (getp : string -> result T) (x : list T)
  : result (list T) :=
  match g with
  | K_Delta => _Delta x
  | K_Gauss => _Gauss getp x
  | K_Hermite => _Hermite getp x
  end.
End Kernels.

(** ** numpy arrays of [float64] *)

(** a 2-D array: the list of its rows *)
Abbreviation matrix := (list (list float)).

Section Numpy.
Local Open Scope float_scope.

Definition list_of_fun {A} (n : nat) (g : nat -> A) : list A := map g (seq 0 n).

(** An elementwise binary operation on 1-D arrays, with numpy's
    broadcasting: equal lengths, or one operand of length 1. *)
Definition bc2 (op : float -> float -> float) (a b : list float)
  : result (list float) :=
  if decide (length a = length b) then ret (zip_with op a b)
  else match a, b with
       | [a0], _ => ret (map (op a0) b)
       | _, [b0] => ret (map (fun ai => op ai b0) a)
       | _, _ => raise ValueError
       end.

(** [a**2] *)
Definition np_sq (a : list float) : list float := map (fun v => v * v) a.

(** [sp.sum(a)], accumulated from the first element on; numpy's pairwise
    order differs from it by rounding only, and no statement below depends
    on the order *)
Definition np_sum (a : list float) : float :=
  match a with
  | [] => 0
  | v :: r => fold_left PrimFloat.add r v
  end.

(** [a.min()], [a.max()]: ValueError on an empty array, [nan] propagates. *)
Definition np_min (a : list float) : result float :=
  match a with
  | [] => raise ValueError
  | v :: r =>
      ret (fold_left (fun m y => if is_nan m then m else if is_nan y then y
                                 else if y <? m then y else m) r v)
  end.

Definition np_max (a : list float) : result float :=
  match a with
  | [] => raise ValueError
  | v :: r =>
      ret (fold_left (fun m y => if is_nan m then m else if is_nan y then y
                                 else if m <? y then y else m) r v)
  end.

(** [a[m]] for a boolean mask [m] of the length of [a] *)
Fixpoint compress {A} (a : list A) (m : list bool) : result (list A) :=
  match a, m with
  | [], [] => ret []
  | v :: a', b :: m' =>
      r ← compress a' m'; ret (if b then v :: r else r)
  | _, _ => raise IndexError
  end.

(** [a[idx]] for an array of integer indices *)
Definition take_indices {A} (a : list A) (idx : list Z) : result (list A) :=
  mapM (py_index a) idx.

(** [sp.searchsorted(x, v)] (side left) on a sorted [x], as the wavelengths
    of a spectrum are: the first position whose element is not below [v]. *)
Fixpoint searchsorted1 (x : list float) (v : float) : nat :=
  match x with
  | [] => 0
  | x0 :: x' => if x0 <? v then S (searchsorted1 x' v) else 0
  end.

Definition searchsorted (x v : list float) : list Z :=
  map (fun vi => Z.of_nat (searchsorted1 x vi)) v.

(** [min] and [max] of an integer array *)
Definition Z_min_list (l : list Z) : result Z :=
  match l with
  | [] => raise ValueError
  | v :: r => ret (fold_left Z.min r v)
  end.

Definition Z_max_list (l : list Z) : result Z :=
  match l with
  | [] => raise ValueError
  | v :: r => ret (fold_left Z.max r v)
  end.

(** [sp.convolve(a, v, mode='full')]: [c[t] = sum_i a[i] * v[t - i]] *)
Definition conv_full (a v : list float) : list float :=
  list_of_fun (length a + length v - 1) (fun t =>
    np_sum (omap (fun i => match a !! i, v !! (t - i)%nat with
                           | Some ai, Some vj => Some (ai * vj)
                           | _, _ => None
                           end) (seq 0 (S t)))).

(** [sp.convolve(a, v, mode='same')]: the centred part of the full
    convolution, as long as the longer argument. *)
Definition convolve_same (a v : list float) : result (list float) :=
  match a, v with
  | [], _ | _, [] => raise ValueError
  | _, _ =>
      let n1 := Nat.max (length a) (length v) in
      let n2 := Nat.min (length a) (length v) in
      ret (take n1 (drop ((n2 - 1) / 2)%nat (conv_full a v)))
  end.

(** [sp.roll(k, s)] for [s >= 0] *)
Definition roll (k : list float) (s : nat) : list float :=
  match k with
  | [] => []
  | _ => let K := length k in
         list_of_fun K (fun t => nth ((t + K - s mod K) mod K)%nat k 0)
  end.

(** *** 2-D arrays *)


Definition mat_of_fun (n m : nat) (g : nat -> nat -> float) : matrix :=
  list_of_fun n (fun i => list_of_fun m (g i)).

Definition zeros (n m : nat) : matrix := mat_of_fun n m (fun _ _ => 0).

Definition shape (A : matrix) : nat * nat := (length A, length (hd [] A)).

Definition mat_lookup (A : matrix) (i j : nat) : option float :=
  A !! i ≫= fun row => row !! j.

Definition mat_get (A : matrix) (i j : nat) : float :=
  default 0 (mat_lookup A i j).

(** [A[i, j] = v] *)
Definition mat_set (A : matrix) (i j : nat) (v : float) : matrix :=
  alter (fun row => <[j := v]> row) i A.

(** [A.T] *)
Definition transpose (A : matrix) : matrix :=
  let '(n, m) := shape A in mat_of_fun m n (fun i j => mat_get A j i).

(** [sp.diag(v, k)] for a 1-D [v]: a square array with [v] on the [k]-th
    diagonal *)
Definition np_diag (v : list float) (k : Z) : matrix :=
  let n := (length v + Z.abs_nat k)%nat in
  mat_of_fun n n (fun i j =>
    if (Z.of_nat j - Z.of_nat i =? k)%Z then nth (Nat.min i j) v 0 else 0).

(** the diagonal of a square array, [A[sp.diag_indices_from(A)]] *)
Definition get_diag (A : matrix) : list float :=
  list_of_fun (length A) (fun i => mat_get A i i).

(** [A[sp.diag_indices_from(A)] = d] *)
Definition set_diag (A : matrix) (d : list float) : result matrix :=
  if decide (length d = length A) then
    ret (imap (fun i row => <[i := nth i d 0]> row) A)
  else match d with
       | [d0] => ret (imap (fun i row => <[i := d0]> row) A)
       | _ => raise ValueError
       end.

(** [A += B]: [B] has the shape of [A] or is 1 x 1.  [B] is read before [A]
    is written, also when [B] is a view of [A] such as [A.T]. *)
Definition mat_iadd (A B : matrix) : result matrix :=
  if decide (shape B = shape A) then ret (zip_with (zip_with PrimFloat.add) A B)
  else match B with
       | [[b]] => ret (map (map (fun a => a + b)) A)
       | _ => raise ValueError
       end.

(** [A *= s] *)
Definition mat_scale (A : matrix) (s : float) : matrix :=
  map (map (fun a => a * s)) A.

Definition dot (a b : list float) : float := np_sum (zip_with PrimFloat.mul a b).

Definition column (A : matrix) (j : nat) : list float :=
  map (fun row => nth j row 0) A.

(** [sp.matrix(v) * A]: a row vector times a 2-D array *)
Definition row_times_mat (v : list float) (A : matrix) : result (list float) :=
  if decide (length v = length A) then
    ret (list_of_fun (snd (shape A)) (fun j => dot v (column A j)))
  else raise ValueError.

(** [k1 * A * k2.T] for row vectors [k1], [k2]: the entry of the 1 x 1
    product *)
Definition quad_form (k1 : list float) (A : matrix) (k2 : list float)
  : result float :=
  r ← row_times_mat k1 A;
  if decide (length r = length k2) then ret (dot r k2) else raise ValueError.
End Numpy.

(** ** Covariance propagator ([get_covarmatrix]) *)

Section Covariance.
Local Open Scope float_scope.

(** [sp.roll(k, i)] followed by the truncation at [trim = cent + i]:
    [k1[:, trim::] = 0] when [trim <= k1.size], else
    [k1[:, 0:trim - k1.size] = 0]. *)
Definition rolled_kernel (k : list float) (cent i : nat) : list float :=
  let k1 := roll k i in
  let trim := (cent + i)%nat in
  if (trim <=? length k1)%nat
  then imap (fun t v => if (t <? trim)%nat then v else 0) k1
  else imap (fun t v => if (t <? trim - length k1)%nat then 0 else v) k1.

(** make the kernel match the size of the input:
    [if k.size == z2.size - 2: k = sp.r_[0,k,0]
     elif k.size == z2.size - 1: k = sp.r_[0,k]] *)
Definition pad_kernel (k : list float) (n : nat) : list float :=
  if (Z.of_nat (length k) =? Z.of_nat n - 2)%Z then 0 :: k ++ [0]
  else if (Z.of_nat (length k) =? Z.of_nat n - 1)%Z then 0 :: k
  else k.

(** force it to wrap around: [k = sp.r_[ k[cent::], k[0:cent] ]] *)
Definition wrap_kernel (k : list float) : list float :=
  let cent := (length k / 2)%nat in drop cent k ++ take cent k.

(** the double loop filling [covar2[i, j]] for [j = min (i + n) (size - 1)],
    [n < int(breakwidth)] *)
Definition covar_loop (size : nat) (k : list float) (cent : nat)
    (covar1 : matrix) (breakwidth : float) (covar2 : matrix) : result matrix :=
  foldM (fun covar2 i =>
           nb ← int_of_float breakwidth;
           foldM (fun covar2 n =>
                    let j := if (size - 1 <? i + n)%nat then (size - 1)%nat
                             else (i + n)%nat in
                    let k1 := rolled_kernel k cent i in
                    let k2 := rolled_kernel k cent j in
                    v ← quad_form k1 covar1 k2;
                    ret (mat_set covar2 i j v))
                 (seq 0 (Z.to_nat nb)) covar2)
        (seq 0 size) covar2.

Definition get_covarmatrix (x xinterp z k : list float) (breakwidth : float)
  : result matrix :=
  let isort := searchsorted x xinterp in
  let isort1 := map (fun i => (i - 1)%Z) isort in
  xlo ← take_indices x isort1;
  xhi ← take_indices x isort;
  num ← bc2 PrimFloat.sub xinterp xlo;
  den ← bc2 PrimFloat.sub xhi xlo;
  f ← bc2 PrimFloat.div num den;
  zhi ← take_indices z isort;
  zlo ← take_indices z isort1;
  a ← bc2 PrimFloat.mul (np_sq f) (np_sq zhi);
  b ← bc2 PrimFloat.mul (np_sq (map (fun v => 1 - v) f)) (np_sq zlo);
  s ← bc2 PrimFloat.add a b;
  let z2 := map PrimFloat.sqrt s in
  (* for a delta function *)
  if decide (length k = 1%nat) then ret (np_diag (np_sq z2) 0)
  else
    let size := length z2 in
    let covar1 := zeros size size in
    let covar2 := zeros size size in
    (* the part from interpolation *)
    covar1 ← set_diag covar1 (np_sq z2);
    let f' := py_slice f 0 (-1) in
    fa ← bc2 PrimFloat.mul f' (map (fun v => 1 - v) f');
    imin ← Z_min_list isort;
    imax ← Z_max_list isort;
    diag1 ← bc2 PrimFloat.mul fa (np_sq (py_slice z imin imax));
    (* linear interpolation only has one diagonal *)
    covar1 ← mat_iadd covar1 (np_diag diag1 1);
    covar1 ← mat_iadd covar1 (np_diag diag1 (-1));
    (* the part from convolution *)
    let k := pad_kernel k size in
    let cent := (length k / 2)%nat in
    let k := wrap_kernel k in
    covar2 ← covar_loop size k cent covar1 breakwidth covar2;
    (* matrix is symmetric *)
    covar2 ← mat_iadd covar2 (transpose covar2);
    set_diag covar2 (map (fun v => v / 2) (get_diag covar2)).
End Covariance.

(** ** Data model *)

(** [Spectrum] / [EmissionLine] (module [spectrum], used here only through
    its arrays and its [interp] method) *)
Record Spectrum : Type := {
  wv : list float;   (* wavelengths *)
  f : list float;    (* flux *)
  ef : list float    (* 1-sigma flux errors *)
}.

(** A [RescaleModel] instance.  The attributes [_get_kernel], [p] and
    [set_scale] are assigned only inside the branches of [__init__]; [None]
    is an attribute that was never assigned. *)
Record RescaleModel : Type := {
  Lref : Spectrum;
  use_covar : bool;
  prior_prob : gmap string (float -> float);
  kernelname : string;
  _get_kernel : option kernel_fn;
  p : option (gmap string float);
  set_scale : option (gmap string float)
}.

Definition set_p (self : RescaleModel) (p' : gmap string float) : RescaleModel :=
  {| Lref := Lref self; use_covar := use_covar self;
     prior_prob := prior_prob self; kernelname := kernelname self;
     _get_kernel := _get_kernel self; p := Some p';
     set_scale := set_scale self |}.

Definition set_prior_prob (self : RescaleModel)
    (pp : gmap string (float -> float)) : RescaleModel :=
  {| Lref := Lref self; use_covar := use_covar self;
     prior_prob := pp; kernelname := kernelname self;
     _get_kernel := _get_kernel self; p := p self;
     set_scale := set_scale self |}.

Definition set_family (self : RescaleModel) (g : kernel_fn)
    (p' scale' : gmap string float) : RescaleModel :=
  {| Lref := Lref self; use_covar := use_covar self;
     prior_prob := prior_prob self; kernelname := kernelname self;
     _get_kernel := Some g; p := Some p'; set_scale := Some scale' |}.

(** [self.p], [self.set_scale], [self._get_kernel]: AttributeError when the
    attribute was never assigned *)
Definition attr {A} (a : option A) : result A := of_option AttributeError a.

(** [self.p[key]] *)
Definition getp (self : RescaleModel) (key : string) : result float :=
  d ← attr (p self); py_getitem d key.

(** [Chain]: the rows of [pchain] are [M.p.values()], [index] maps a
    parameter name to its column. *)
Record Chain : Type := {
  pchain : list (list float);
  lnlikely : list float;
  index : gmap string nat
}.

(** [d.keys()] and [d.values()], in the iteration order of the dictionary *)
Definition keys {V} (d : gmap string V) : list string := (map_to_list d).*1.
Definition values {V} (d : gmap string V) : list V := (map_to_list d).*2.

(** ** Rescale model ([RescaleModel]) *)

Section Model.
Local Open Scope float_scope.

(** [sp.exp], [sp.log] *)
Variables fexp flog : float -> float.
(** [Spectrum.interp(x)], returning [(flux, error)] at the points [x] *)
Variable interp : Spectrum -> list float -> result (list float * list float).
(** [scipy.linalg.inv] *)
Variable linalg_inv : matrix -> result matrix.
(** [sp.percentile(a, q)] *)
Variable percentile : list float -> list float -> result (list float).

#[local] Instance float_ops : Num float := float_num fexp.

Definition __init__ (Lref0 : Spectrum) (kernel : string) (fit_with_covar : bool)
  : result RescaleModel :=
  let self := {| Lref := Lref0; use_covar := fit_with_covar; prior_prob := ∅;
                 kernelname := kernel; _get_kernel := None; p := None;
                 set_scale := None |} in
  self ← (if String.eqb kernel "Delta" then
            ret (set_family self K_Delta
                   {[ "shift" := 1.0e-4; "scale" := 1.0 ]}
                   {[ "shift" := 0.05; "scale" := 0.02 ]})
          else if String.eqb kernel "Gauss" then
            w1 ← py_index (wv (Lref self)) 1;
            w0 ← py_index (wv (Lref self)) 0;
            let width_min := 0.51 * (w1 - w0) in
            ret (set_family self K_Gauss
                   {[ "shift" := 1.0e-4; "scale" := 1.00; "width" := width_min ]}
                   {[ "shift" := 0.05; "scale" := 0.02; "width" := 0.30 ]})
          else ret self);
  if String.eqb kernel "Hermite" then
    w1 ← py_index (wv (Lref self)) 1;
    w0 ← py_index (wv (Lref self)) 0;
    let width_min := 0.46 * (w1 - w0) in
    ret (set_family self K_Hermite
           {[ "shift" := 1.0e-4; "scale" := 1.00; "width" := width_min;
              "h3" := 0.0; "h4" := 0.0 ]}
           {[ "shift" := 0.05; "scale" := 0.02; "width" := 0.30;
              "h3" := 0.03; "h4" := 0.03 ]})
  else ret self.

(** [self._get_kernel(x)] *)
Definition call_kernel (self : RescaleModel) (x : list float)
  : result (list float) :=
  g ← attr (_get_kernel self); run_kernel g (getp self) x.

(** the breakwidth passed to [get_covarmatrix]: [2] for the Delta
    kernel, [5*self.p['width']] otherwise *)
Definition breakwidth_of (self : RescaleModel) : result float :=
  if String.eqb (kernelname self) "Delta" then ret 2
  else w ← getp self "width"; ret (5 * w).

(** The first statements of [_get_yz]: the shifted copy [l] of [L], the
    mask [m] of the reference samples inside its range, and
    [self.Lref.wv[m]]. *)
Definition overlap (self : RescaleModel) (L : Spectrum)
  : result (Spectrum * list bool * list float) :=
  (* shift *)
  shift ← getp self "shift";
  let l := {| wv := map (fun w => w - shift) (wv L); f := f L; ef := ef L |} in
  lo ← np_min (wv l);
  hi ← np_max (wv l);
  let m := map (fun w => (lo <=? w) && (w <=? hi)) (wv (Lref self)) in
  wvm ← compress (wv (Lref self)) m;
  ret (l, m, wvm).

(** [_get_yz(L, getcovar)]: returns [(y, z**2, m2)] and, when [getcovar],
    the covariance matrix. *)
Definition _get_yz (self : RescaleModel) (L : Spectrum) (getcovar : bool)
  : result (list float * list float * list bool * option matrix) :=
  '(l, m, wvm) ← overlap self L;
  '(y, z) ← interp l wvm;
  (* convolve *)
  k ← call_kernel self wvm;
  (* have to make covar before smoothing z *)
  covar ← (if getcovar then
             bw ← breakwidth_of self;
             C ← get_covarmatrix (wv l) wvm (ef l) k bw; ret (Some C)
           else ret None);
  z ← convolve_same (np_sq z) (np_sq k);
  let z := map PrimFloat.sqrt z in
  y ← convolve_same y k;
  (* scale *)
  scale ← getp self "scale";
  let z := map (fun v => v * scale) z in
  let y := map (fun v => v * scale) y in
  covar ← match covar with
          | Some C =>
              let C := mat_scale C (scale * scale) in
              efm ← compress (ef (Lref self)) m;
              d ← bc2 PrimFloat.add (get_diag C) (np_sq efm);
              C ← set_diag C d; ret (Some C)
          | None => ret None
          end;
  (* trim *)
  let trim := py_round (0.05 * float_of_Z (Z.of_nat (length wvm))) in
  t ← int_of_float trim;
  nt ← int_of_float (- trim);
  let z := py_slice z t nt in
  let y := py_slice y t nt in
  let covar := (fun C => py_slice (map (fun row => py_slice row t nt) C) t nt)
                 <$> covar in
  (* need a mask for reference when calculating chi^2 *)
  w_lo ← py_index wvm t;
  w_hi ← py_index wvm nt;
  let m2 := map (fun w => (w_lo <=? w) && (w <? w_hi)) (wv (Lref self)) in
  ret (y, np_sq z, m2, covar).

Definition _get_chi2 (self : RescaleModel) (y v : list float) (m : list bool)
  : result float :=
  fm ← compress (f (Lref self)) m;
  r ← bc2 PrimFloat.sub fm y;
  efm ← compress (ef (Lref self)) m;
  d ← bc2 PrimFloat.add (np_sq efm) v;
  q ← bc2 PrimFloat.div (np_sq r) d;
  ret (np_sum q).

Definition _get_chi2_covar (self : RescaleModel) (y : list float) (C : matrix)
    (m : list bool) : result float :=
  fm ← compress (f (Lref self)) m;
  vectoruse ← bc2 PrimFloat.sub fm y;
  Cinv ← linalg_inv C;
  quad_form vectoruse Cinv vectoruse.

Definition _add_priors (self : RescaleModel) : result float :=
  foldM (fun prior '(key, density) =>
           v ← getp self key;
           ret (prior + (-2) * flog (density v)))
        (map_to_list (prior_prob self)) 0.

Definition _prior_limits (self : RescaleModel) : result float :=
  let prior := 0 in
  d ← attr (p self);
  prior ← (if (2 <? size d)%nat then
             w1 ← py_index (wv (Lref self)) 1;
             w0 ← py_index (wv (Lref self)) 0;
             let dlambda := w1 - w0 in
             (* if width is too small, the kernel is undersampled *)
             width ← py_getitem d "width";
             if width / dlambda <? 0.5 then ret infinity else ret prior
           else ret prior);
  d ← attr (p self);
  if (3 <? size d)%nat then
    h3 ← py_getitem d "h3";
    prior ← (if h3 <? -0.3 then ret infinity
             else h3 ← py_getitem d "h3";
                  if 0.3 <? h3 then ret infinity else ret prior);
    h4 ← py_getitem d "h4";
    if h4 <? -0.3 then ret infinity
    else h4 ← py_getitem d "h4";
         if 0.3 <? h4 then ret infinity else ret prior
  else ret prior.

(** [self(L)]: the negative log likelihood *)
Definition __call__ (self : RescaleModel) (L : Spectrum) : result float :=
  lnlikely ← (if use_covar self then
                '(y, var, mask, covar) ← _get_yz self L true;
                match covar with
                | Some C => _get_chi2_covar self y C mask
                | None => raise ValueError
                end
              else
                '(y, var, mask, _) ← _get_yz self L false;
                _get_chi2 self y var mask);
  pr ← _add_priors self;
  let lnlikely := lnlikely + pr in
  (* take care of limited parameter space by setting prior probability
     to 0 [ -ln(prob) = inf] *)
  lim ← _prior_limits self;
  ret (lnlikely + lim).

(** the density registered by [make_dist_prior]:
    [lambda x: sp.exp(-0.5*(x - m)**2/ ( (c2-c1)/2 )**2 )] *)
Definition gaussian_prior (c1 m c2 : float) : float -> float :=
  fun x =>
    fexp (-0.5 * ((x - m) * (x - m)) / (((c2 - c1) / 2) * ((c2 - c1) / 2))).

(** the first four statements of [make_dist_prior]: the column of [pname]
    in the chain, after the burn-in cut *)
Definition burned_marginal (C : Chain) (pname : string) (burn : float)
  : result (list float) :=
  let params := transpose (pchain C) in
  col ← py_getitem (index C) pname;
  prior_dist ← py_index params (Z.of_nat col);
  let icut := float_of_Z (Z.of_nat (length prior_dist)) * burn in
  cut ← int_of_float icut;
  ret (py_slice_from prior_dist cut).

Definition make_dist_prior (self : RescaleModel) (C : Chain) (pname : string)
    (burn : float) : result RescaleModel :=
  prior_dist ← burned_marginal C pname burn;
  pct ← percentile prior_dist [16; 50; 84];
  match pct with
  | [c1; m; c2] =>
      (* will model the distribution as a gaussian, for now.... *)
      let self := set_prior_prob self
                    (<[pname := gaussian_prior c1 m c2]> (prior_prob self)) in
      d ← attr (p self);
      ret (set_p self (<[pname := m]> d))
  | _ => raise ValueError
  end.

Definition make_func_prior {P} (self : RescaleModel) (pname : string)
    (func : float -> P -> float) (params : P) : RescaleModel :=
  set_prior_prob self (<[pname := fun x => func x params]> (prior_prob self)).

(** [step()]: the proposal.  The random generator is a tape of the values
    its calls return, read from position [pos] on; the new position is
    returned with the proposal. *)
Definition step (self : RescaleModel) (tape : nat -> float) (pos : nat)
  : result (gmap string float * nat) :=
  d ← attr (p self);
  foldM (fun '(pout, pos) key =>
           d ← attr (p self);
           v ← py_getitem d key;
           sc ← attr (set_scale self);
           s ← py_getitem sc key;
           ret (<[key := v + s * tape pos]> pout, S pos))
        (keys d) (∅, pos).
End Model.

(** ** Chain *)

(** [Chain()] *)
Definition Chain_new : Chain := {| pchain := []; lnlikely := []; index := ∅ |}.

(** [Chain.add(M, chi2)] (the figure it creates on the first call is not
    modelled) *)
Definition Chain_add (self : Chain) (M : RescaleModel) (chi2 : float)
  : result Chain :=
  idx ← (if decide (length (pchain self) = 0%nat) then
           d ← attr (p M);
           ret (fold_left (fun ix '(i, k) => <[k := i]> ix)
                          (imap (fun i k => (i, k)) (keys d)) (index self))
         else ret (index self));
  d ← attr (p M);
  ret {| pchain := pchain self ++ [values d];
         lnlikely := lnlikely self ++ [chi2];
         index := idx |}.

(** ** Sampler ([metro_hast]) *)

Section Sampler.
Local Open Scope float_scope.

Variables fexp flog : float -> float.
Variable interp : Spectrum -> list float -> result (list float * list float).
Variable linalg_inv : matrix -> result matrix.

(** [M(D)] *)
Definition evaluate (M : RescaleModel) (D : Spectrum) : result float :=
  __call__ fexp flog interp linalg_inv M D.

(** The variables of [metro_hast].  [M] is the caller's model object,
    [Mtry] the deep copy made on entry; [pos] is the position on the tape
    of random draws. *)
Record mh_state : Type := {
  M : RescaleModel;
  Mtry : RescaleModel;
  chi2 : float;
  chi2best : float;
  pbest : gmap string float;
  accept : Z;
  c : Chain;
  pos : nat
}.

(** the statements before the loop *)
Definition mh_init (D : Spectrum) (M0 : RescaleModel) : result mh_state :=
  let Mtry0 := M0 in
  let chi2 := 1.0e12 in
  let chi2best := 1.0e12 in
  pbest ← attr (p M0);
  let accept := 0%Z in
  let c := Chain_new in
  v ← evaluate M0 D;
  c ← Chain_add c M0 v;
  ret {| M := M0; Mtry := Mtry0; chi2 := chi2; chi2best := chi2best;
         pbest := pbest; accept := accept; c := c; pos := 0 |}.

(** one pass through the body of [for i in range(ntrial)] *)
Definition mh_iter (tape : nat -> float) (D : Spectrum) (s : mh_state)
  : result mh_state :=
  '(ptry, pos1) ← step (M s) tape (pos s);
  let Mtry1 := set_p (Mtry s) ptry in
  chi2try ← evaluate Mtry1 D;
  if chi2try <? chi2 s then
    ptry' ← attr (p Mtry1);
    let M1 := set_p (M s) ptry' in
    let chi2' := chi2try in
    let accept' := (accept s + 1)%Z in
    c' ← Chain_add (c s) M1 chi2';
    if chi2' <? chi2best s then
      pb ← attr (p M1);
      ret {| M := M1; Mtry := Mtry1; chi2 := chi2'; chi2best := chi2';
             pbest := pb; accept := accept'; c := c'; pos := pos1 |}
    else
      ret {| M := M1; Mtry := Mtry1; chi2 := chi2'; chi2best := chi2best s;
             pbest := pbest s; accept := accept'; c := c'; pos := pos1 |}
  else
    let prob := fexp (- chi2try / chi2 s) in
    let r := tape pos1 in
    let pos2 := S pos1 in
    if r <=? prob then
      ptry' ← attr (p Mtry1);
      let M1 := set_p (M s) ptry' in
      let chi2' := chi2try in
      let accept' := (accept s + 1)%Z in
      c' ← Chain_add (c s) M1 chi2';
      ret {| M := M1; Mtry := Mtry1; chi2 := chi2'; chi2best := chi2best s;
             pbest := pbest s; accept := accept'; c := c'; pos := pos2 |}
    else
      c' ← Chain_add (c s) (M s) (chi2 s);
      ret {| M := M s; Mtry := Mtry1; chi2 := chi2 s; chi2best := chi2best s;
             pbest := pbest s; accept := accept s; c := c'; pos := pos2 |}.

(** [ntrial] passes *)
Fixpoint mh_loop (tape : nat -> float) (D : Spectrum) (ntrial : nat)
    (s : mh_state) : result mh_state :=
  match ntrial with
  | O => ret s
  | S n => s' ← mh_iter tape D s; mh_loop tape D n s'
  end.

(** What [metro_hast] returns, [(chi2best, pbest, accept/float(ntrial))]
    and the chain when [keep], together with the caller's model object as
    the call leaves it. *)
Record mh_result : Type := {
  res_chi2best : float;
  res_pbest : gmap string float;
  res_fraction : float;
  res_chain : option Chain;
  res_M : RescaleModel
}.

(** [metro_hast(ntrial, D, M, plot=False, keep)]; the progress printing is
    not modelled. *)
Definition metro_hast (tape : nat -> float) (ntrial : nat) (D : Spectrum)
    (M0 : RescaleModel) (keep : bool) : result mh_result :=
  s0 ← mh_init D M0;
  s ← mh_loop tape D ntrial s0;
  (* accept/float(ntrial) *)
  if decide (ntrial = 0%nat) then raise ZeroDivisionError
  else
    let frac := float_of_Z (accept s) / float_of_Z (Z.of_nat ntrial) in
    ret {| res_chi2best := chi2best s; res_pbest := pbest s;
           res_fraction := frac;
           res_chain := if keep then Some (c s) else None;
           res_M := M s |}.
End Sampler.


(** ** Test doubles and sample data

    Concrete stand-ins for the library functions, used only to run the
    definitions above on sample inputs.  [exp_model] is exact at [nan] and
    the infinities and a truncated series elsewhere; the statements that
    quantify over [fexp] do not depend on it. *)

Module Fixture.
Local Open Scope float_scope.

Definition exp_series (y : float) : float :=
  fold_right (fun n acc => 1 + y / n * acc) 1
             [1; 2; 3; 4; 5; 6; 7; 8; 9; 10; 11; 12; 13; 14].

Definition exp_model (x : float) : float :=
  if is_nan x then nan
  else if x <? -745.2 then 0
  else if 709.7 <? x then infinity
  else Nat.iter 10 (fun v => v * v) (exp_series (x / 1024)).

(** not used by the sample runs, which register no prior *)
Definition log_model (x : float) : float := nan.

(** linear interpolation of flux and error on the grid of the spectrum *)
Definition lin_interp (s : Spectrum) (xs : list float)
  : result (list float * list float) :=
  match wv s with
  | [] => raise ValueError
  | _ =>
      let last := (length (wv s) - 1)%nat in
      let at_ (a : list float) (i : nat) := nth (Nat.min i last) a 0 in
      let one := fun xi =>
        let i := searchsorted1 (wv s) xi in
        let x0 := at_ (wv s) (i - 1)%nat in
        let x1 := at_ (wv s) i in
        let t := if x1 =? x0 then 0 else (xi - x0) / (x1 - x0) in
        (at_ (f s) (i - 1)%nat + t * (at_ (f s) i - at_ (f s) (i - 1)%nat),
         PrimFloat.sqrt (t * t * (at_ (ef s) i * at_ (ef s) i)
                         + (1 - t) * (1 - t)
                           * (at_ (ef s) (i - 1)%nat * at_ (ef s) (i - 1)%nat))) in
      ret (map (fun xi => fst (one xi)) xs, map (fun xi => snd (one xi)) xs)
  end.

(** no matrix inverse: the sample runs use the fast mode *)
Definition no_inv (C : matrix) : result matrix := raise LinAlgError.

Fixpoint insert_sorted (v : float) (l : list float) : list float :=
  match l with
  | [] => [v]
  | w :: l' => if v <=? w then v :: l else w :: insert_sorted v l'
  end.

(** percentiles by linear interpolation between order statistics *)
Definition percentile_linear (a q : list float) : result (list float) :=
  let s := fold_right insert_sorted [] a in
  match s with
  | [] => raise ValueError
  | _ =>
      mapM (fun qi =>
              let pos := qi / 100 * float_of_Z (Z.of_nat (length s - 1)) in
              lo ← int_of_float pos;
              let frac := pos - float_of_Z lo in
              let v0 := nth (Z.to_nat lo) s 0 in
              let v1 := nth (Nat.min (Z.to_nat lo + 1) (length s - 1)) s 0 in
              ret (v0 + frac * (v1 - v0))) q
  end.

(** a reference line on a 12-point grid of spacing 1 and a candidate *)
Definition Lref12 : Spectrum := {|
  wv := [0; 1; 2; 3; 4; 5; 6; 7; 8; 9; 10; 11];
  f := [0.1; 0.2; 0.5; 1.2; 2.4; 3.6; 4.0; 3.4; 2.2; 1.0; 0.4; 0.1];
  ef := [0.1; 0.1; 0.1; 0.1; 0.1; 0.1; 0.1; 0.1; 0.1; 0.1; 0.1; 0.1]
|}.

Definition D12 : Spectrum := {|
  wv := [0; 1; 2; 3; 4; 5; 6; 7; 8; 9; 10; 11];
  f := [0.2; 0.3; 0.6; 1.0; 2.0; 3.0; 3.3; 2.9; 1.7; 0.9; 0.3; 0.2];
  ef := [0.1; 0.1; 0.1; 0.1; 0.1; 0.1; 0.1; 0.1; 0.1; 0.1; 0.1; 0.1]
|}.

(** a reference line with 6 samples *)
Definition Lref6 : Spectrum := {|
  wv := [0; 1; 2; 3; 4; 5];
  f := [0.1; 1.2; 3.6; 3.4; 1.0; 0.1];
  ef := [0.1; 0.1; 0.1; 0.1; 0.1; 0.1]
|}.

Definition D6 : Spectrum := {|
  wv := [0; 1; 2; 3; 4; 5];
  f := [0.2; 1.0; 3.0; 2.9; 0.9; 0.2];
  ef := [0.1; 0.1; 0.1; 0.1; 0.1; 0.1]
|}.

(** a tape of draws: [randn()] returns [g] at the first [n] reads, every
    later read returns [r] *)
Definition tape_of (n : nat) (g r : float) : nat -> float :=
  fun i => if (i <? n)%nat then g else r.

Definition init (Lref0 : Spectrum) (kernel : string) : result RescaleModel :=
  __init__ Lref0 kernel false.

(** the models [RescaleModel(Lref12, kernel)] and [RescaleModel(Lref6,
    'Delta')] *)
Definition bare (L : Spectrum) (name : string) : RescaleModel :=
  {| Lref := L; use_covar := false; prior_prob := ∅; kernelname := name;
     _get_kernel := None; p := None; set_scale := None |}.

Definition delta_p : gmap string float :=
  {[ "shift" := 1.0e-4; "scale" := 1.0 ]}.
Definition delta_scale : gmap string float :=
  {[ "shift" := 0.05; "scale" := 0.02 ]}.
Definition gauss_p (width : float) : gmap string float :=
  {[ "shift" := 1.0e-4; "scale" := 1.00; "width" := width ]}.
Definition gauss_scale : gmap string float :=
  {[ "shift" := 0.05; "scale" := 0.02; "width" := 0.30 ]}.
Definition hermite_p (width h3 h4 : float) : gmap string float :=
  {[ "shift" := 1.0e-4; "scale" := 1.00; "width" := width;
     "h3" := h3; "h4" := h4 ]}.
Definition hermite_scale : gmap string float :=
  {[ "shift" := 0.05; "scale" := 0.02; "width" := 0.30;
     "h3" := 0.03; "h4" := 0.03 ]}.

Definition Delta12 : RescaleModel :=
  set_family (bare Lref12 "Delta") K_Delta delta_p delta_scale.
Definition Delta6 : RescaleModel :=
  set_family (bare Lref6 "Delta") K_Delta delta_p delta_scale.
Definition Gauss12 : RescaleModel :=
  set_family (bare Lref12 "Gauss") K_Gauss (gauss_p 0.51) gauss_scale.
Definition Hermite12 : RescaleModel :=
  set_family (bare Lref12 "Hermite") K_Hermite (hermite_p 0.46 0 0)
             hermite_scale.

(** parameters and grids in exact arithmetic *)
Definition params_R (width h3 h4 : R) : gmap string R :=
  {[ "shift" := 0%R; "scale" := 1%R; "width" := width; "h3" := h3; "h4" := h4 ]}.

Definition getp_R (width h3 h4 : R) (key : string) : result R :=
  py_getitem (params_R width h3 h4) key.

Definition grid4 : list R := [0; 1; 2; 3]%R.
Definition grid8 : list R := [0; 1; 2; 3; 4; 5; 6; 7]%R.

(** [M(D)] with the stand-ins *)
Definition eval (M0 : RescaleModel) (D : Spectrum) : result float :=
  __call__ exp_model log_model lin_interp no_inv M0 D.

Definition run (tape : nat -> float) (ntrial : nat) (D : Spectrum)
    (M0 : RescaleModel) : result mh_result :=
  metro_hast exp_model log_model lin_interp no_inv tape ntrial D M0 true.

(** the rows and chi2 column of the chain a run returns, and its acceptance
    fraction *)
Definition run_chain (tape : nat -> float) (ntrial : nat) (D : Spectrum)
    (M0 : RescaleModel) : result (list (list float) * list float * float) :=
  r ← run tape ntrial D M0;
  match res_chain r with
  | Some ch => ret (pchain ch, lnlikely ch, res_fraction r)
  | None => raise ValueError
  end.

(** the items of a model's [p] *)
Definition items_p (M0 : RescaleModel) : result (list (string * float)) :=
  d ← attr (p M0); ret (map_to_list d).

(** the items of the caller's [M.p] after a run *)
Definition run_params (tape : nat -> float) (ntrial : nat) (D : Spectrum)
    (M0 : RescaleModel) : result (list (string * float)) :=
  r ← run tape ntrial D M0; items_p (res_M r).

(** the state of [metro_hast] on entry to the loop, for a model with
    parameters [d] and [M(D) = v0] *)
Definition chain0 (d : gmap string float) (v0 : float) : Chain :=
  {| pchain := [values d]; lnlikely := [v0];
     index := fold_left (fun ix '(i, k) => <[k := i]> ix)
                        (imap (fun i k => (i, k)) (keys d)) ∅ |}.

Definition state0 (M0 : RescaleModel) (d : gmap string float) (v0 : float)
  : mh_state :=
  {| M := M0; Mtry := M0; chi2 := 1.0e12; chi2best := 1.0e12; pbest := d;
     accept := 0; c := chain0 d v0; pos := 0 |}.

(** a chain of six records of a Gauss model *)
Definition chainG : Chain :=
  {| pchain := [[1; 10; 100]; [2; 20; 200]; [3; 30; 300];
                [4; 40; 400]; [5; 50; 500]; [6; 60; 600]];
     lnlikely := [9; 8; 7; 6; 5; 4];
     index := index (chain0 (gauss_p 0.51) 0) |}.

(** the state after the first trial of the sample run of the Delta model *)
Definition delta_p1 : gmap string float :=
  {[ "shift" := 0.050100000000000006; "scale" := 1.02 ]}.

Definition result1 : mh_result :=
  {| res_chi2best := 70.610789101766144; res_pbest := delta_p1;
     res_fraction := 1;
     res_chain := Some {| pchain := [values delta_p; values delta_p1];
                          lnlikely := [79.014203100167933; 70.610789101766144];
                          index := index (chain0 delta_p 0) |};
     res_M := set_p Delta12 delta_p1 |}.

Definition state1 : mh_state :=
  {| M := set_p Delta12 delta_p1; Mtry := set_p Delta12 delta_p1;
     chi2 := 70.610789101766144; chi2best := 70.610789101766144;
     pbest := delta_p1; accept := 1;
     c := {| pchain := [values delta_p; values delta_p1];
             lnlikely := [79.014203100167933; 70.610789101766144];
             index := index (chain0 delta_p 0) |};
     pos := 2 |}.
End Fixture.

(** ** Forward transform ([RescaleModel.output]) *)

Section Output.
Local Open Scope float_scope.

Variable fexp : float -> float.
Variable interp : Spectrum -> list float -> result (list float * list float).

(** [output(S, getcovar)]: the rescaled spectrum, the mask of the samples of
    [S] it is defined on and, when [getcovar], its covariance matrix. *)
Definition output (self : RescaleModel) (S : Spectrum) (getcovar : bool)
  : result (Spectrum * list bool * option matrix) :=
  (* shift *)
  shift ← getp self "shift";
  let s := {| wv := map (fun w => w - shift) (wv S); f := f S; ef := ef S |} in
  lo ← np_min (wv s);
  hi ← np_max (wv s);
  let m := map (fun w => (lo <=? w) && (w <=? hi)) (wv S) in
  wvm ← compress (wv S) m;
  '(y, z) ← interp s wvm;
  (* convolve *)
  k ← call_kernel fexp self wvm;
  covar ← (if getcovar then
             bw ← breakwidth_of self;
             C ← get_covarmatrix (wv s) wvm (ef s) k bw; ret (Some C)
           else ret None);
  z ← convolve_same (np_sq z) (np_sq k);
  let z := map PrimFloat.sqrt z in
  y ← convolve_same y k;
  (* scale *)
  scale ← getp self "scale";
  let z := map (fun v => v * scale) z in
  let y := map (fun v => v * scale) y in
  let covar := (fun C => mat_scale C (scale * scale)) <$> covar in
  (* edge effects left in for now *)
  ret ({| wv := wvm; f := y; ef := z |}, m, covar).
End Output.

(** ** Specification predicates *)

(** [C[i, j] == C[j, i]] for every pair of indices (both sides are absent
    together outside the array) *)
Definition symmetric (C : matrix) : Prop :=
  forall i j : nat, mat_lookup C i j = mat_lookup C j i.

(** an [n] x [m] array *)
Definition is_shape (n m : nat) (A : matrix) : Prop :=
  length A = n /\ Forall (fun row => length row = m) A.

(** the loop [for i, k in enumerate(ks): index[k] = i] of [Chain.add] *)
Definition enumerate_into (ks : list string) (ix : gmap string nat)
  : gmap string nat :=
  fold_left (fun ix '(i, k) => <[k := i]> ix)
            (imap (fun i k => (i, k)) ks) ix.

(** the kernel names that [__init__] has a branch for *)
Definition recognized (kernel : string) : bool :=
  String.eqb kernel "Delta" || String.eqb kernel "Gauss"
  || String.eqb kernel "Hermite".

(** The bounds test of [_prior_limits], as a predicate on the parameter
    dictionary and the pixel spacing [dlambda] of the reference: the width
    of a model with more than two parameters is below half a pixel, or
    [h3] or [h4] of a model with more than three parameters is below -0.3
    or above 0.3. *)
Definition out_of_bounds (d : gmap string float) (dlambda : float) : bool :=
  ((2 <? size d)%nat &&
   match d !! "width" with
   | Some width => (width / dlambda <? 0.5)%float
   | None => false
   end)
  || ((3 <? size d)%nat &&
      match d !! "h3", d !! "h4" with
      | Some h3, Some h4 =>
          (h3 <? -0.3)%float || (0.3 <? h3)%float
          || (h4 <? -0.3)%float || (0.3 <? h4)%float
      | _, _ => false
      end).

Definition penalty (d : gmap string float) (dlambda : float) : float :=
  if out_of_bounds d dlambda then infinity else 0%float.

(** [x] is [nan] or [-inf]: the values whose sum with [+inf] is [nan] *)
Definition nan_or_neg_infinity (x : float) : bool :=
  match Prim2SF x with
  | S754_nan | S754_infinity true => true
  | _ => false
  end.

(** [chi] is the chi-square term of the evaluation [M0(D)], computed from
    what [_get_yz] returns by [_get_chi2_covar] when the model uses the
    covariance and by [_get_chi2] otherwise, and [pr] is the term of the
    registered priors. *)
Definition chi2_and_priors (fexp flog : float -> float)
    (interp : Spectrum -> list float -> result (list float * list float))
    (linalg_inv : matrix -> result matrix)
    (M0 : RescaleModel) (D : Spectrum) (chi pr : float) : Prop :=
  (exists (y var : list float) (mask : list bool) (oc : option matrix),
     _get_yz fexp interp M0 D (use_covar M0) = inr (y, var, mask, oc) /\
     if use_covar M0
     then exists C, oc = Some C /\
                    _get_chi2_covar linalg_inv M0 y C mask = inr chi
     else _get_chi2 M0 y var mask = inr chi) /\
  _add_priors flog M0 = inr pr.

(** the keys that [_prior_limits] reads are there *)
Definition well_keyed (d : gmap string float) : Prop :=
  ((2 < size d)%nat -> is_Some (d !! "width")) /\
  ((3 < size d)%nat -> is_Some (d !! "h3") /\ is_Some (d !! "h4")).

(** the sum of the absolute values of the elements of a kernel, in exact
    arithmetic *)
Definition sum_abs (k : list R) : R := fold_right (fun v acc => Rabs v + acc)%R 0%R k.

(** The divisions of the Gauss and Hermite formulas are divisions by
    non-zero numbers: the grid has a first and a second point whose spacing
    [dlambda] is not 0, and the width is not 0, so that the width in pixels
    [width/dlambda] is a proper quotient and is not 0. *)
Definition pixel_width_nonzero (getp : string -> result R) (x : list R)
  : Prop :=
  exists x0 x1 w : R,
    py_index x 0 = inr x0 /\ py_index x 1 = inr x1 /\ getp "width" = inr w /\
    (x1 - x0 <> 0)%R /\ (w <> 0)%R.

(** the kernel has a negative and a positive element *)
Definition both_signs (k : list R) : Prop :=
  exists a b : R, a ∈ k /\ b ∈ k /\ (a < 0)%R /\ (0 < b)%R.

(** the states of [metro_hast] after each of [n] trials, in order *)
Fixpoint mh_states (fexp flog : float -> float)
    (interp : Spectrum -> list float -> result (list float * list float))
    (linalg_inv : matrix -> result matrix)
    (tape : nat -> float) (D : Spectrum) (n : nat) (s : mh_state)
  : result (list mh_state) :=
  match n with
  | O => ret []
  | S n' =>
      s' ← mh_iter fexp flog interp linalg_inv tape D s;
      rest ← mh_states fexp flog interp linalg_inv tape D n' s';
      ret (s' :: rest)
  end.

(** one trial, seen from outside: the proposal was accepted (one more
    acceptance), or it was rejected and the current model and chi2 are
    unchanged *)
Definition trial_step (a b : mh_state) : Prop :=
  accept b = (accept a + 1)%Z \/
  (accept b = accept a /\ M b = M a /\ chi2 b = chi2 a).

(** [R] holds of every two neighbours in the list *)
Definition adjacent {A} (R : A -> A -> Prop) (l : list A) : Prop :=
  forall (i : nat) (a b : A), l !! i = Some a -> l !! S i = Some b -> R a b.

(** the rule of one trial that scored [chi2try] for the proposal [ptry],
    [pos1] being the tape position after the proposal's draws: [s'] is the
    state after the trial *)
Definition acceptance_rule (fexp : float -> float) (tape : nat -> float)
    (s : mh_state) (ptry : gmap string float) (pos1 : nat) (chi2try : float)
    (s' : mh_state) : Prop :=
  let r := tape pos1 in
  let accepted :=
    ((chi2try <? chi2 s) || (r <=? fexp (- chi2try / chi2 s)))%float in
  (if accepted
   then p (M s') = Some ptry /\ chi2 s' = chi2try /\
        accept s' = (accept s + 1)%Z
   else M s' = M s /\ chi2 s' = chi2 s /\ accept s' = accept s) /\
  pos s' = (if (chi2try <? chi2 s)%float then pos1 else S pos1).

(** the chain row and the chi2 recorded for a state *)
Definition row_of (s : mh_state) : list float :=
  match p (M s) with
  | Some d => values d
  | None => []
  end.

(** two models that differ at most in [p] *)
Definition same_but_p (A B : RescaleModel) : Prop :=
  Lref A = Lref B /\ use_covar A = use_covar B /\
  prior_prob A = prior_prob B /\ kernelname A = kernelname B /\
  _get_kernel A = _get_kernel B /\ set_scale A = set_scale B.

(** What a run of [ntrial] trials from the entry state [s0] through the
    states [ss] leaves in the chain: the pre-loop record, then one record
    per trial holding the parameters and chi2 current after that trial. *)
Definition chain_records (fexp flog : float -> float)
    (interp : Spectrum -> list float -> result (list float * list float))
    (linalg_inv : matrix -> result matrix)
    (tape : nat -> float) (D : Spectrum) (M0 : RescaleModel) (ntrial : nat)
    (s0 : mh_state) (ss : list mh_state) : Prop :=
  let s := List.last ss s0 in
  mh_loop fexp flog interp linalg_inv tape D ntrial s0 = inr s /\
  length ss = ntrial /\
  adjacent trial_step (s0 :: ss) /\
  chi2 s0 = 1.0e12%float /\
  pchain (c s) = row_of s0 :: map row_of ss /\
  (exists v0, evaluate fexp flog interp linalg_inv M0 D = inr v0 /\
              lnlikely (c s) = v0 :: map chi2 ss) /\
  length (pchain (c s)) = S ntrial /\
  length (lnlikely (c s)) = S ntrial /\
  (ntrial <> 0%nat ->
   exists r, metro_hast fexp flog interp linalg_inv tape ntrial D M0 true = inr r
             /\ res_chain r = Some (c s)).

(** The caller's model after [metro_hast] returned [r]: only [p] may have
    changed, it holds the parameters of the last chain record, and it is
    unchanged when the acceptance counter is 0. *)
Definition caller_model_after (fexp flog : float -> float)
    (interp : Spectrum -> list float -> result (list float * list float))
    (linalg_inv : matrix -> result matrix)
    (tape : nat -> float) (D : Spectrum) (M0 : RescaleModel) (ntrial : nat)
    (r : mh_result) : Prop :=
  same_but_p (res_M r) M0 /\
  (exists d, p (res_M r) = Some d /\
             forall ch, res_chain r = Some ch ->
                        List.last (pchain ch) [] = values d) /\
  exists s0 s,
    mh_init fexp flog interp linalg_inv D M0 = inr s0 /\
    mh_loop fexp flog interp linalg_inv tape D ntrial s0 = inr s /\
    res_M r = M s /\
    (0 <= accept s)%Z /\ (accept s = 0%Z -> res_M r = M0).

(** [dist] is the marginal of the parameter [pname] in the chain [C] after
    the burn-in cut: with [col] the column registered for [pname] in the
    index and [cut = int(n * burn)] for a chain of [n] records, [dist] has
    one element per record from the record the slice [[cut:]] starts at, and
    that element is the entry of the record in column [col]. *)
Definition marginal_after_burn (C : Chain) (pname : string) (burn : float)
    (dist : list float) : Prop :=
  exists (col : nat) (cut : Z),
    index C !! pname = Some col /\
    int_of_float (float_of_Z (Z.of_nat (length (pchain C))) * burn)%float
    = inr cut /\
    let start := Z.to_nat (slice_bound (Z.of_nat (length (pchain C))) cut) in
    length dist = (length (pchain C) - start)%nat /\
    forall (j : nat) (row : list float),
      pchain C !! (start + j)%nat = Some row -> dist !! j = row !! col.

(** What [make_dist_prior] leaves in the model [M1] it was called on, [M0]
    being the model before the call.  [dist] is the marginal of [pname]
    after the burn-in cut, and [c1], [m], [c2] are what [sp.percentile]
    returns for it at 16, 50 and 84.  The prior registered under [pname] is
    the density [exp(-0.5*(x - m)**2/((c2 - c1)/2)**2)], the value of the
    parameter [pname] is [m], and nothing else changed: the other priors,
    the other parameters and the other fields are those of [M0]. *)
Definition dist_prior_effect (fexp : float -> float)
    (percentile : list float -> list float -> result (list float))
    (M0 : RescaleModel) (C : Chain) (pname : string) (burn : float)
    (M1 : RescaleModel) : Prop :=
  exists (d d1 : gmap string float) (dist : list float) (c1 m c2 : float)
         (dens : float -> float),
    p M0 = Some d /\
    marginal_after_burn C pname burn dist /\
    percentile dist [16; 50; 84]%float = inr [c1; m; c2] /\
    p M1 = Some d1 /\ d1 = <[pname := m]> d /\
    d1 !! pname = Some m /\
    (forall key, key <> pname -> d1 !! key = d !! key) /\
    prior_prob M1 = <[pname := dens]> (prior_prob M0) /\
    prior_prob M1 !! pname = Some dens /\
    (forall x : float,
       dens x = fexp (-0.5 * ((x - m) * (x - m))
                      / (((c2 - c1) / 2) * ((c2 - c1) / 2)))%float) /\
    (forall key, key <> pname ->
                 prior_prob M1 !! key = prior_prob M0 !! key) /\
    same_but_p (set_prior_prob M1 (prior_prob M0)) M0.

(** The outcome of a fast-mode evaluation whose trimmed overlap is empty:
    [_get_yz] returns empty flux and variance arrays and an all-false mask,
    the chi-square sum is 0, and the value [v] returned is made of the prior
    terms alone. *)
Definition priors_alone (fexp flog : float -> float)
    (interp : Spectrum -> list float -> result (list float * list float))
    (M0 : RescaleModel) (D : Spectrum) (v : float) : Prop :=
  let none := map (fun _ => false) (wv (Lref M0)) in
  _get_yz fexp interp M0 D false = inr ([], [], none, None) /\
  _get_chi2 M0 [] [] none = inr 0%float /\
  exists pr lim : float,
    _add_priors flog M0 = inr pr /\ _prior_limits M0 = inr lim /\
    v = (0 + pr + lim)%float.

(** one pass of the loop of [step]: the proposal so far and the tape
    position, before and after the key [key] *)
Definition step_body (tape : nat -> float) (self : RescaleModel)
  : gmap string float * nat -> string -> result (gmap string float * nat) :=
  fun '(pout, pos) key =>
    d ← attr (p self);
    v ← py_getitem d key;
    sc ← attr (set_scale self);
    s ← py_getitem sc key;
    ret (<[key := (v + s * tape pos)%float]> pout, S pos).

(** the keys of the model a run started from are those of every parameter
    set the run returns or records *)
Definition keys_kept (M0 : RescaleModel) (r : mh_result) : Prop :=
  exists d0 d : gmap string float,
    p M0 = Some d0 /\ p (res_M r) = Some d /\ dom d = dom d0 /\
    dom (res_pbest r) = dom d0 /\
    forall ch, res_chain r = Some ch ->
               Forall (fun row => length row = size d0) (pchain ch).

(** the best chi2 and parameters a run returns: the constant 1e12 with the
    parameters the run started from, or a chi2 below 1e12 that stands in
    the chi2 column of a record appended by a trial, the row of which holds
    the best parameters by name: the value of the parameter [k] is the entry
    in the column that the index of the chain gives for [k] *)
Definition best_recorded (M0 : RescaleModel) (r : mh_result) : Prop :=
  exists (d0 : gmap string float) (ch : Chain),
    p M0 = Some d0 /\ res_chain r = Some ch /\
    ((res_chi2best r = 1.0e12%float /\ res_pbest r = d0) \/
     exists (i : nat) (row : list float),
       (1 <= i)%nat /\ pchain ch !! i = Some row /\
       lnlikely ch !! i = Some (res_chi2best r) /\
       (res_chi2best r <? 1.0e12)%float = true /\
       forall (k : string) (v : float),
         res_pbest r !! k = Some v <->
         exists j : nat, index ch !! k = Some j /\ row !! j = Some v).

(** the parameter names of a kernel family *)
Definition family_keys (g : kernel_fn) : gset string :=
  match g with
  | K_Delta => {[ "shift"; "scale" ]}
  | K_Gauss => {[ "shift"; "scale"; "width" ]}
  | K_Hermite => {[ "shift"; "scale"; "width"; "h3"; "h4" ]}
  end.

(** the kernel generator [__init__] binds for a recognized name *)
Definition kernel_of_name (kernel : string) : option kernel_fn :=
  if String.eqb kernel "Delta" then Some K_Delta
  else if String.eqb kernel "Gauss" then Some K_Gauss
  else if String.eqb kernel "Hermite" then Some K_Hermite
  else None.

(** * Proofs *)

(** ** IEEE binary64 facts *)

Lemma float_add_comm (x y : float) : (x + y = y + x)%float.
Proof.
  apply Prim2SF_inj. rewrite !add_spec. unfold SF64add, SFadd.
  destruct (Prim2SF x) as [sx|sx| |sx mx ex], (Prim2SF y) as [sy|sy| |sy my ey];
    try reflexivity; try (destruct sx, sy; reflexivity).
  rewrite (Z.min_comm ey ex). f_equal. apply Z.add_comm.
Qed.

(** [x + inf = inf] unless [x] is [nan] or [-inf]. *)
Lemma float_add_infinity (x : float) :
  Prim2SF x <> S754_nan -> Prim2SF x <> S754_infinity true ->
  (x + infinity = infinity)%float.
Proof.
  intros Hn Hi. apply Prim2SF_inj. rewrite add_spec.
  change (Prim2SF infinity) with (S754_infinity false).
  unfold SF64add, SFadd.
  destruct (Prim2SF x) as [sx|sx| |sx mx ex]; try reflexivity; try congruence.
  destruct sx; congruence.
Qed.

Lemma float_add_infinity_nan (x : float) :
  Prim2SF x = S754_nan \/ Prim2SF x = S754_infinity true ->
  (x + infinity = nan)%float.
Proof.
  intros H. apply Prim2SF_inj. rewrite add_spec.
  change (Prim2SF infinity) with (S754_infinity false).
  change (Prim2SF nan) with S754_nan.
  unfold SF64add, SFadd. destruct H as [-> | ->]; reflexivity.
Qed.

(** ** The exception monad *)

Lemma bind_inr {A B} (c : result A) (k : A -> result B) (b : B) :
  c ≫= k = inr b -> exists a, c = inr a /\ k a = inr b.
Proof. destruct c as [e|a]; simpl; [discriminate | eauto]. Qed.

Lemma ret_inr {A} (a b : A) : ret a = inr b -> a = b.
Proof. unfold ret, mret, result_ret. congruence. Qed.

(** inversion of a successful monadic computation, one bind at a time *)
Ltac inv_bind H :=
  repeat match type of H with
         | _ ≫= _ = inr _ =>
             let a := fresh "a" in
             let Ha := fresh "Ha" in
             apply bind_inr in H; destruct H as (a & Ha & H)
         | ret _ = inr _ => apply ret_inr in H
         | raise _ = inr _ => discriminate H
         end.

(** a loop whose body keeps an invariant keeps it *)
Lemma foldM_invariant {A S} (P : S -> Prop) (body : S -> A -> result S) xs :
  (forall s x s', P s -> body s x = inr s' -> P s') ->
  forall s s', P s -> foldM body xs s = inr s' -> P s'.
Proof.
  intros Hbody. induction xs as [|x xs IH]; simpl; intros s s' Hs H.
  - apply ret_inr in H. congruence.
  - apply bind_inr in H. destruct H as (s1 & H1 & H2). eauto.
Qed.

(** ** Arrays *)

Lemma list_of_fun_lookup {A} (n : nat) (g : nat -> A) (i : nat) :
  list_of_fun n g !! i = if (i <? n)%nat then Some (g i) else None.
Proof.
  unfold list_of_fun. change (map g (seq 0 n)) with (g <$> seq 0 n).
  rewrite list_lookup_fmap. destruct (Nat.ltb_spec i n) as [Hlt|Hge].
  - rewrite lookup_seq_lt by done. reflexivity.
  - rewrite lookup_seq_ge by done. reflexivity.
Qed.

Lemma list_of_fun_length {A} (n : nat) (g : nat -> A) :
  length (list_of_fun n g) = n.
Proof. unfold list_of_fun. rewrite length_map, length_seq. reflexivity. Qed.

Lemma mat_of_fun_lookup (n m : nat) (g : nat -> nat -> float) (i j : nat) :
  mat_lookup (mat_of_fun n m g) i j =
  if (i <? n)%nat && (j <? m)%nat then Some (g i j) else None.
Proof.
  unfold mat_lookup, mat_of_fun. rewrite list_of_fun_lookup.
  destruct (i <? n)%nat; simpl; [|reflexivity].
  apply list_of_fun_lookup.
Qed.

Lemma mat_of_fun_shape (n m : nat) (g : nat -> nat -> float) :
  is_shape n m (mat_of_fun n m g).
Proof.
  split; [apply list_of_fun_length|].
  apply Forall_lookup. intros i row Hrow. unfold mat_of_fun in Hrow.
  rewrite list_of_fun_lookup in Hrow. destruct (i <? n)%nat; [|discriminate].
  injection Hrow as <-. apply list_of_fun_length.
Qed.

Lemma is_shape_lookup (n m : nat) (A : matrix) (i j : nat) :
  is_shape n m A ->
  mat_lookup A i j =
  if (i <? n)%nat && (j <? m)%nat then Some (mat_get A i j) else None.
Proof.
  intros [Hn Hrows]. unfold mat_get, mat_lookup.
  destruct (Nat.ltb_spec i n) as [Hi|Hi]; simpl.
  - destruct (lookup_lt_is_Some_2 A i) as [row Hrow]; [lia|].
    rewrite Hrow. simpl.
    assert (Hlen : length row = m)
      by (eapply (proj1 (Forall_lookup _ _) Hrows); eauto).
    destruct (Nat.ltb_spec j m) as [Hj|Hj].
    + destruct (lookup_lt_is_Some_2 row j) as [v Hv]; [lia|].
      rewrite Hv. reflexivity.
    + apply lookup_ge_None. lia.
  - rewrite (proj2 (lookup_ge_None A i)) by lia. reflexivity.
Qed.

Lemma is_shape_square_shape (n : nat) (A : matrix) :
  is_shape n n A -> shape A = (n, if (n =? 0)%nat then 0%nat else n).
Proof.
  intros [Hn Hrows]. unfold shape. rewrite Hn. f_equal.
  destruct A as [|row A]; simpl in *; [subst; reflexivity|].
  subst n. simpl. inversion Hrows; subst. assumption.
Qed.

Lemma mat_set_shape (n m : nat) (A : matrix) (i j : nat) (v : float) :
  is_shape n m A -> is_shape n m (mat_set A i j v).
Proof.
  intros [Hn Hrows]. unfold mat_set. split.
  - rewrite length_alter. exact Hn.
  - apply Forall_lookup. intros i' row Hrow.
    rewrite list_lookup_alter in Hrow.
    destruct (decide (i = i')) as [->|Hne].
    + destruct (A !! i') as [row0|] eqn:E; simpl in Hrow; [|discriminate].
      injection Hrow as <-. rewrite length_insert.
      eapply (proj1 (Forall_lookup _ _) Hrows); eauto.
    + eapply (proj1 (Forall_lookup _ _) Hrows); eauto.
Qed.

Lemma zeros_shape (n m : nat) : is_shape n m (zeros n m).
Proof. apply mat_of_fun_shape. Qed.

Lemma transpose_square (n : nat) (A : matrix) :
  is_shape n n A ->
  transpose A = mat_of_fun n n (fun i j => mat_get A j i).
Proof.
  intros HA. unfold transpose. rewrite (is_shape_square_shape n A HA).
  destruct n; reflexivity.
Qed.

(** [A + A.T] is symmetric, because the addition of floats commutes. *)
Lemma mat_iadd_transpose_lookup (n : nat) (A A' : matrix) (i j : nat) :
  is_shape n n A ->
  mat_iadd A (transpose A) = inr A' ->
  mat_lookup A' i j =
  if (i <? n)%nat && (j <? n)%nat
  then Some (mat_get A i j + mat_get A j i)%float else None.
Proof.
  intros HA. rewrite (transpose_square n A HA). unfold mat_iadd.
  assert (HT := mat_of_fun_shape n n (fun i j => mat_get A j i)).
  rewrite (is_shape_square_shape n _ HT), (is_shape_square_shape n A HA).
  rewrite decide_True by reflexivity. intros H. apply ret_inr in H. subst A'.
  unfold mat_lookup at 1. rewrite lookup_zip_with.
  pose proof (is_shape_lookup n n A i j HA) as HAij.
  pose proof (mat_of_fun_lookup n n (fun i j => mat_get A j i) i j) as HTij.
  unfold mat_lookup in HAij, HTij.
  destruct (A !! i) as [row|] eqn:EA; simpl in *.
  - destruct (mat_of_fun n n (fun i j => mat_get A j i) !! i) as [trow|] eqn:ET;
      simpl in *.
    + rewrite lookup_zip_with, HAij, HTij.
      destruct ((i <? n)%nat && (j <? n)%nat); reflexivity.
    + destruct ((i <? n)%nat && (j <? n)%nat); [discriminate HTij|reflexivity].
  - destruct ((i <? n)%nat && (j <? n)%nat); [discriminate HAij|reflexivity].
Qed.

Lemma mat_iadd_transpose_shape (n : nat) (A A' : matrix) :
  is_shape n n A -> mat_iadd A (transpose A) = inr A' -> is_shape n n A'.
Proof.
  intros HA. rewrite (transpose_square n A HA). unfold mat_iadd.
  assert (HT := mat_of_fun_shape n n (fun i j => mat_get A j i)).
  rewrite (is_shape_square_shape n _ HT), (is_shape_square_shape n A HA).
  rewrite decide_True by reflexivity. intros H. apply ret_inr in H. subst A'.
  destruct HA as [HAn HAr], HT as [HTn HTr]. split.
  - rewrite length_zip_with. lia.
  - apply Forall_lookup. intros i row Hrow.
    rewrite lookup_zip_with in Hrow.
    destruct (A !! i) as [r1|] eqn:E1; simpl in Hrow; [|discriminate].
    destruct (mat_of_fun n n (fun i j => mat_get A j i) !! i) as [r2|] eqn:E2;
      simpl in Hrow; [|discriminate].
    injection Hrow as <-. rewrite length_zip_with.
    rewrite (proj1 (Forall_lookup _ _) HAr i r1 E1).
    rewrite (proj1 (Forall_lookup _ _) HTr i r2 E2). lia.
Qed.

(** writing the diagonal leaves the other entries alone *)
Lemma set_diag_lookup_ne (A A' : matrix) (d : list float) (i j : nat) :
  set_diag A d = inr A' -> i <> j -> mat_lookup A' i j = mat_lookup A i j.
Proof.
  unfold set_diag. intros H Hne.
  assert (Himap : forall g : nat -> float,
             mat_lookup (imap (fun i row => <[i := g i]> row) A) i j
             = mat_lookup A i j).
  { intros g. unfold mat_lookup. rewrite list_lookup_imap.
    destruct (A !! i) as [row|]; simpl; [|reflexivity].
    apply list_lookup_insert_ne. exact Hne. }
  destruct (decide (length d = length A)).
  - apply ret_inr in H. subst A'. apply (Himap (fun i => nth i d 0%float)).
  - destruct d as [|d0 [|]]; try discriminate H.
    apply ret_inr in H. subst A'. apply (Himap (fun _ => d0)).
Qed.

Lemma np_diag0_symmetric (v : list float) : symmetric (np_diag v 0).
Proof.
  intros i j. unfold np_diag. rewrite !mat_of_fun_lookup.
  rewrite (andb_comm (j <? _)%nat). rewrite (Nat.min_comm j i).
  destruct ((i <? _)%nat && (j <? _)%nat); [|reflexivity].
  destruct (Z.eqb_spec (Z.of_nat j - Z.of_nat i) 0),
           (Z.eqb_spec (Z.of_nat i - Z.of_nat j) 0); try reflexivity; lia.
Qed.

Lemma covar_loop_shape (n size : nat) k cent covar1 bw (A A' : matrix) :
  is_shape n n A -> covar_loop size k cent covar1 bw A = inr A' ->
  is_shape n n A'.
Proof.
  unfold covar_loop. apply foldM_invariant.
  intros s i s' Hs H. inv_bind H.
  revert Hs H. apply foldM_invariant.
  intros s1 m s1' Hs1 H1. inv_bind H1. subst s1'.
  apply mat_set_shape. exact Hs1.
Qed.

(** C7: whenever [get_covarmatrix] returns a matrix, that matrix is
    symmetric, [C[i, j] = C[j, i]] for every pair of indices, as binary64
    values; this covers the branch for a kernel of length 1, which returns
    the diagonal matrix of the interpolation variances. *)
Theorem get_covarmatrix_symmetric (x xinterp z k : list float)
    (breakwidth : float) (C : matrix) :
  get_covarmatrix x xinterp z k breakwidth = inr C -> symmetric C.
Proof.
  unfold get_covarmatrix. intros H. inv_bind H.
  destruct (decide (length k = 1%nat)) as [Hk|Hk].
  - apply ret_inr in H. subst C. apply np_diag0_symmetric.
  - inv_bind H.
    match goal with
    | Hloop : covar_loop ?n _ _ _ _ (zeros ?n ?n) = inr ?A,
      Hadd : mat_iadd ?A (transpose ?A) = inr ?B |- _ =>
        assert (Hshape : is_shape n n A)
          by (eapply covar_loop_shape; [apply zeros_shape | exact Hloop]);
        intros i j; destruct (decide (i = j)) as [->|Hne]; [reflexivity|];
        rewrite (set_diag_lookup_ne _ _ _ i j H Hne);
        rewrite (set_diag_lookup_ne _ _ _ j i H) by congruence;
        rewrite (mat_iadd_transpose_lookup n _ _ i j Hshape Hadd);
        rewrite (mat_iadd_transpose_lookup n _ _ j i Hshape Hadd);
        rewrite (andb_comm (j <? n)%nat);
        destruct ((i <? n)%nat && (j <? n)%nat); [|reflexivity];
        f_equal; apply float_add_comm
    end.
Qed.

(** a run of [get_covarmatrix] with a 3-point kernel on a 5-point grid *)
Lemma get_covarmatrix_symmetric_witness :
  exists C : matrix,
    get_covarmatrix [0; 1; 2; 3; 4; 5]%float [0.5; 1.5; 2.5; 3.5; 4.5]%float
                    [1; 1; 1; 1; 1; 1]%float [0.25; 0.5; 0.25]%float 2%float
    = inr C /\ mat_lookup C 0 1 = Some 0.21875%float /\ symmetric C.
Proof.
  eexists. split; [vm_compute; reflexivity|].
  split; [vm_compute; reflexivity|].
  apply (get_covarmatrix_symmetric
           [0; 1; 2; 3; 4; 5]%float [0.5; 1.5; 2.5; 3.5; 4.5]%float
           [1; 1; 1; 1; 1; 1]%float [0.25; 0.5; 0.25]%float 2%float).
  vm_compute. reflexivity.
Defined.

(** ** Construction *)

Lemma py_index_0 {A} (a : A) (l : list A) : py_index (a :: l) 0 = inr a.
Proof.
  unfold py_index. simpl.
  destruct (Z.ltb_spec 0 0); [lia|]. reflexivity.
Qed.

Lemma py_index_1 {A} (a b : A) (l : list A) : py_index (a :: b :: l) 1 = inr b.
Proof. unfold py_index. reflexivity. Qed.

Lemma py_index_1_short {A} (l : list A) :
  (length l < 2)%nat -> py_index l 1 = inl IndexError.
Proof.
  destruct l as [|a [|b l]]; simpl; intros; try lia; reflexivity.
Qed.

(** a model without [p] raises AttributeError at its first evaluation *)
Lemma call_without_p fexp flog interp linalg_inv (M0 : RescaleModel)
    (D : Spectrum) :
  p M0 = None -> __call__ fexp flog interp linalg_inv M0 D = inl AttributeError.
Proof.
  intros Hp. unfold __call__, _get_yz, overlap, getp. rewrite Hp.
  destruct (use_covar M0); reflexivity.
Qed.

(** C3 (as the code has it): no kernel name makes the constructor fail.  An
    unrecognized name yields a model on which [_get_kernel], [p] and
    [set_scale] were never assigned, and whose first evaluation raises
    AttributeError; the three recognized names yield a model with its kernel
    generator, parameters and step scales, provided the reference grid has
    the two samples that Gauss and Hermite read. *)
Theorem init_kernel_families (Lref0 : Spectrum) (kernel : string) (b : bool) :
  (kernel = "Gauss" \/ kernel = "Hermite" -> (2 <= length (wv Lref0))%nat) ->
  exists M0 : RescaleModel,
    __init__ Lref0 kernel b = inr M0 /\
    if recognized kernel
    then is_Some (_get_kernel M0) /\ is_Some (p M0) /\ is_Some (set_scale M0)
    else _get_kernel M0 = None /\ p M0 = None /\ set_scale M0 = None /\
         forall fexp flog interp linalg_inv D,
           __call__ fexp flog interp linalg_inv M0 D = inl AttributeError.
Proof.
  intros Hlen. unfold __init__, recognized.
  destruct (String.eqb_spec kernel "Delta") as [->|HD].
  - simpl. eexists. split; [reflexivity|]. simpl. eauto.
  - destruct (String.eqb_spec kernel "Gauss") as [->|HG].
    + destruct (wv Lref0) as [|w0 [|w1 rest]] eqn:Ewv;
        try (simpl in Hlen; specialize (Hlen (or_introl eq_refl)); lia).
      simpl. rewrite Ewv. eexists. split; [reflexivity|]. simpl. eauto.
    + destruct (String.eqb_spec kernel "Hermite") as [->|HH].
      * destruct (wv Lref0) as [|w0 [|w1 rest]] eqn:Ewv;
          try (simpl in Hlen; specialize (Hlen (or_intror eq_refl)); lia).
        simpl. rewrite Ewv. eexists. split; [reflexivity|]. simpl. eauto.
      * simpl. eexists. split; [reflexivity|]. simpl.
        repeat split. intros. apply call_without_p. reflexivity.
Qed.

Lemma init_kernel_families_witness :
  exists M0 : RescaleModel,
    __init__ Fixture.Lref12 "Gauss" false = inr M0 /\
    is_Some (_get_kernel M0) /\ is_Some (p M0) /\ is_Some (set_scale M0).
Proof.
  apply (init_kernel_families Fixture.Lref12 "Gauss" false).
  intros _. simpl. lia.
Defined.

(** [RescaleModel(Lref, kernel='Lorentz')] returns a model; nothing is
    raised. *)
Lemma init_unknown_kernel_returns :
  __init__ Fixture.Lref12 "Lorentz" false
  = inr {| Lref := Fixture.Lref12; use_covar := false; prior_prob := ∅;
           kernelname := "Lorentz"; _get_kernel := None; p := None;
           set_scale := None |}.
Proof. reflexivity. Qed.

(** ** The parameter bounds of the likelihood *)

Lemma prior_limits_penalty (M0 : RescaleModel) (d : gmap string float)
    (w0 w1 : float) (rest : list float) :
  p M0 = Some d -> wv (Lref M0) = w0 :: w1 :: rest -> well_keyed d ->
  _prior_limits M0 = inr (penalty d (w1 - w0)).
Proof.
  intros Hp Hwv [Hw Hh]. unfold _prior_limits, penalty, out_of_bounds.
  rewrite Hp, Hwv, py_index_1, py_index_0. simpl.
  destruct (Nat.ltb_spec 2 (size d)) as [H2|H2]; simpl.
  - destruct (Hw H2) as [width Hwidth]. unfold py_getitem. rewrite Hwidth. simpl.
    destruct (Nat.ltb_spec 3 (size d)) as [H3|H3]; simpl.
    + destruct (Hh H3) as [[h3 Hh3] [h4 Hh4]]. rewrite Hh3, Hh4. simpl.
      destruct (width / (w1 - w0) <? 0.5)%float, (h3 <? -0.3)%float,
        (0.3 <? h3)%float, (h4 <? -0.3)%float, (0.3 <? h4)%float; reflexivity.
    + destruct (width / (w1 - w0) <? 0.5)%float; reflexivity.
  - destruct (Nat.ltb_spec 3 (size d)) as [H3|H3]; [lia|]. reflexivity.
Qed.

Lemma float_add_infinity_cases (x : float) :
  (x + infinity = infinity \/ x + infinity = nan)%float.
Proof.
  destruct (Prim2SF x) as [s|s| |s m e] eqn:E.
  - left. apply float_add_infinity; rewrite E; discriminate.
  - destruct s.
    + right. apply float_add_infinity_nan. right. exact E.
    + left. apply float_add_infinity; rewrite E; discriminate.
  - right. apply float_add_infinity_nan. left. exact E.
  - left. apply float_add_infinity; rewrite E; discriminate.
Qed.

(** C2 (as the code has it): the penalty term of a likelihood evaluation is
    [+inf] exactly when the width of a model with a width is below 0.5 times
    the pixel spacing of the reference ([width/dlambda < 0.5], the same
    floor for the Gauss and the Hermite family), or [h3] or [h4] of a model
    with shape parameters is below -0.3 or above 0.3; it is 0 otherwise.
    The value returned is the chi-square term plus the term of the priors
    plus that penalty: under the penalty it is [nan] when chi-square plus
    priors is [nan] or [-inf], and [+inf] in every other case. *)
Theorem prior_limits_guard fexp flog interp linalg_inv (M0 : RescaleModel)
    (D : Spectrum) (d : gmap string float) (w0 w1 : float) (rest : list float)
    (v : float) :
  p M0 = Some d -> wv (Lref M0) = w0 :: w1 :: rest -> well_keyed d ->
  __call__ fexp flog interp linalg_inv M0 D = inr v ->
  _prior_limits M0 = inr (penalty d (w1 - w0)) /\
  exists chi pr : float,
    chi2_and_priors fexp flog interp linalg_inv M0 D chi pr /\
    (v = chi + pr + penalty d (w1 - w0))%float /\
    (out_of_bounds d (w1 - w0) = true ->
     v = if nan_or_neg_infinity (chi + pr) then nan else infinity) /\
    (out_of_bounds d (w1 - w0) = false -> v = (chi + pr + 0)%float).
Proof.
  intros Hp Hwv Hkeys Hcall.
  pose proof (prior_limits_penalty M0 d w0 w1 rest Hp Hwv Hkeys) as Hlim.
  split; [exact Hlim|].
  unfold __call__ in Hcall. rewrite Hlim in Hcall.
  apply bind_inr in Hcall. destruct Hcall as (chi & Hchi & Hcall).
  apply bind_inr in Hcall. destruct Hcall as (pr & Hpr & Hcall).
  apply ret_inr in Hcall. subst v.
  exists chi, pr. split; [|split; [reflexivity|]].
  - split; [|exact Hpr]. unfold chi2_and_priors.
    destruct (use_covar M0).
    + apply bind_inr in Hchi. destruct Hchi as ([[[y var] mask] oc] & Hyz & Hchi).
      exists y, var, mask, oc. split; [exact Hyz|].
      destruct oc as [C|]; [|discriminate]. eauto.
    + apply bind_inr in Hchi. destruct Hchi as ([[[y var] mask] oc] & Hyz & Hchi).
      exists y, var, mask, oc. split; [exact Hyz | exact Hchi].
  - unfold penalty. split; intros ->; [|reflexivity].
    unfold nan_or_neg_infinity.
    destruct (Prim2SF (chi + pr)) as [s|s| |s m e] eqn:E.
    + apply float_add_infinity; rewrite E; discriminate.
    + destruct s.
      * apply float_add_infinity_nan. right. exact E.
      * apply float_add_infinity; rewrite E; discriminate.
    + apply float_add_infinity_nan. left. exact E.
    + apply float_add_infinity; rewrite E; discriminate.
Qed.

Lemma init_Delta12 : Fixture.init Fixture.Lref12 "Delta" = inr Fixture.Delta12.
Proof. reflexivity. Qed.

Lemma init_Delta6 : Fixture.init Fixture.Lref6 "Delta" = inr Fixture.Delta6.
Proof. reflexivity. Qed.

Lemma init_Gauss12 : Fixture.init Fixture.Lref12 "Gauss" = inr Fixture.Gauss12.
Proof. vm_compute. reflexivity. Qed.

Lemma init_Hermite12 :
  Fixture.init Fixture.Lref12 "Hermite" = inr Fixture.Hermite12.
Proof. vm_compute. reflexivity. Qed.

(** the Gauss model as constructed, on the sample data *)
Lemma prior_limits_guard_witness :
  well_keyed (Fixture.gauss_p 0.51) /\
  exists v : float,
    Fixture.eval Fixture.Gauss12 Fixture.D12 = inr v /\
    _prior_limits Fixture.Gauss12 = inr (penalty (Fixture.gauss_p 0.51) (1 - 0)) /\
    exists chi pr : float,
      chi2_and_priors Fixture.exp_model Fixture.log_model Fixture.lin_interp
                      Fixture.no_inv Fixture.Gauss12 Fixture.D12 chi pr /\
      (v = chi + pr + penalty (Fixture.gauss_p 0.51) (1 - 0))%float /\
      (out_of_bounds (Fixture.gauss_p 0.51) (1 - 0) = true ->
       v = if nan_or_neg_infinity (chi + pr) then nan else infinity) /\
      (out_of_bounds (Fixture.gauss_p 0.51) (1 - 0) = false ->
       v = (chi + pr + 0)%float).
Proof.
  assert (Hk : well_keyed (Fixture.gauss_p 0.51)).
  { split.
    - intros _. eexists. vm_compute. reflexivity.
    - intros H. vm_compute in H. lia. }
  split; [exact Hk|].
  eexists. split; [vm_compute; reflexivity|].
  apply (prior_limits_guard Fixture.exp_model Fixture.log_model
           Fixture.lin_interp Fixture.no_inv Fixture.Gauss12 Fixture.D12
           (Fixture.gauss_p 0.51) 0 1 [2; 3; 4; 5; 6; 7; 8; 9; 10; 11]%float).
  - reflexivity.
  - reflexivity.
  - exact Hk.
  - vm_compute. reflexivity.
Defined.

(** The claimed floors fail in both directions.  The Hermite model as
    [__init__] builds it has its width at 0.46 times the pixel spacing and
    [h3 = h4 = 0], inside the claimed bounds, and is penalised with [+inf].
    A Gauss model of width 0.505 on a grid of spacing 1 is below 0.51 times
    the spacing and gets no penalty: its likelihood is finite.  And a score
    of [+inf] does not reject the proposal by itself: in a run of one trial
    of that Hermite model whose draws are all 0, the proposal is scored
    [+inf], the acceptance probability is [exp(-inf/1e12) = 0], the uniform
    draw 0 is not above it, and the proposal is accepted and recorded. *)
Lemma prior_limits_floor_counterexample :
  (Fixture.init Fixture.Lref12 "Hermite" = inr Fixture.Hermite12 /\
   p Fixture.Hermite12 = Some (Fixture.hermite_p (0.46 * (1 - 0)) 0 0) /\
   (0.46 * (1 - 0) <? 0.46 * (1 - 0))%float = false /\
   ((-0.3 <=? 0) && (0 <=? 0.3))%float = true /\
   _prior_limits Fixture.Hermite12 = inr infinity /\
   Fixture.eval Fixture.Hermite12 Fixture.D12 = inr infinity)
  /\
  ((0.505 <? 0.51 * (1 - 0))%float = true /\
   _prior_limits (set_p Fixture.Gauss12 (Fixture.gauss_p 0.505)) = inr 0%float /\
   exists v : float,
     Fixture.eval (set_p Fixture.Gauss12 (Fixture.gauss_p 0.505)) Fixture.D12
     = inr v /\ (v <? infinity)%float = true)
  /\
  (Fixture.eval (set_p Fixture.Hermite12 (Fixture.hermite_p 0.46 0 0))
                Fixture.D12 = inr infinity /\
   Fixture.exp_model (- infinity / 1.0e12) = 0%float /\
   Fixture.run_chain (Fixture.tape_of 0 0 0) 1 Fixture.D12 Fixture.Hermite12
   = inr ([values (Fixture.hermite_p 0.46 0 0);
           values (Fixture.hermite_p 0.46 0 0)],
          [infinity; infinity], 1%float)).
Proof.
  split; [|split].
  - repeat split; vm_compute; reflexivity.
  - split; [vm_compute; reflexivity|].
    split; [vm_compute; reflexivity|].
    eexists. split; vm_compute; reflexivity.
  - repeat split; vm_compute; reflexivity.
Qed.

(** ** Kernels: length *)

Section KernelLength.
Context {T : Type} {num : Num T}.

Lemma r_range_length (a b : Z) : length (r_range a b) = Z.to_nat (b - a).
Proof. unfold r_range. rewrite length_map, length_seq. reflexivity. Qed.

Lemma prange_of_length (size : nat) :
  length (prange_of size) = (2 * (size / 2) - 1)%nat.
Proof.
  unfold prange_of. rewrite r_range_length.
  pose proof (Nat2Z.inj_div size 2) as Hdiv.
  change (Z.of_nat 2) with 2%Z in Hdiv. rewrite <- Hdiv. lia.
Qed.

Lemma normalize_length (k : list T) : length (normalize k) = length k.
Proof. unfold normalize. apply length_map. Qed.

Lemma py_index_1_inr (x : list T) (v : T) :
  py_index x 1 = inr v -> (2 <= length x)%nat.
Proof.
  destruct x as [|a [|b x]]; simpl; try discriminate; intros; lia.
Qed.

Lemma Gauss_raw_length getp (x k : list T) :
  _Gauss_raw getp x = inr k ->
  (2 <= length x)%nat /\ length k = (2 * (length x / 2) - 1)%nat.
Proof.
  unfold _Gauss_raw. intros H. inv_bind H.
  match goal with E : py_index x 1 = inr _ |- _ => apply py_index_1_inr in E end.
  destruct (negb _); [discriminate|]. apply ret_inr in H. subst k.
  rewrite length_map, prange_of_length. auto.
Qed.

Lemma Hermite_raw_length getp (x k : list T) :
  _Hermite_raw getp x = inr k ->
  (2 <= length x)%nat /\ length k = (2 * (length x / 2) - 1)%nat.
Proof.
  unfold _Hermite_raw. intros H. inv_bind H.
  match goal with E : py_index x 1 = inr _ |- _ => apply py_index_1_inr in E end.
  subst k. rewrite length_map, prange_of_length. auto.
Qed.

(** C5 (as the code has it): a kernel that is returned has odd length, but
    not the length of the grid: the Delta kernel has one element whatever
    the grid, and the Gauss and Hermite kernels have [2 * (size // 2) - 1]
    elements on a grid of [size >= 2] points, one less than an even [size]
    and two less than an odd one. *)
Theorem kernel_length (g : kernel_fn) (getp : string -> result T)
    (x k : list T) :
  run_kernel g getp x = inr k ->
  Nat.odd (length k) = true /\
  match g with
  | K_Delta => length k = 1%nat
  | K_Gauss | K_Hermite =>
      (2 <= length x)%nat /\ length k = (2 * (length x / 2) - 1)%nat /\
      length k = (if Nat.even (length x) then length x - 1 else length x - 2)%nat
  end.
Proof.
  assert (Hodd : forall n : nat, (2 <= n)%nat ->
            Nat.odd (2 * (n / 2) - 1) = true /\
            (2 * (n / 2) - 1 = if Nat.even n then n - 1 else n - 2)%nat).
  { intros n Hn. pose proof (Nat.div_mod_eq n 2) as Hdm.
    assert (Hq : (1 <= n / 2)%nat) by (apply Nat.div_le_lower_bound; lia).
    split.
    - replace (2 * (n / 2) - 1)%nat with (S (2 * (n / 2 - 1)))%nat by lia.
      rewrite Nat.odd_succ. apply Nat.even_spec. exists (n / 2 - 1)%nat. lia.
    - destruct (Nat.even n) eqn:E.
      + apply Nat.even_spec in E. destruct E as [q ->].
        rewrite (Nat.mul_comm 2 q), Nat.div_mul by lia. lia.
      + assert (Ho : Nat.odd n = true) by (rewrite <- Nat.negb_even, E; reflexivity).
        apply Nat.odd_spec in Ho. destruct Ho as [q ->].
        rewrite (Nat.mul_comm 2 q), Nat.div_add_l by lia. simpl. lia. }
  destruct g; simpl; intros H.
  - apply ret_inr in H. subst k. auto.
  - unfold _Gauss in H. inv_bind H. subst k. rewrite normalize_length.
    match goal with E : _Gauss_raw _ _ = inr _ |- _ =>
      apply Gauss_raw_length in E; destruct E as [Hx ->] end.
    destruct (Hodd (length x) Hx). auto.
  - unfold _Hermite in H. inv_bind H. subst k. rewrite normalize_length.
    match goal with E : _Hermite_raw _ _ = inr _ |- _ =>
      apply Hermite_raw_length in E; destruct E as [Hx ->] end.
    destruct (Hodd (length x) Hx). auto.
Qed.
End KernelLength.

(** ** Kernels: normalisation, in exact arithmetic *)

(** evaluate the integer expressions under [IZR] *)
Ltac norm_IZR :=
  repeat match goal with
         | |- context [IZR ?z] =>
             let z' := eval vm_compute in z in
             progress change (IZR z) with (IZR z')
         end.

Section KernelSumReal.
#[local] Existing Instance real_num.
Local Open Scope R_scope.

Lemma fold_left_Rplus (k : list R) (a : R) :
  fold_left Rplus k a = a + fold_right Rplus 0 k.
Proof.
  revert a. induction k as [|v k IH]; intros a; simpl; [lra|].
  rewrite IH. lra.
Qed.

Lemma n_sum_real (k : list R) : n_sum k = fold_right Rplus 0 k.
Proof.
  destruct k as [|a k]; simpl; [reflexivity|].
  change n_add with Rplus. rewrite fold_left_Rplus. reflexivity.
Qed.

Lemma sum_map_div (k : list R) (s : R) :
  fold_right Rplus 0 (map (fun v => v / s) k) = fold_right Rplus 0 k / s.
Proof.
  induction k as [|v k IH]; simpl; [unfold Rdiv; lra|].
  rewrite IH. unfold Rdiv. lra.
Qed.

Lemma sum_abs_map_div (k : list R) (s : R) :
  0 < s -> sum_abs (map (fun v => v / s) k) = sum_abs k / s.
Proof.
  intros Hs. induction k as [|v k IH]; simpl; [unfold Rdiv; lra|].
  rewrite IH. unfold Rdiv at 1. rewrite Rabs_mult.
  rewrite (Rabs_pos_eq (/ s)) by (left; apply Rinv_0_lt_compat; exact Hs).
  unfold Rdiv. lra.
Qed.

(** the triangle inequality *)
Lemma Rabs_sum_le (k : list R) : Rabs (fold_right Rplus 0 k) <= sum_abs k.
Proof.
  induction k as [|v k IH]; simpl.
  - rewrite Rabs_R0. lra.
  - eapply Rle_trans; [apply Rabs_triang|]. lra.
Qed.

Lemma sum_abs_positive (k : list R) :
  Forall (fun v => 0 < v) k -> sum_abs k = fold_right Rplus 0 k.
Proof.
  induction 1 as [|v k Hv Hk IH]; simpl; [reflexivity|].
  rewrite IH, (Rabs_pos_eq v) by lra. reflexivity.
Qed.

Lemma sum_positive (k : list R) :
  Forall (fun v => 0 < v) k -> k <> [] -> 0 < fold_right Rplus 0 k.
Proof.
  induction 1 as [|v k Hv Hk IH]; simpl; [congruence|]. intros _.
  destruct k as [|w k]; simpl in *; [lra|].
  assert (0 < w + fold_right Rplus 0 k) by (apply IH; discriminate). lra.
Qed.

(** dividing by the absolute value of a non-zero sum makes the sum 1 in
    absolute value, and the sum of the absolute values at least 1 *)
Lemma normalize_abs_sum (raw : list R) :
  n_sum raw <> 0 ->
  Rabs (n_sum (normalize raw)) = 1 /\
  sum_abs (normalize raw) = sum_abs raw / Rabs (n_sum raw) /\
  1 <= sum_abs (normalize raw).
Proof.
  intros HS. unfold normalize. change n_abs with Rabs. change n_div with Rdiv.
  assert (Hpos : 0 < Rabs (n_sum raw)) by (apply Rabs_pos_lt; exact HS).
  assert (H1 : Rabs (n_sum (map (fun ki => ki / Rabs (n_sum raw)) raw)) = 1).
  { rewrite (n_sum_real (map _ _)), sum_map_div, <- n_sum_real.
    unfold Rdiv. rewrite Rabs_mult, (Rabs_pos_eq (/ _))
      by (left; apply Rinv_0_lt_compat; exact Hpos).
    field. lra. }
  split; [exact H1|]. split; [apply sum_abs_map_div; exact Hpos|].
  rewrite <- H1, n_sum_real. apply Rabs_sum_le.
Qed.

(** a kernel with positive elements sums to 1 after normalisation *)
Lemma normalize_positive (raw : list R) :
  Forall (fun v => 0 < v) raw -> raw <> [] ->
  sum_abs (normalize raw) = 1 /\ Forall (fun v => 0 < v) (normalize raw).
Proof.
  intros Hpos Hne.
  assert (HS : 0 < n_sum raw) by (rewrite n_sum_real; apply sum_positive; auto).
  destruct (normalize_abs_sum raw) as (_ & Habs & _); [lra|].
  split.
  - rewrite Habs, (sum_abs_positive raw Hpos), <- n_sum_real.
    rewrite (Rabs_pos_eq (n_sum raw)) by lra. field. lra.
  - unfold normalize. change n_abs with Rabs. change n_div with Rdiv.
    rewrite (Rabs_pos_eq (n_sum raw)) by lra.
    apply Forall_forall. intros v Hv. apply list_elem_of_In, in_map_iff in Hv.
    destruct Hv as (w & <- & Hw).
    apply Rdiv_lt_0_compat; [|exact HS].
    apply (proj1 (Forall_forall _ _) Hpos), list_elem_of_In, Hw.
Qed.

(** the series evaluated by [HermiteE([1, 0, 0, h3, h4])], with the
    probabilists' polynomials He3 and He4 *)
Lemma HermiteE_series (h3 h4 y : R) :
  HermiteE_call [lit 10 1; lit 0 1; lit 0 1; h3; h4] y
  = 1 + h3 * (y ^ 3 - 3 * y) + h4 * (y ^ 4 - 6 * y ^ 2 + 3).
Proof.
  unfold HermiteE_call, hermeval, lit. simpl. norm_IZR. field.
Qed.

Lemma sum_lt_sum_abs (k : list R) (a : R) :
  a ∈ k -> a < 0 -> fold_right Rplus 0 k < sum_abs k.
Proof.
  induction k as [|v k IH]; intros Hin Ha; [set_solver|].
  simpl. apply elem_of_cons in Hin. destruct Hin as [<-|Hin].
  - pose proof (Rabs_sum_le k) as Hle. pose proof (Rle_abs (fold_right Rplus 0 k)).
    rewrite (Rabs_left a) by exact Ha. lra.
  - specialize (IH Hin Ha). pose proof (Rle_abs v). lra.
Qed.

Lemma opp_sum_lt_sum_abs (k : list R) (b : R) :
  b ∈ k -> 0 < b -> - fold_right Rplus 0 k < sum_abs k.
Proof.
  induction k as [|v k IH]; intros Hin Hb; [set_solver|].
  simpl. apply elem_of_cons in Hin. destruct Hin as [<-|Hin].
  - pose proof (Rabs_sum_le k) as Hle.
    pose proof (Rle_abs (- fold_right Rplus 0 k)) as Hopp.
    rewrite Rabs_Ropp in Hopp. rewrite (Rabs_pos_eq b) by lra. lra.
  - specialize (IH Hin Hb). pose proof (Rle_abs (- v)) as Hv.
    rewrite Rabs_Ropp in Hv. lra.
Qed.

(** the triangle inequality is strict for elements of both signs *)
Lemma Rabs_sum_lt (k : list R) :
  both_signs k -> Rabs (fold_right Rplus 0 k) < sum_abs k.
Proof.
  intros (a & b & Ha & Hb & Hneg & Hpos).
  pose proof (sum_lt_sum_abs k a Ha Hneg).
  pose proof (opp_sum_lt_sum_abs k b Hb Hpos).
  unfold Rabs. destruct (Rcase_abs _); lra.
Qed.

Lemma sum_abs_one_sign (k : list R) :
  Forall (fun v => 0 <= v) k \/ Forall (fun v => v <= 0) k ->
  sum_abs k = Rabs (fold_right Rplus 0 k).
Proof.
  intros [H|H].
  - assert (Hs : sum_abs k = fold_right Rplus 0 k /\ 0 <= fold_right Rplus 0 k).
    { induction H as [|v k Hv Hk [IH1 IH2]]; simpl; [lra|].
      rewrite IH1, (Rabs_pos_eq v) by exact Hv. lra. }
    destruct Hs as [-> Hs]. rewrite Rabs_pos_eq by exact Hs. reflexivity.
  - assert (Hs : sum_abs k = - fold_right Rplus 0 k /\ fold_right Rplus 0 k <= 0).
    { induction H as [|v k Hv Hk [IH1 IH2]]; simpl; [lra|].
      rewrite IH1. destruct Hv as [Hv| ->].
      - rewrite (Rabs_left v) by exact Hv. lra.
      - rewrite Rabs_R0. lra. }
    destruct Hs as [-> Hs]. destruct Hs as [Hs|Hs].
    + rewrite (Rabs_left _ Hs). reflexivity.
    + rewrite Hs, Rabs_R0. lra.
Qed.

End KernelSumReal.

Section KernelExamples.
#[local] Existing Instance real_num.
Local Open Scope R_scope.


Lemma exp_neg_le_1 (t : R) : 0 <= t -> exp (- t) <= 1.
Proof.
  intros Ht. rewrite <- exp_0. destruct Ht as [Ht|<-].
  - left. apply exp_increasing. lra.
  - rewrite Ropp_0. lra.
Qed.

Lemma exp_neg_9_2_lower : / 243 <= exp (- (9 / 2)).
Proof.
  assert (H5 : exp 5 <= 243).
  { replace 5 with (1 + (1 + (1 + (1 + 1)))) by lra.
    rewrite !exp_plus. pose proof exp_le_3 as H3. pose proof (exp_pos 1) as Hp.
    assert (exp 1 * exp 1 <= 9) by nra.
    assert (exp 1 * (exp 1 * exp 1) <= 27) by nra.
    assert (exp 1 * (exp 1 * (exp 1 * exp 1)) <= 81) by nra.
    nra. }
  assert (H92 : exp (9 / 2) <= 243).
  { eapply Rle_trans; [|exact H5]. left. apply exp_increasing. lra. }
  rewrite exp_Ropp. apply Rinv_le_contravar; [apply exp_pos | exact H92].
Qed.

Lemma Hermite_example_raw :
  exists c : R,
    0 < c /\
    _Hermite_raw (Fixture.getp_R 1 (1 / 5) 0) Fixture.grid8
    = inr [c * exp (- (9 / 2)) * (- (13 / 5)); c * exp (- 2) * (3 / 5);
           c * exp (- (1 / 2)) * (7 / 5); c * exp (- 0) * 1;
           c * exp (- (1 / 2)) * (3 / 5); c * exp (- 2) * (7 / 5);
           c * exp (- (9 / 2)) * (23 / 5)].
Proof.
  exists (10 / 10 / (1 / (1 - 0)) / sqrt (2 * PI)). split.
  - assert (0 < sqrt (2 * PI)) by (apply sqrt_lt_R0; pose proof PI_RGT_0; lra).
    apply Rdiv_lt_0_compat; [lra | assumption].
  - unfold _Hermite_raw.
    change (prange_of (length Fixture.grid8)) with [-3; -2; -1; 0; 1; 2; 3]%Z.
    change (py_index Fixture.grid8 1) with (inr 1 : result R).
    change (py_index Fixture.grid8 0) with (inr 0 : result R).
    change (Fixture.getp_R 1 (1 / 5) 0 "width") with (inr 1 : result R).
    change (Fixture.getp_R 1 (1 / 5) 0 "h3") with (inr (1 / 5) : result R).
    change (Fixture.getp_R 1 (1 / 5) 0 "h4") with (inr 0 : result R).
    cbn [mbind result_bind ret mret result_ret map].
    rewrite !HermiteE_series. unfold lit, n_sq.
    cbn [n_mul n_div n_sub n_opp n_exp n_sqrt n_of_Z n_pi real_num].
    norm_IZR.
    unfold ret, mret, result_ret. apply f_equal.
    repeat (apply f_equal2;
            [apply f_equal2;
             [apply f_equal2; [reflexivity | apply f_equal; field] | field]
            | ]).
    reflexivity.
Qed.


(** the Gauss kernel on a 4-point grid *)
Lemma kernel_length_witness :
  exists k : list R,
    run_kernel K_Gauss (Fixture.getp_R 1 0 0) Fixture.grid4 = inr k /\
    Nat.odd (length k) = true /\
    (2 <= length Fixture.grid4)%nat /\
    length k = (2 * (length Fixture.grid4 / 2) - 1)%nat /\
    length k = (if Nat.even (length Fixture.grid4)
                then length Fixture.grid4 - 1 else length Fixture.grid4 - 2)%nat.
Proof.
  eexists. split; [reflexivity|].
  apply (kernel_length K_Gauss (Fixture.getp_R 1 0 0) Fixture.grid4).
  reflexivity.
Defined.

(** The length of a kernel is not the length of the grid: on a grid of 4
    points the Gauss kernel has 3 elements, and the Delta kernel has 1
    element on the 12-point grid of the sample reference. *)
Lemma kernel_length_counterexample :
  (exists k : list R,
     run_kernel K_Gauss (Fixture.getp_R 1 0 0) Fixture.grid4 = inr k /\
     length k = 3%nat /\ length Fixture.grid4 = 4%nat) /\
  (exists k : list float,
     call_kernel Fixture.exp_model Fixture.Delta12 (wv Fixture.Lref12) = inr k /\
     length k = 1%nat /\ length (wv Fixture.Lref12) = 12%nat).
Proof.
  split.
  - eexists. split; [reflexivity|]. split; reflexivity.
  - eexists. split; [reflexivity|]. split; reflexivity.
Qed.
End KernelExamples.

(** ** Sampler *)

Section SamplerFacts.
Variables fexp flog : float -> float.
Variable interp : Spectrum -> list float -> result (list float * list float).
Variable linalg_inv : matrix -> result matrix.
Variable tape : nat -> float.
Variable D : Spectrum.

Abbreviation iter := (mh_iter fexp flog interp linalg_inv tape D).
Abbreviation loop := (mh_loop fexp flog interp linalg_inv tape D).
Abbreviation states := (mh_states fexp flog interp linalg_inv tape D).
Abbreviation eval_at := (evaluate fexp flog interp linalg_inv).

Lemma Chain_add_inr (ch ch' : Chain) (M0 : RescaleModel) (v : float) :
  Chain_add ch M0 v = inr ch' ->
  exists d, p M0 = Some d /\
            pchain ch' = pchain ch ++ [values d] /\
            lnlikely ch' = lnlikely ch ++ [v].
Proof.
  unfold Chain_add. intros H.
  destruct (p M0) as [d|] eqn:Hp.
  - exists d. split; [reflexivity|].
    destruct (decide (length (pchain ch) = 0%nat));
      simpl in H; apply ret_inr in H; subst ch'; simpl; auto.
  - destruct (decide (length (pchain ch) = 0%nat)); simpl in H; discriminate.
Qed.

Lemma Chain_add_Some (ch : Chain) (M0 : RescaleModel) (v : float) :
  is_Some (p M0) -> exists ch', Chain_add ch M0 v = inr ch'.
Proof.
  intros [d Hd]. unfold Chain_add. rewrite Hd. simpl.
  destruct (decide (length (pchain ch) = 0%nat)); simpl; eauto.
Qed.

Lemma step_inr_p (M0 : RescaleModel) (pos0 : nat) r :
  step M0 tape pos0 = inr r -> is_Some (p M0).
Proof.
  unfold step. destruct (p M0); simpl; [eauto | discriminate].
Qed.

(** what one pass through the loop body does, when it raises nothing *)
Lemma mh_iter_inr (s s' : mh_state) :
  iter s = inr s' ->
  exists ptry pos1 chi2try,
    step (M s) tape (pos s) = inr (ptry, pos1) /\
    eval_at (set_p (Mtry s) ptry) D = inr chi2try /\
    Chain_add (c s) (M s') (chi2 s') = inr (c s') /\
    ((M s' = set_p (M s) ptry /\ chi2 s' = chi2try /\
      accept s' = (accept s + 1)%Z)
     \/ (M s' = M s /\ chi2 s' = chi2 s /\ accept s' = accept s)).
Proof.
  unfold mh_iter. intros H.
  apply bind_inr in H. destruct H as ([ptry pos1] & Hstep & H).
  apply bind_inr in H. destruct H as (chi2try & Heval & H).
  exists ptry, pos1, chi2try. split; [exact Hstep|]. split; [exact Heval|].
  destruct (chi2try <? chi2 s)%float.
  - simpl in H. apply bind_inr in H. destruct H as (c' & Hc & H).
    destruct (chi2try <? chi2best s)%float; simpl in H;
      apply ret_inr in H; subst s'; simpl; split; auto.
  - destruct (tape pos1 <=? fexp (- chi2try / chi2 s))%float.
    + simpl in H. apply bind_inr in H. destruct H as (c' & Hc & H).
      apply ret_inr in H. subst s'. simpl. split; auto.
    + apply bind_inr in H. destruct H as (c' & Hc & H).
      apply ret_inr in H. subst s'. simpl. split; auto.
Qed.

(** C1: in an iteration of [metro_hast] whose proposal [ptry] was scored
    [chi2try], the proposal is accepted when [chi2try < chi2]; otherwise the
    uniform number [r] is drawn and the proposal is accepted exactly when
    [r <= exp(-chi2try/chi2)].  On acceptance the current parameters and chi2
    become those of the proposal and the acceptance counter grows by one; on
    rejection the current model and chi2 stay.  [r] is read from the tape
    only when [chi2try < chi2] fails. *)
Theorem mh_iter_acceptance (s : mh_state) (ptry : gmap string float)
    (pos1 : nat) (chi2try : float) :
  step (M s) tape (pos s) = inr (ptry, pos1) ->
  eval_at (set_p (Mtry s) ptry) D = inr chi2try ->
  exists s' : mh_state,
    iter s = inr s' /\ acceptance_rule fexp tape s ptry pos1 chi2try s'.
Proof.
  intros Hstep Heval. unfold acceptance_rule, mh_iter. rewrite Hstep. simpl. rewrite Heval. simpl.
  destruct (chi2try <? chi2 s)%float eqn:Hlt; simpl.
  - destruct (Chain_add_Some (c s) (set_p (M s) ptry) chi2try) as [c' Hc];
      [simpl; eauto|].
    rewrite Hc. simpl.
    destruct (chi2try <? chi2best s)%float; simpl; eexists; split;
      try reflexivity; simpl; auto.
  - destruct (tape pos1 <=? fexp (- chi2try / chi2 s))%float eqn:Hr; simpl.
    + destruct (Chain_add_Some (c s) (set_p (M s) ptry) chi2try) as [c' Hc];
        [simpl; eauto|].
      rewrite Hc. simpl. eexists; split; try reflexivity; simpl; auto.
    + destruct (Chain_add_Some (c s) (M s) (chi2 s)) as [c' Hc];
        [eapply step_inr_p; exact Hstep|].
      rewrite Hc. simpl. eexists; split; try reflexivity; simpl; auto.
Qed.

(** *** The chain and the caller's model over a run *)

Lemma mh_iter_trial_step (s s' : mh_state) : iter s = inr s' -> trial_step s s'.
Proof.
  intros H. apply mh_iter_inr in H.
  destruct H as (ptry & pos1 & chi2try & _ & _ & _ & [(_ & _ & Ha)|Hrej]).
  - left. exact Ha.
  - right. tauto.
Qed.

Lemma mh_iter_record (s s' : mh_state) :
  iter s = inr s' ->
  pchain (c s') = pchain (c s) ++ [row_of s'] /\
  lnlikely (c s') = lnlikely (c s) ++ [chi2 s'].
Proof.
  intros H. apply mh_iter_inr in H.
  destruct H as (ptry & pos1 & chi2try & _ & _ & Hadd & _).
  apply Chain_add_inr in Hadd. destruct Hadd as (d & Hd & Hp & Hl).
  unfold row_of. rewrite Hd. auto.
Qed.

Lemma last_cons_default {A} (a : A) (l : list A) (d : A) :
  List.last (a :: l) d = List.last l a.
Proof.
  revert a d. induction l as [|b l IH]; intros a d; [reflexivity|].
  change (List.last (a :: b :: l) d) with (List.last (b :: l) d).
  rewrite !IH. reflexivity.
Qed.

Lemma mh_states_loop (n : nat) (s : mh_state) (ss : list mh_state) :
  states n s = inr ss ->
  length ss = n /\ loop n s = inr (List.last ss s) /\
  adjacent trial_step (s :: ss) /\
  pchain (c (List.last ss s)) = pchain (c s) ++ map row_of ss /\
  lnlikely (c (List.last ss s)) = lnlikely (c s) ++ map chi2 ss.
Proof.
  revert s ss. induction n as [|n IH]; intros s ss H; simpl in H.
  - apply ret_inr in H. subst ss. simpl. rewrite !app_nil_r.
    repeat split; try reflexivity. intros i a b _ Hb.
    destruct i; discriminate Hb.
  - apply bind_inr in H. destruct H as (s' & Hiter & H).
    apply bind_inr in H. destruct H as (rest & Hrest & H).
    apply ret_inr in H. subst ss.
    destruct (IH s' rest Hrest) as (Hlen & Hloop & Hadj & Hp & Hl).
    destruct (mh_iter_record s s' Hiter) as [Hp1 Hl1].
    pose proof (last_cons_default s' rest s) as Hlast.
    rewrite Hlast. split; [simpl; congruence|]. split.
    { simpl. rewrite Hiter. simpl. exact Hloop. }
    split.
    { intros [|i] a b Ha Hb; simpl in Ha, Hb.
      - injection Ha as <-. injection Hb as <-.
        apply mh_iter_trial_step. exact Hiter.
      - apply (Hadj i a b); assumption. }
    rewrite Hp, Hl, Hp1, Hl1. simpl. rewrite <- !app_assoc. auto.
Qed.

Lemma mh_loop_states (n : nat) (s s' : mh_state) :
  loop n s = inr s' -> exists ss, states n s = inr ss.
Proof.
  revert s. induction n as [|n IH]; intros s H; simpl in *.
  - eexists. reflexivity.
  - apply bind_inr in H. destruct H as (s1 & Hiter & H).
    destruct (IH s1 H) as [rest Hrest]. rewrite Hiter. simpl.
    rewrite Hrest. simpl. eauto.
Qed.

Lemma mh_init_inr (M0 : RescaleModel) (s0 : mh_state) :
  mh_init fexp flog interp linalg_inv D M0 = inr s0 ->
  M s0 = M0 /\ accept s0 = 0%Z /\ chi2 s0 = 1.0e12%float /\
  length (pchain (c s0)) = 1%nat /\ length (lnlikely (c s0)) = 1%nat /\
  exists v, eval_at M0 D = inr v /\ lnlikely (c s0) = [v] /\
            pchain (c s0) = [row_of s0].
Proof.
  unfold mh_init. intros H. inv_bind H. subst s0. simpl.
  match goal with E : Chain_add _ _ _ = inr _ |- _ =>
    apply Chain_add_inr in E; destruct E as (d & Hd & Hp & Hl) end.
  rewrite Hp, Hl. unfold row_of. simpl. rewrite Hd.
  repeat split; try reflexivity. eauto.
Qed.

Lemma mh_loop_invariant (P : mh_state -> Prop) :
  (forall s s', P s -> iter s = inr s' -> P s') ->
  forall n s s', P s -> loop n s = inr s' -> P s'.
Proof.
  intros Hstep. induction n as [|n IH]; intros s s' Hs H; simpl in H.
  - apply ret_inr in H. congruence.
  - apply bind_inr in H. destruct H as (s1 & Hiter & H). eauto.
Qed.

Lemma same_but_p_set_p (A B : RescaleModel) (d : gmap string float) :
  same_but_p A B -> same_but_p (set_p A d) B.
Proof. unfold same_but_p. simpl. tauto. Qed.

Lemma same_but_p_refl (A : RescaleModel) : same_but_p A A.
Proof. unfold same_but_p. tauto. Qed.

(** C6 (as the code has it): every trial appends exactly one record, the
    parameters and chi2 that are current after the trial: the proposal's on
    acceptance, the unchanged current ones on rejection.  After [ntrial]
    trials the chain holds the pre-loop record and one record per trial,
    [ntrial + 1] in all.  The pre-loop record carries [M(D)], while the
    current chi2 before the first trial is the constant 1e12; a rejected
    first trial therefore records 1e12, not the chi2 of the record before
    it. *)
Theorem chain_one_record_per_trial (M0 : RescaleModel) (ntrial : nat)
    (s0 : mh_state) (ss : list mh_state) :
  mh_init fexp flog interp linalg_inv D M0 = inr s0 ->
  states ntrial s0 = inr ss ->
  chain_records fexp flog interp linalg_inv tape D M0 ntrial s0 ss.
Proof.
  intros Hinit Hstates. unfold chain_records. set (s := List.last ss s0).
  destruct (mh_states_loop ntrial s0 ss Hstates) as (Hlen & Hloop & Hadj & Hp & Hl).
  destruct (mh_init_inr M0 s0 Hinit)
    as (HM & Hacc & Hchi & Hlp & Hll & v0 & Hv0 & Hl0 & Hp0).
  fold s in Hloop, Hp, Hl.
  split; [exact Hloop|]. split; [exact Hlen|]. split; [exact Hadj|].
  split; [exact Hchi|]. rewrite Hp, Hl, Hp0, Hl0. simpl.
  split; [reflexivity|]. split; [eauto|].
  rewrite !length_map, Hlen. split; [reflexivity|]. split; [reflexivity|].
  intros Hn. unfold metro_hast. rewrite Hinit. simpl. rewrite Hloop. simpl.
  rewrite decide_False by exact Hn. eexists. split; reflexivity.
Qed.

(** C8 (as the code has it): [metro_hast] rebinds [M.p] of the caller's
    model at every acceptance.  After the call [M.p] holds the current
    parameters of the chain (those of its last record); it is the value
    before the call when no proposal was accepted.  Every other field of
    [M] is as before the call. *)
Theorem metro_hast_caller_model (M0 : RescaleModel) (ntrial : nat)
    (keep : bool) (r : mh_result) :
  metro_hast fexp flog interp linalg_inv tape ntrial D M0 keep = inr r ->
  caller_model_after fexp flog interp linalg_inv tape D M0 ntrial r.
Proof.
  unfold caller_model_after.
  unfold metro_hast. intros H.
  apply bind_inr in H. destruct H as (s0 & Hinit & H).
  apply bind_inr in H. destruct H as (s & Hloop & H).
  destruct (decide (ntrial = 0%nat)); [discriminate|].
  apply ret_inr in H. subst r. simpl.
  destruct (mh_init_inr M0 s0 Hinit)
    as (HM & Hacc & Hchi & Hlp & Hll & v0 & Hv0 & Hl0 & Hp0).
  assert (Hinv : same_but_p (M s) M0 /\ (0 <= accept s)%Z /\
                 (accept s = 0%Z -> M s = M0) /\
                 is_Some (p (M s)) /\
                 List.last (pchain (c s)) [] = row_of s).
  { revert Hloop.
    apply (mh_loop_invariant
             (fun s => same_but_p (M s) M0 /\ (0 <= accept s)%Z /\
                       (accept s = 0%Z -> M s = M0) /\
                       is_Some (p (M s)) /\
                       List.last (pchain (c s)) [] = row_of s)).
    - intros a b (Hsame & Hnn & Hzero & Hsome & Hlast) Hiter.
      destruct (mh_iter_record a b Hiter) as [Hrow _].
      assert (Hlast' : List.last (pchain (c b)) [] = row_of b)
        by (rewrite Hrow; apply last_last).
      apply mh_iter_inr in Hiter.
      destruct Hiter as (ptry & pos1 & chi2try & _ & _ & _ &
                         [(HMb & _ & Hab)|(HMb & _ & Hab)]).
      + split; [rewrite HMb; apply same_but_p_set_p; exact Hsame|].
        split; [lia|]. split; [lia|].
        split; [rewrite HMb; simpl; eauto | exact Hlast'].
      + split; [rewrite HMb; exact Hsame|].
        split; [lia|]. split; [intros Hz; rewrite HMb; apply Hzero; lia|].
        split; [rewrite HMb; exact Hsome | exact Hlast'].
    - rewrite HM, Hacc. split; [apply same_but_p_refl|].
      split; [lia|]. split; [reflexivity|].
      unfold mh_init in Hinit. destruct (p M0) eqn:Hp; [|discriminate].
      split; [eauto|]. rewrite Hp0. reflexivity. }
  destruct Hinv as (Hsame & Hnn & Hzero & [d Hd] & Hlast).
  split; [exact Hsame|]. split.
  - exists d. split; [exact Hd|]. intros ch Hch.
    destruct keep; [|discriminate]. injection Hch as <-.
    rewrite Hlast. unfold row_of. rewrite Hd. reflexivity.
  - exists s0, s. auto.
Qed.
End SamplerFacts.

(** *** Sample runs *)

Section SamplerExamples.
Import Fixture.
Local Open Scope float_scope.

Lemma init_state0 :
  mh_init exp_model log_model lin_interp no_inv D12 Delta12
  = inr (state0 Delta12 delta_p 79.014203100167933).
Proof. vm_compute. reflexivity. Qed.

(** the first trial of a run of the Delta model on the sample data, with
    both Gaussian draws equal to 1: the proposal scores below 1e12 and is
    accepted *)
Lemma mh_iter_acceptance_witness :
  let s0 := state0 Delta12 delta_p 79.014203100167933 in
  step (M s0) (tape_of 2 1 0.5) (pos s0) = inr (delta_p1, 2%nat) /\
  evaluate exp_model log_model lin_interp no_inv (set_p (Mtry s0) delta_p1) D12
  = inr 70.610789101766144 /\
  exists s' : mh_state,
    mh_iter exp_model log_model lin_interp no_inv (tape_of 2 1 0.5) D12 s0
    = inr s' /\
    acceptance_rule exp_model (tape_of 2 1 0.5) s0 delta_p1 2 70.610789101766144 s'.
Proof.
  intros s0.
  split; [vm_compute; reflexivity|].
  split; [vm_compute; reflexivity|].
  apply mh_iter_acceptance; vm_compute; reflexivity.
Defined.

Lemma states_state1 :
  mh_states exp_model log_model lin_interp no_inv (tape_of 2 1 0.5) D12 1
            (state0 Delta12 delta_p 79.014203100167933)
  = inr [state1].
Proof. vm_compute. reflexivity. Qed.

(** one trial of the Delta model on the sample data *)
Lemma chain_one_record_per_trial_witness :
  let s0 := state0 Delta12 delta_p 79.014203100167933 in
  mh_init exp_model log_model lin_interp no_inv D12 Delta12 = inr s0 /\
  mh_states exp_model log_model lin_interp no_inv (tape_of 2 1 0.5) D12 1 s0
  = inr [state1] /\
  chain_records exp_model log_model lin_interp no_inv (tape_of 2 1 0.5) D12
                Delta12 1 s0 [state1].
Proof.
  intros s0.
  split; [exact init_state0|]. split; [exact states_state1|].
  apply chain_one_record_per_trial; [exact init_state0 | exact states_state1].
Defined.

(** The Hermite model as constructed, one trial with all Gaussian draws -1
    and the uniform draw 0.5.  The proposal has width 0.16 and is rejected;
    the record of the trial repeats the parameters of the pre-loop record
    but carries chi2 = 1e12, while the pre-loop record carries
    [M(D) = +inf]. *)
Lemma first_rejection_counterexample :
  run_chain (tape_of 5 (-1) 0.5) 1 D12 Hermite12
  = inr ([values (hermite_p 0.46 0 0); values (hermite_p 0.46 0 0)],
         [infinity; 1.0e12], 0).
Proof. vm_compute. reflexivity. Qed.

Lemma run_result1 :
  metro_hast exp_model log_model lin_interp no_inv (tape_of 2 1 0.5) 1 D12
             Delta12 true = inr result1.
Proof. vm_compute. reflexivity. Qed.

(** one trial of the Delta model on the sample data *)
Lemma metro_hast_caller_model_witness :
  metro_hast exp_model log_model lin_interp no_inv (tape_of 2 1 0.5) 1 D12
             Delta12 true = inr result1 /\
  caller_model_after exp_model log_model lin_interp no_inv (tape_of 2 1 0.5)
                     D12 Delta12 1 result1.
Proof.
  split; [exact run_result1|].
  apply (metro_hast_caller_model exp_model log_model lin_interp no_inv
           (tape_of 2 1 0.5) D12 Delta12 1 true result1).
  exact run_result1.
Defined.

(** One trial of the Delta model with both Gaussian draws 1: the proposal is
    accepted and the caller's model, which had [scale = 1] and
    [shift = 0.0001], has [scale = 1.02] and [shift = 0.0501] after the
    call. *)
Lemma caller_model_mutated_counterexample :
  items_p Delta12 = inr [("scale", 1); ("shift", 0.0001)] /\
  run_params (tape_of 2 1 0.5) 1 D12 Delta12
  = inr [("scale", 1.02); ("shift", 0.050100000000000006)].
Proof. split; vm_compute; reflexivity. Qed.
End SamplerExamples.

(** ** Empirical priors *)

(** the marginal that [make_dist_prior] takes the percentiles of, position
    by position, for a chain whose records have the same number of
    columns *)
Lemma burned_marginal_spec (C : Chain) (pname : string) (burn : float)
    (dist : list float) (ncol : nat) :
  Forall (fun row => length row = ncol) (pchain C) ->
  burned_marginal C pname burn = inr dist ->
  marginal_after_burn C pname burn dist.
Proof.
  intros Hrows H. unfold burned_marginal in H.
  apply bind_inr in H. destruct H as (col & Hcol & H).
  apply bind_inr in H. destruct H as (prior_dist & Hpd & H).
  apply bind_inr in H. destruct H as (cut & Hcut & H).
  apply ret_inr in H. subst dist.
  unfold py_getitem in Hcol.
  destruct (index C !! pname) as [col'|] eqn:Hix; [|discriminate].
  injection Hcol as ->.
  unfold py_index in Hpd.
  destruct (Z.ltb_spec (Z.of_nat col) 0) as [|_]; [lia|].
  destruct (Z.ltb_spec (Z.of_nat col) 0) as [|_]; [lia|].
  rewrite Nat2Z.id in Hpd. unfold transpose, shape, mat_of_fun in Hpd.
  rewrite list_of_fun_lookup in Hpd.
  destruct (Nat.ltb_spec col (length (hd [] (pchain C)))) as [Hlt|];
    [|discriminate].
  injection Hpd as <-. rewrite list_of_fun_length in Hcut.
  exists col, cut. split; [exact Hix|]. split; [exact Hcut|].
  cbv zeta. unfold py_slice_from. rewrite list_of_fun_length. split.
  - rewrite length_drop, list_of_fun_length. reflexivity.
  - intros j row Hrow. rewrite lookup_drop, list_of_fun_lookup.
    destruct (Nat.ltb_spec
                (Z.to_nat (slice_bound (Z.of_nat (length (pchain C))) cut) + j)
                (length (pchain C))) as [_|Hge];
      [|apply lookup_lt_Some in Hrow; lia].
    unfold mat_get, mat_lookup. rewrite Hrow. simpl.
    assert (Hlen : length row = ncol)
      by (eapply (proj1 (Forall_lookup _ _) Hrows); exact Hrow).
    assert (Hhd : length (hd [] (pchain C)) = ncol).
    { destruct (pchain C) as [|r0 rs]; [discriminate Hrow|].
      simpl. apply (Forall_inv Hrows). }
    destruct (lookup_lt_is_Some_2 row col) as [v Hv]; [lia|].
    rewrite Hv. reflexivity.
Qed.

(** C9: for a chain whose records have the same number of columns,
    [make_dist_prior(chain, pname, burn)] takes the marginal of [pname]
    after the burn-in cut (the entries in the column of [pname] of the
    records from [int(n*burn)] on), stores under [pname] the Gaussian
    density [exp(-0.5*(x - m)**2/((c2 - c1)/2)**2)] of its 16th, 50th and
    84th percentiles [c1], [m], [c2], and it also overwrites the current
    value [p[pname]] of the model with [m], the 50th percentile of that
    marginal; the other priors, the other parameters and the other fields
    of the model are unchanged. *)
Theorem make_dist_prior_effect (fexp : float -> float)
    (percentile : list float -> list float -> result (list float))
    (M0 : RescaleModel) (C : Chain) (pname : string) (burn : float)
    (M1 : RescaleModel) (ncol : nat) :
  Forall (fun row => length row = ncol) (pchain C) ->
  make_dist_prior fexp percentile M0 C pname burn = inr M1 ->
  dist_prior_effect fexp percentile M0 C pname burn M1.
Proof.
  unfold make_dist_prior, dist_prior_effect. intros Hrows H.
  apply bind_inr in H. destruct H as (dist & Hdist & H).
  apply bind_inr in H. destruct H as (pct & Hpct & H).
  destruct pct as [|c1 [|m [|c2 [|extra pct]]]]; try discriminate H.
  apply bind_inr in H. destruct H as (d & Hd & H).
  apply ret_inr in H. subst M1. simpl in Hd.
  destruct (p M0) as [d0|] eqn:Hp; [|discriminate Hd].
  injection Hd as <-.
  exists d0, (<[pname := m]> d0), dist, c1, m, c2,
         (fun x => fexp (-0.5 * ((x - m) * (x - m))
                         / (((c2 - c1) / 2) * ((c2 - c1) / 2)))%float).
  simpl.
  split; [reflexivity|].
  split; [eapply burned_marginal_spec; eassumption|].
  split; [exact Hpct|].
  split; [reflexivity|]. split; [reflexivity|].
  split; [apply lookup_insert_eq|].
  split; [intros key Hne; apply lookup_insert_ne; congruence|].
  split; [reflexivity|].
  split; [apply lookup_insert_eq|].
  split; [reflexivity|].
  split; [intros key Hne; apply lookup_insert_ne; congruence|].
  unfold same_but_p. simpl. tauto.
Qed.

(** the shift prior of a Gauss model from a chain of six records, of which
    [int(6 * 0.34) = 2] are burn-in: shift is in column 2, the marginal is
    [300; 400; 500; 600], its percentiles are 348, 450 and 552, and the
    shift of the model becomes 450 *)
Lemma make_dist_prior_effect_witness :
  let M1 := set_p
              (set_prior_prob Fixture.Gauss12
                 (<["shift" := gaussian_prior Fixture.exp_model 348 450 552]> ∅))
              (<["shift" := 450%float]> (Fixture.gauss_p 0.51)) in
  Forall (fun row => length row = 3%nat) (pchain Fixture.chainG) /\
  make_dist_prior Fixture.exp_model Fixture.percentile_linear Fixture.Gauss12
                  Fixture.chainG "shift" 0.34 = inr M1 /\
  dist_prior_effect Fixture.exp_model Fixture.percentile_linear Fixture.Gauss12
                    Fixture.chainG "shift" 0.34 M1.
Proof.
  intros M1.
  assert (Hrows : Forall (fun row => length row = 3%nat)
                         (pchain Fixture.chainG))
    by (repeat constructor).
  assert (H : make_dist_prior Fixture.exp_model Fixture.percentile_linear
                Fixture.Gauss12 Fixture.chainG "shift" 0.34 = inr M1)
    by (vm_compute; reflexivity).
  split; [exact Hrows|]. split; [exact H|].
  apply (make_dist_prior_effect Fixture.exp_model Fixture.percentile_linear
           Fixture.Gauss12 Fixture.chainG "shift" 0.34 M1 3 Hrows H).
Defined.

(** ** The trimmed overlap of short grids *)

Lemma SFcompare_Lt_Gt (x y : spec_float) :
  SFcompare x y = Some Lt -> SFcompare y x = Some Gt.
Proof.
  destruct x as [sx|sx| |sx mx ex], y as [sy|sy| |sy my ey]; simpl;
    try discriminate; try (destruct sx; discriminate);
    try (destruct sy; discriminate);
    try (destruct sx, sy; (discriminate || reflexivity)).
  destruct sx, sy; try discriminate; try reflexivity;
    rewrite (Z.compare_antisym ex ey);
    destruct (ex ?= ey)%Z eqn:E; simpl; try discriminate; try reflexivity;
    rewrite (ZC4 my mx);
    destruct (Pos.compare_cont Eq mx my); simpl; try discriminate; reflexivity.
Qed.

(** no float is both at least [a] and below [a] *)
Lemma float_leb_ltb_false (a w : float) :
  ((a <=? w) && (w <? a))%float = false.
Proof.
  rewrite leb_spec, ltb_spec. unfold SFleb, SFltb.
  destruct (SFcompare (Prim2SF w) (Prim2SF a)) as [[| |]|] eqn:E;
    try (apply andb_false_r).
  rewrite (SFcompare_Lt_Gt _ _ E). reflexivity.
Qed.

(** [round(0.05 * N)] is 0 for [N <= 9]; it is 1 for [N = 10] *)
Lemma trim_zero (N : nat) :
  (N <= 9)%nat ->
  py_round (0.05 * float_of_Z (Z.of_nat N)) = 0%float.
Proof.
  intros HN.
  do 10 (destruct N as [|N]; [vm_compute; reflexivity|]). lia.
Qed.

Lemma trim_ten : py_round (0.05 * float_of_Z 10) = 1%float.
Proof. vm_compute. reflexivity. Qed.

Lemma py_slice_0_0 {A} (l : list A) : py_slice l 0 0 = [].
Proof.
  unfold py_slice, slice_bound. simpl.
  rewrite Z.min_l by lia. reflexivity.
Qed.

Lemma compress_none {A} (a r : list A) (b : list float) :
  compress a (map (fun _ => false) b) = inr r -> r = [].
Proof.
  revert a r. induction b as [|w b IH]; intros a r H; destruct a as [|v a];
    simpl in H; try discriminate.
  - apply ret_inr in H. congruence.
  - apply bind_inr in H. destruct H as (r' & Hr' & H).
    apply ret_inr in H. subst r. eauto.
Qed.

Lemma get_yz_trim0 fexp interp (M0 : RescaleModel) (D l : Spectrum)
    (m : list bool) (wvm : list float) r :
  overlap M0 D = inr (l, m, wvm) -> (length wvm <= 9)%nat ->
  _get_yz fexp interp M0 D false = inr r ->
  r = ([], [], map (fun _ => false) (wv (Lref M0)), None).
Proof.
  intros Hov HN H. unfold _get_yz in H. rewrite Hov in H. simpl in H.
  rewrite (trim_zero _ HN) in H.
  change (int_of_float 0) with (inr 0%Z : result Z) in H.
  change (int_of_float (- 0)) with (inr 0%Z : result Z) in H.
  apply bind_inr in H. destruct H as ([y z] & _ & H).
  apply bind_inr in H. destruct H as (k & _ & H).
  apply bind_inr in H. destruct H as (z' & _ & H).
  apply bind_inr in H. destruct H as (y' & _ & H).
  apply bind_inr in H. destruct H as (scale & _ & H).
  simpl in H.
  apply bind_inr in H. destruct H as (w_lo & Hlo & H).
  apply bind_inr in H. destruct H as (w_hi & Hhi & H).
  apply ret_inr in H. subst r.
  rewrite Hlo in Hhi. injection Hhi as <-.
  rewrite !py_slice_0_0. simpl.
  rewrite (map_ext (fun w => (w_lo <=? w) && (w <? w_lo))%float
                   (fun _ => false)) by (intros w; apply float_leb_ltb_false).
  reflexivity.
Qed.

(** C10: in fast mode, when the overlap of the reference grid with the
    shifted candidate has [N <= 9] samples, [round(0.05 * N)] is 0, the
    slice [[trim:-trim]] is [[0:0]], the flux and variance arrays are empty
    and the reference mask is all false; the chi-square sum is 0 and an
    evaluation that returns, returns the two prior terms alone, whatever the
    data.  ([round(0.05 * 10)] is 1.) *)
Theorem short_overlap_priors_alone fexp flog interp linalg_inv
    (M0 : RescaleModel) (D l : Spectrum) (m : list bool) (wvm : list float)
    (v : float) :
  use_covar M0 = false ->
  overlap M0 D = inr (l, m, wvm) -> (length wvm <= 9)%nat ->
  __call__ fexp flog interp linalg_inv M0 D = inr v ->
  py_round (0.05 * float_of_Z (Z.of_nat (length wvm))) = 0%float /\
  priors_alone fexp flog interp M0 D v.
Proof.
  intros Hfast Hov HN Hcall. split; [apply trim_zero; exact HN|].
  unfold __call__ in Hcall. rewrite Hfast in Hcall.
  apply bind_inr in Hcall. destruct Hcall as (chi & Hchi & Hcall).
  apply bind_inr in Hchi. destruct Hchi as (r & Hyz & Hchi).
  pose proof (get_yz_trim0 _ _ _ _ _ _ _ _ Hov HN Hyz) as ->.
  apply bind_inr in Hcall. destruct Hcall as (pr & Hpr & Hcall).
  apply bind_inr in Hcall. destruct Hcall as (lim & Hlim & Hcall).
  apply ret_inr in Hcall. subst v.
  assert (Hzero : _get_chi2 M0 [] [] (map (fun _ => false) (wv (Lref M0)))
                  = inr 0%float /\ chi = 0%float).
  { unfold _get_chi2 in *.
    apply bind_inr in Hchi. destruct Hchi as (fm & Hfm & Hchi).
    pose proof (compress_none _ _ _ Hfm) as ->. rewrite Hfm. simpl in *.
    apply bind_inr in Hchi. destruct Hchi as (efm & Hefm & Hchi).
    pose proof (compress_none _ _ _ Hefm) as ->. rewrite Hefm. simpl in *.
    apply ret_inr in Hchi. auto. }
  destruct Hzero as [Hz ->].
  unfold priors_alone. split; [exact Hyz|]. split; [exact Hz|].
  exists pr, lim. auto.
Qed.

(** the Delta model on a reference of 6 samples, 5 of them in the overlap *)
Lemma short_overlap_priors_alone_witness :
  let l := {| wv := map (fun w => w - 1.0e-4)%float (wv Fixture.D6);
              f := f Fixture.D6; ef := ef Fixture.D6 |} in
  use_covar Fixture.Delta6 = false /\
  overlap Fixture.Delta6 Fixture.D6
  = inr (l, [true; true; true; true; true; false], [0; 1; 2; 3; 4]%float) /\
  (length [0; 1; 2; 3; 4]%float <= 9)%nat /\
  Fixture.eval Fixture.Delta6 Fixture.D6 = inr 0%float /\
  py_round (0.05 * float_of_Z (Z.of_nat (length [0; 1; 2; 3; 4]%float)))
  = 0%float /\
  priors_alone Fixture.exp_model Fixture.log_model Fixture.lin_interp
               Fixture.Delta6 Fixture.D6 0.
Proof.
  intros l.
  assert (Hov : overlap Fixture.Delta6 Fixture.D6
                = inr (l, [true; true; true; true; true; false],
                       [0; 1; 2; 3; 4]%float)) by (vm_compute; reflexivity).
  assert (Hcall : Fixture.eval Fixture.Delta6 Fixture.D6 = inr 0%float)
    by (vm_compute; reflexivity).
  split; [reflexivity|]. split; [exact Hov|]. split; [simpl; lia|].
  split; [exact Hcall|].
  apply (short_overlap_priors_alone Fixture.exp_model Fixture.log_model
           Fixture.lin_interp Fixture.no_inv Fixture.Delta6 Fixture.D6 l
           [true; true; true; true; true; false] [0; 1; 2; 3; 4]%float 0).
  - reflexivity.
  - exact Hov.
  - simpl. lia.
  - exact Hcall.
Defined.

(** * Further properties *)

Set Warnings "-clear-no-such-hyp".

(** ** Proposals ([RescaleModel.step]) *)

Section StepFacts.
Local Open Scope float_scope.
Variable tape : nat -> float.

Lemma bind_inr_l {A B} (a : A) (k : A -> result B) :
  (inr a : result A) ≫= k = k a.
Proof. reflexivity. Qed.

Lemma step_unfold (self : RescaleModel) (d : gmap string float) (pos0 : nat) :
  p self = Some d ->
  step self tape pos0 = foldM (step_body tape self) (keys d) (∅, pos0).
Proof. intros Hp. unfold step, step_body. rewrite Hp. reflexivity. Qed.

(** every pass of the loop adds its key and reads one draw *)
Lemma step_loop_inr (self : RescaleModel) (l : list string)
    (acc acc' : gmap string float) (pos0 pos' : nat) :
  foldM (step_body tape self) l (acc, pos0) = inr (acc', pos') ->
  pos' = (pos0 + length l)%nat /\ dom acc' = dom acc ∪ list_to_set l.
Proof.
  revert acc pos0. induction l as [|k l IH]; intros acc pos0 H; simpl in H.
  - apply ret_inr in H. injection H as <- <-. simpl.
    split; [lia | set_solver].
  - apply bind_inr in H. destruct H as ([acc1 pos1] & Hbody & H).
    unfold step_body in Hbody. inv_bind Hbody. injection Hbody as <- <-.
    destruct (IH _ _ H) as [-> Hdom]. split; [simpl; lia|].
    rewrite Hdom, dom_insert_L. set_solver.
Qed.

Lemma step_loop_values (self : RescaleModel) (d sc : gmap string float)
    (l : list string) (acc : gmap string float) (pos0 : nat) :
  p self = Some d -> set_scale self = Some sc ->
  (forall k, k ∈ l -> is_Some (d !! k) /\ is_Some (sc !! k)) ->
  exists acc',
    foldM (step_body tape self) l (acc, pos0) = inr (acc', (pos0 + length l)%nat) /\
    (forall k, k ∉ l -> acc' !! k = acc !! k) /\
    (NoDup l ->
     forall i k v s, l !! i = Some k -> d !! k = Some v -> sc !! k = Some s ->
                     acc' !! k = Some (v + s * tape (pos0 + i)%nat)).
Proof.
  intros Hp Hsc. revert acc pos0.
  induction l as [|k0 l IH]; intros acc pos0 Hin; cbn [foldM length].
  - exists acc. rewrite Nat.add_0_r. split; [reflexivity|].
    split; [reflexivity|]. intros _ i k v s Hi. destruct i; discriminate.
  - destruct (Hin k0) as [[v0 Hv0] [s0 Hs0]]; [set_solver|].
    assert (Hbody : step_body tape self (acc, pos0) k0
                    = inr (<[k0 := v0 + s0 * tape pos0]> acc, S pos0)).
    { unfold step_body. rewrite Hp, Hsc. simpl. unfold py_getitem.
      rewrite Hv0, Hs0. reflexivity. }
    rewrite Hbody, bind_inr_l.
    destruct (IH (<[k0 := v0 + s0 * tape pos0]> acc) (S pos0))
      as (acc' & Hfold & Hframe & Hval); [intros k Hk; apply Hin; set_solver|].
    exists acc'. rewrite Hfold.
    split; [f_equal; f_equal; lia|]. split.
    + intros k Hk. rewrite Hframe by set_solver.
      apply lookup_insert_ne. set_solver.
    + intros Hnd i k v s Hi Hv Hs. apply NoDup_cons in Hnd.
      destruct Hnd as [Hk0 Hnd]. destruct i as [|i]; simpl in Hi.
      * injection Hi as <-. rewrite Hframe by exact Hk0.
        rewrite lookup_insert_eq, Nat.add_0_r. congruence.
      * rewrite (Hval Hnd i k v s Hi Hv Hs).
        replace (S pos0 + i)%nat with (pos0 + S i)%nat by lia. reflexivity.
Qed.

Lemma keys_NoDup {V} (d : gmap string V) : NoDup (keys d).
Proof. apply NoDup_fst_map_to_list. Qed.

Lemma keys_dom {V} (d : gmap string V) (k : string) : k ∈ keys d <-> k ∈ dom d.
Proof.
  unfold keys. rewrite elem_of_dom, list_elem_of_fmap. split.
  - intros ([k' v] & -> & Hin). apply elem_of_map_to_list in Hin. eauto.
  - intros [v Hv]. exists (k, v). split; [reflexivity|].
    apply elem_of_map_to_list. exact Hv.
Qed.

Lemma keys_length {V} (d : gmap string V) : length (keys d) = size d.
Proof. unfold keys. rewrite length_fmap. apply length_map_to_list. Qed.

Lemma values_length {V} (d : gmap string V) : length (values d) = size d.
Proof. unfold values. rewrite length_fmap. apply length_map_to_list. Qed.

Lemma keys_list_to_set {V} (d : gmap string V) :
  list_to_set (keys d) = dom d.
Proof. apply set_eq. intros k. rewrite elem_of_list_to_set. apply keys_dom. Qed.

(** X1: when every parameter has a step scale, [step] returns a proposal
    with exactly the keys of [p], reads one Gaussian draw per parameter, and
    moves the parameter at position [i] of [p.keys()] by its scale times
    the [i]-th draw. *)
Theorem step_proposal (self : RescaleModel) (d sc : gmap string float)
    (pos0 : nat) :
  p self = Some d -> set_scale self = Some sc -> dom d ⊆ dom sc ->
  exists pout : gmap string float,
    step self tape pos0 = inr (pout, (pos0 + size d)%nat) /\
    dom pout = dom d /\
    forall i k v s, keys d !! i = Some k -> d !! k = Some v ->
                    sc !! k = Some s ->
                    pout !! k = Some (v + s * tape (pos0 + i)%nat).
Proof.
  intros Hp Hsc Hsub. rewrite (step_unfold self d pos0 Hp).
  destruct (step_loop_values self d sc (keys d) ∅ pos0 Hp Hsc)
    as (pout & Hfold & _ & Hval).
  { intros k Hk. apply keys_dom in Hk. split; apply elem_of_dom; set_solver. }
  exists pout. rewrite keys_length in Hfold. split; [exact Hfold|].
  destruct (step_loop_inr _ _ _ _ _ _ Hfold) as [_ Hdom].
  rewrite Hdom, keys_list_to_set, dom_empty_L. split; [set_solver|].
  apply Hval, keys_NoDup.
Qed.

Lemma step_loop_KeyError (self : RescaleModel) (d sc : gmap string float)
    (l : list string) (acc : gmap string float) (pos0 : nat) (k : string) :
  p self = Some d -> set_scale self = Some sc ->
  (forall k', k' ∈ l -> is_Some (d !! k')) ->
  k ∈ l -> sc !! k = None ->
  foldM (step_body tape self) l (acc, pos0) = inl KeyError.
Proof.
  intros Hp Hsc. revert acc pos0.
  induction l as [|k0 l IH]; intros acc pos0 Hd Hk Hnone; [set_solver|].
  cbn [foldM]. destruct (Hd k0) as [v0 Hv0]; [set_solver|].
  destruct (sc !! k0) as [s0|] eqn:Hs0.
  2:{ unfold step_body. rewrite Hp, Hsc. simpl. unfold py_getitem.
      rewrite Hv0, Hs0. reflexivity. }
  assert (Hbody : step_body tape self (acc, pos0) k0
                  = inr (<[k0 := v0 + s0 * tape pos0]> acc, S pos0)).
  { unfold step_body. rewrite Hp, Hsc. simpl. unfold py_getitem.
    rewrite Hv0, Hs0. reflexivity. }
  rewrite Hbody, bind_inr_l.
  apply IH; [intros k' Hk'; apply Hd; set_solver | | exact Hnone].
  apply elem_of_cons in Hk. destruct Hk as [->|Hk]; [congruence | exact Hk].
Qed.

(** X2: a parameter without a step scale makes [step] raise KeyError. *)
Theorem step_missing_scale (self : RescaleModel) (d sc : gmap string float)
    (pos0 : nat) (k : string) :
  p self = Some d -> set_scale self = Some sc ->
  k ∈ dom d -> k ∉ dom sc ->
  step self tape pos0 = inl KeyError.
Proof.
  intros Hp Hsc Hk Hnk. rewrite (step_unfold self d pos0 Hp).
  apply (step_loop_KeyError self d sc (keys d) ∅ pos0 k Hp Hsc).
  - intros k' Hk'. apply elem_of_dom, keys_dom, Hk'.
  - apply keys_dom, Hk.
  - apply not_elem_of_dom, Hnk.
Qed.

(** what a proposal that was returned looks like *)
Lemma step_inr (self : RescaleModel) (pos0 pos1 : nat)
    (pout : gmap string float) :
  step self tape pos0 = inr (pout, pos1) ->
  exists d, p self = Some d /\ dom pout = dom d /\
            pos1 = (pos0 + size d)%nat.
Proof.
  intros H. destruct (p self) as [d|] eqn:Hp.
  - rewrite (step_unfold self d pos0 Hp) in H. exists d.
    destruct (step_loop_inr _ _ _ _ _ _ H) as [-> Hdom].
    rewrite Hdom, keys_list_to_set, dom_empty_L, keys_length.
    split; [reflexivity|]. split; [set_solver | reflexivity].
  - unfold step in H. rewrite Hp in H. discriminate.
Qed.
End StepFacts.

Section StepExamples.
Import Fixture.
Local Open Scope float_scope.

Lemma delta_keys_scaled : dom delta_p ⊆ dom delta_scale.
Proof.
  unfold delta_p, delta_scale. rewrite !dom_insert_L, !dom_singleton_L.
  set_solver.
Qed.

(** a proposal for the Delta model as constructed *)
Lemma step_proposal_witness :
  p Delta12 = Some delta_p /\ set_scale Delta12 = Some delta_scale /\
  dom delta_p ⊆ dom delta_scale /\
  exists pout : gmap string float,
    step Delta12 (tape_of 2 1 0.5) 0 = inr (pout, (0 + size delta_p)%nat) /\
    dom pout = dom delta_p /\
    forall i k v s, keys delta_p !! i = Some k -> delta_p !! k = Some v ->
                    delta_scale !! k = Some s ->
                    pout !! k = Some (v + s * tape_of 2 1 0.5 (0 + i)%nat).
Proof.
  split; [reflexivity|]. split; [reflexivity|].
  split; [exact delta_keys_scaled|].
  apply (step_proposal (tape_of 2 1 0.5) Delta12 delta_p delta_scale 0).
  - reflexivity.
  - reflexivity.
  - exact delta_keys_scaled.
Defined.

(** a Delta model given a width, as the fitting script does with the best
    Delta parameters, has no step scale for it *)
Lemma step_missing_scale_witness :
  p (set_p Delta12 (gauss_p 0.001)) = Some (gauss_p 0.001) /\
  set_scale (set_p Delta12 (gauss_p 0.001)) = Some delta_scale /\
  "width" ∈ dom (gauss_p 0.001) /\ ("width" ∉ dom delta_scale) /\
  step (set_p Delta12 (gauss_p 0.001)) (tape_of 2 1 0.5) 0 = inl KeyError.
Proof.
  assert (Hin : "width" ∈ dom (gauss_p 0.001)).
  { unfold gauss_p. rewrite !dom_insert_L, !dom_singleton_L. set_solver. }
  assert (Hout : "width" ∉ dom delta_scale).
  { unfold delta_scale. rewrite !dom_insert_L, !dom_singleton_L. set_solver. }
  split; [reflexivity|]. split; [reflexivity|].
  split; [exact Hin|]. split; [exact Hout|].
  apply (step_missing_scale (tape_of 2 1 0.5) (set_p Delta12 (gauss_p 0.001))
           (gauss_p 0.001) delta_scale 0 "width").
  - reflexivity.
  - reflexivity.
  - exact Hin.
  - exact Hout.
Defined.
End StepExamples.

(** ** Construction and the parameter names *)

(** X3: a model constructed with a recognized kernel name has the kernel
    generator of that name, and its parameters and its step scales have
    exactly the names of the family: shift and scale, with width for Gauss,
    and with width, h3 and h4 for Hermite. *)
Theorem init_family_keys (Lref0 : Spectrum) (kernel : string) (b : bool)
    (M0 : RescaleModel) (g : kernel_fn) :
  __init__ Lref0 kernel b = inr M0 -> kernel_of_name kernel = Some g ->
  _get_kernel M0 = Some g /\
  exists d sc : gmap string float,
    p M0 = Some d /\ set_scale M0 = Some sc /\
    dom d = family_keys g /\ dom sc = family_keys g.
Proof.
  unfold __init__, kernel_of_name. intros H Hg.
  destruct (String.eqb_spec kernel "Delta") as [->|HD].
  - injection Hg as <-. simpl in H. apply ret_inr in H. subst M0. simpl.
    split; [reflexivity|]. do 2 eexists. repeat split.
    all: unfold family_keys; rewrite ?dom_insert_L, ?dom_singleton_L; set_solver.
  - destruct (String.eqb_spec kernel "Gauss") as [->|HG].
    + injection Hg as <-. simpl in H.
      destruct (wv Lref0) as [|w0 [|w1 rest]]; try discriminate H.
      simpl in H. apply ret_inr in H. subst M0. simpl.
      split; [reflexivity|]. do 2 eexists. repeat split.
      all: unfold family_keys; rewrite ?dom_insert_L, ?dom_singleton_L; set_solver.
    + destruct (String.eqb_spec kernel "Hermite") as [->|HH]; [|discriminate].
      injection Hg as <-. simpl in H.
      destruct (wv Lref0) as [|w0 [|w1 rest]]; try discriminate H.
      simpl in H. apply ret_inr in H. subst M0. simpl.
      split; [reflexivity|]. do 2 eexists. repeat split.
      all: unfold family_keys; rewrite ?dom_insert_L, ?dom_singleton_L; set_solver.
Qed.

Lemma init_family_keys_witness :
  __init__ Fixture.Lref12 "Hermite" false = inr Fixture.Hermite12 /\
  kernel_of_name "Hermite" = Some K_Hermite /\
  _get_kernel Fixture.Hermite12 = Some K_Hermite /\
  exists d sc : gmap string float,
    p Fixture.Hermite12 = Some d /\ set_scale Fixture.Hermite12 = Some sc /\
    dom d = family_keys K_Hermite /\ dom sc = family_keys K_Hermite.
Proof.
  split; [exact init_Hermite12|]. split; [reflexivity|].
  apply (init_family_keys Fixture.Lref12 "Hermite" false).
  - exact init_Hermite12.
  - reflexivity.
Defined.

(** ** More on the sampler *)

Lemma SFcompare_Lt_trans (x y z : spec_float) :
  SFcompare x y = Some Lt -> SFcompare y z = Some Lt -> SFcompare x z = Some Lt.
Proof.
  destruct x as [sx|sx| |sx mx ex], y as [sy|sy| |sy my ey],
           z as [sz|sz| |sz mz ez]; simpl;
    try discriminate; try reflexivity;
    try (destruct sx; discriminate); try (destruct sy; discriminate);
    try (destruct sz; discriminate);
    try (destruct sx, sy; discriminate); try (destruct sy, sz; discriminate);
    try (destruct sx, sy, sz; (discriminate || reflexivity)).
  all: try (destruct sx, sy; try discriminate; destruct (ex ?= ey)%Z;
            try discriminate;
            try (destruct (Pos.compare_cont Eq mx my); discriminate); fail).
  all: try (destruct sy, sz; try discriminate; destruct (ey ?= ez)%Z;
            try discriminate;
            try (destruct (Pos.compare_cont Eq my mz); discriminate); fail).
  change (Pos.compare_cont Eq mx my) with (mx ?= my)%positive.
  change (Pos.compare_cont Eq my mz) with (my ?= mz)%positive.
  change (Pos.compare_cont Eq mx mz) with (mx ?= mz)%positive.
  destruct sx, sy, sz; try discriminate; try reflexivity;
    destruct (Z.compare_spec ex ey), (Z.compare_spec ey ez), (Z.compare_spec ex ez);
    try discriminate; try reflexivity; try lia;
    destruct (Pos.compare_spec mx my), (Pos.compare_spec my mz),
             (Pos.compare_spec mx mz);
    simpl; try discriminate; try reflexivity; try lia.
Qed.

(** [<] on floats is transitive *)
Lemma float_ltb_trans (x y z : float) :
  (x <? y)%float = true -> (y <? z)%float = true -> (x <? z)%float = true.
Proof.
  rewrite !ltb_spec. unfold SFltb.
  destruct (SFcompare (Prim2SF x) (Prim2SF y)) as [[| |]|] eqn:E1;
    try discriminate.
  destruct (SFcompare (Prim2SF y) (Prim2SF z)) as [[| |]|] eqn:E2;
    try discriminate.
  rewrite (SFcompare_Lt_trans _ _ _ E1 E2). reflexivity.
Qed.

Section SamplerMore.
Variables fexp flog : float -> float.
Variable interp : Spectrum -> list float -> result (list float * list float).
Variable linalg_inv : matrix -> result matrix.
Variable tape : nat -> float.
Variable D : Spectrum.

Abbreviation iter := (mh_iter fexp flog interp linalg_inv tape D).
Abbreviation loop := (mh_loop fexp flog interp linalg_inv tape D).
Abbreviation eval_at := (evaluate fexp flog interp linalg_inv).
Abbreviation run_mh := (metro_hast fexp flog interp linalg_inv tape).

(** the three ways through the loop body, with all the variables it
    assigns *)
Lemma mh_iter_cases (s s' : mh_state) :
  iter s = inr s' ->
  exists ptry pos1 chi2try,
    step (M s) tape (pos s) = inr (ptry, pos1) /\
    eval_at (set_p (Mtry s) ptry) D = inr chi2try /\
    (((chi2try <? chi2 s)%float = true /\
      M s' = set_p (M s) ptry /\ chi2 s' = chi2try /\
      accept s' = (accept s + 1)%Z /\ pos s' = pos1 /\
      (((chi2try <? chi2best s)%float = true /\
        chi2best s' = chi2try /\ pbest s' = ptry) \/
       ((chi2try <? chi2best s)%float = false /\
        chi2best s' = chi2best s /\ pbest s' = pbest s)))
     \/ ((chi2try <? chi2 s)%float = false /\
         M s' = set_p (M s) ptry /\ chi2 s' = chi2try /\
         accept s' = (accept s + 1)%Z /\ pos s' = S pos1 /\
         chi2best s' = chi2best s /\ pbest s' = pbest s)
     \/ ((chi2try <? chi2 s)%float = false /\
         M s' = M s /\ chi2 s' = chi2 s /\
         accept s' = accept s /\ pos s' = S pos1 /\
         chi2best s' = chi2best s /\ pbest s' = pbest s)).
Proof.
  unfold mh_iter. intros H.
  apply bind_inr in H. destruct H as ([ptry pos1] & Hstep & H).
  apply bind_inr in H. destruct H as (chi2try & Heval & H).
  exists ptry, pos1, chi2try. split; [exact Hstep|]. split; [exact Heval|].
  destruct (chi2try <? chi2 s)%float.
  - left. simpl in H. apply bind_inr in H. destruct H as (c' & Hc & H).
    destruct (chi2try <? chi2best s)%float; simpl in H;
      apply ret_inr in H; subst s'; simpl; repeat split; auto.
  - right. destruct (tape pos1 <=? fexp (- chi2try / chi2 s))%float.
    + left. simpl in H. apply bind_inr in H. destruct H as (c' & Hc & H).
      apply ret_inr in H. subst s'. simpl. repeat split; auto.
    + right. apply bind_inr in H. destruct H as (c' & Hc & H).
      apply ret_inr in H. subst s'. simpl. repeat split; auto.
Qed.

Lemma mh_init_state (M0 : RescaleModel) (s0 : mh_state) :
  mh_init fexp flog interp linalg_inv D M0 = inr s0 ->
  exists d0 v0,
    p M0 = Some d0 /\ eval_at M0 D = inr v0 /\
    s0 = {| M := M0; Mtry := M0; chi2 := 1.0e12; chi2best := 1.0e12;
            pbest := d0; accept := 0; c := c s0; pos := 0 |} /\
    pchain (c s0) = [values d0] /\ lnlikely (c s0) = [v0].
Proof.
  unfold mh_init. intros H.
  destruct (p M0) as [d0|] eqn:Hp; [|discriminate]. simpl in H.
  apply bind_inr in H. destruct H as (v0 & Hv0 & H).
  apply bind_inr in H. destruct H as (c0 & Hc0 & H).
  apply ret_inr in H. subst s0. simpl.
  apply Chain_add_inr in Hc0. destruct Hc0 as (d & Hd & Hrows & Hll).
  rewrite Hp in Hd. injection Hd as <-.
  exists d0, v0. repeat split; auto.
Qed.

(** X4: the key set never changes in a run.  The parameters left in the
    caller's model and the best parameters returned have exactly the names
    of the parameters the run started from, and every row of the chain has
    one column per parameter. *)
Theorem run_keeps_keys (M0 : RescaleModel) (ntrial : nat) (keep : bool)
    (r : mh_result) :
  run_mh ntrial D M0 keep = inr r -> keys_kept M0 r.
Proof.
  unfold metro_hast, keys_kept. intros H.
  apply bind_inr in H. destruct H as (s0 & Hinit & H).
  apply bind_inr in H. destruct H as (s & Hloop & H).
  destruct (decide (ntrial = 0%nat)); [discriminate|].
  apply ret_inr in H. subst r. simpl.
  destruct (mh_init_state M0 s0 Hinit) as (d0 & v0 & Hp0 & _ & Hs0 & Hrows0 & _).
  exists d0.
  assert (Hinv : (exists d, p (M s) = Some d /\ dom d = dom d0) /\
                 dom (pbest s) = dom d0 /\
                 Forall (fun row => length row = size d0) (pchain (c s))).
  { revert Hloop.
    apply (mh_loop_invariant fexp flog interp linalg_inv tape D
             (fun s => (exists d, p (M s) = Some d /\ dom d = dom d0) /\
                       dom (pbest s) = dom d0 /\
                       Forall (fun row => length row = size d0)
                              (pchain (c s)))).
    - intros a b ((da & Hda & Hdoma) & Hbest & Hrows) Hiter.
      destruct (mh_iter_record fexp flog interp linalg_inv tape D a b Hiter)
        as [Hrow _].
      apply mh_iter_cases in Hiter.
      destruct Hiter as (ptry & pos1 & chi2try & Hstep & _ & Hcase).
      apply step_inr in Hstep. destruct Hstep as (d & Hd & Hdom & _).
      rewrite Hda in Hd. injection Hd as <-.
      assert (Hptry : dom ptry = dom d0) by congruence.
      assert (HMb : exists d, p (M b) = Some d /\ dom d = dom d0).
      { destruct Hcase as [(_ & -> & _)|[(_ & -> & _)|(_ & -> & _)]];
          simpl; eauto. }
      split; [exact HMb|]. split.
      + destruct Hcase
          as [(_ & _ & _ & _ & _ & [(_ & _ & ->)|(_ & _ & ->)])
             |[(_ & _ & _ & _ & _ & _ & ->)|(_ & _ & _ & _ & _ & _ & ->)]];
          assumption.
      + rewrite Hrow. apply Forall_app. split; [exact Hrows|].
        constructor; [|constructor].
        destruct HMb as (db & Hdb & Hdomb). unfold row_of. rewrite Hdb.
        rewrite values_length, <- !size_dom, Hdomb. reflexivity.
    - rewrite Hs0. simpl. split; [eauto|]. split; [reflexivity|].
      rewrite Hrows0. constructor; [apply values_length | constructor]. }
  destruct Hinv as ((d & Hd & Hdom) & Hbest & Hrows).
  exists d. repeat split; auto.
  intros ch Hch. destruct keep; [|discriminate]. injection Hch as <-. exact Hrows.
Qed.

(** X5: for a number of trials [ntrial >= 0], when the run returns, the
    fraction returned is the acceptance counter divided by [ntrial], and
    the counter lies between 0 and [ntrial]. *)
Theorem acceptance_count (M0 : RescaleModel) (ntrial : nat) (keep : bool)
    (r : mh_result) :
  run_mh ntrial D M0 keep = inr r ->
  exists a : Z,
    (0 <= a <= Z.of_nat ntrial)%Z /\
    res_fraction r = (float_of_Z a / float_of_Z (Z.of_nat ntrial))%float.
Proof.
  unfold metro_hast. intros H.
  apply bind_inr in H. destruct H as (s0 & Hinit & H).
  apply bind_inr in H. destruct H as (s & Hloop & H).
  destruct (decide (ntrial = 0%nat)); [discriminate|].
  apply ret_inr in H. subst r. simpl.
  exists (accept s). split; [|reflexivity].
  destruct (mh_init_state M0 s0 Hinit) as (d0 & v0 & _ & _ & Hs0 & _).
  assert (Hacc0 : accept s0 = 0%Z) by (rewrite Hs0; reflexivity).
  assert (Hbound : forall k a b, loop k a = inr b ->
                     (accept a <= accept b <= accept a + Z.of_nat k)%Z).
  { induction k as [|k IH]; intros a b Hl; simpl in Hl.
    - apply ret_inr in Hl. subst b. lia.
    - apply bind_inr in Hl. destruct Hl as (a1 & Hiter & Hl).
      apply IH in Hl. apply mh_iter_cases in Hiter.
      destruct Hiter as (ptry & pos1 & chi2try & _ & _ & Hcase).
      destruct Hcase as [(_ & _ & _ & Ha & _)|[(_ & _ & _ & Ha & _)
                                              |(_ & _ & _ & Ha & _)]]; lia. }
  specialize (Hbound ntrial s0 s Hloop). lia.
Qed.

(** the best chi2 is 1e12, with the initial parameters, or it is below 1e12
    and is the chi2 of a record appended by a trial, whose row was made from
    the best parameters *)
Lemma best_row_values (M0 : RescaleModel) (ntrial : nat) (r : mh_result) :
  run_mh ntrial D M0 true = inr r ->
  exists (d0 : gmap string float) (ch : Chain),
    p M0 = Some d0 /\ res_chain r = Some ch /\
    ((res_chi2best r = 1.0e12%float /\ res_pbest r = d0) \/
     exists i : nat,
       (1 <= i)%nat /\
       pchain ch !! i = Some (values (res_pbest r)) /\
       lnlikely ch !! i = Some (res_chi2best r) /\
       (res_chi2best r <? 1.0e12)%float = true).
Proof.
  unfold metro_hast. intros H.
  apply bind_inr in H. destruct H as (s0 & Hinit & H).
  apply bind_inr in H. destruct H as (s & Hloop & H).
  destruct (decide (ntrial = 0%nat)); [discriminate|].
  apply ret_inr in H. subst r. simpl.
  destruct (mh_init_state M0 s0 Hinit)
    as (d0 & v0 & Hp0 & _ & Hs0 & Hrows0 & Hll0).
  exists d0, (c s). split; [exact Hp0|]. split; [reflexivity|].
  assert (Hinv : length (pchain (c s)) = length (lnlikely (c s)) /\
                 (1 <= length (pchain (c s)))%nat /\
                 ((chi2best s = 1.0e12%float /\ pbest s = d0) \/
                  exists i, (1 <= i)%nat /\
                    pchain (c s) !! i = Some (values (pbest s)) /\
                    lnlikely (c s) !! i = Some (chi2best s) /\
                    (chi2best s <? 1.0e12)%float = true)).
  { revert Hloop.
    apply (mh_loop_invariant fexp flog interp linalg_inv tape D
             (fun s => length (pchain (c s)) = length (lnlikely (c s)) /\
                       (1 <= length (pchain (c s)))%nat /\
                       ((chi2best s = 1.0e12%float /\ pbest s = d0) \/
                        exists i, (1 <= i)%nat /\
                          pchain (c s) !! i = Some (values (pbest s)) /\
                          lnlikely (c s) !! i = Some (chi2best s) /\
                          (chi2best s <? 1.0e12)%float = true))).
    - intros a b (Hlen & Hpos & Hbest) Hiter.
      destruct (mh_iter_record fexp flog interp linalg_inv tape D a b Hiter)
        as [Hrow Hll].
      apply mh_iter_cases in Hiter.
      destruct Hiter as (ptry & pos1 & chi2try & _ & _ & Hcase).
      split; [rewrite Hrow, Hll, !length_app, Hlen; reflexivity|].
      split; [rewrite Hrow, length_app; lia|].
      assert (Hkeep : chi2best b = chi2best a -> pbest b = pbest a ->
                (chi2best b = 1.0e12%float /\ pbest b = d0) \/
                exists i, (1 <= i)%nat /\
                  pchain (c b) !! i = Some (values (pbest b)) /\
                  lnlikely (c b) !! i = Some (chi2best b) /\
                  (chi2best b <? 1.0e12)%float = true).
      { intros -> ->. destruct Hbest as [Hl|(i & Hi & Hr & Hc & Hlt)];
          [left; exact Hl|].
        right. exists i. rewrite Hrow, Hll.
        rewrite !lookup_app_l by (eapply lookup_lt_Some; eassumption). auto. }
      destruct Hcase
        as [(_ & HMb & Hchi & _ & _ & [(Hlt & Hcb & Hpb)|(_ & Hcb & Hpb)])
           |[(_ & _ & _ & _ & _ & Hcb & Hpb)|(_ & _ & _ & _ & _ & Hcb & Hpb)]];
        try (apply Hkeep; assumption).
      right. exists (length (pchain (c a))). split; [exact Hpos|].
      rewrite Hrow, Hll, Hcb, Hpb.
      split; [|split].
      + rewrite lookup_app_r by lia. rewrite Nat.sub_diag. simpl.
        unfold row_of. rewrite HMb. reflexivity.
      + rewrite Hlen, lookup_app_r by lia. rewrite Nat.sub_diag. simpl.
        rewrite Hchi. reflexivity.
      + destruct Hbest as [[Hca _]|(i & _ & _ & _ & Hlt')].
        * rewrite <- Hca. exact Hlt.
        * eapply float_ltb_trans; eassumption.
    - rewrite Hs0. simpl. rewrite Hrows0, Hll0. simpl.
      split; [reflexivity|]. split; [lia|]. left. auto. }
  destruct Hinv as (_ & _ & Hbest). exact Hbest.
Qed.

(** X7: with [ntrial = 0] the loop does not run and the final division
    [accept/float(ntrial)] raises ZeroDivisionError, for every model that
    can be evaluated. *)
Theorem no_trial_raises (M0 : RescaleModel) (d : gmap string float)
    (v : float) (keep : bool) :
  p M0 = Some d -> eval_at M0 D = inr v ->
  run_mh 0 D M0 keep = inl ZeroDivisionError.
Proof.
  intros Hp Hv. unfold metro_hast, mh_init. rewrite Hp. simpl.
  unfold evaluate in Hv. unfold evaluate. rewrite Hv. simpl.
  destruct (Chain_add_Some Chain_new M0 v) as [c0 Hc0]; [eauto|].
  rewrite Hc0. reflexivity.
Qed.
End SamplerMore.

Section SamplerMoreExamples.
Import Fixture.
Local Open Scope float_scope.

Lemma run_keeps_keys_witness :
  metro_hast exp_model log_model lin_interp no_inv (tape_of 2 1 0.5) 1 D12
             Delta12 true = inr result1 /\
  keys_kept Delta12 result1.
Proof.
  split; [exact run_result1|].
  apply (run_keeps_keys exp_model log_model lin_interp no_inv
           (tape_of 2 1 0.5) D12 Delta12 1 true result1).
  exact run_result1.
Defined.

Lemma acceptance_count_witness :
  metro_hast exp_model log_model lin_interp no_inv (tape_of 2 1 0.5) 1 D12
             Delta12 true = inr result1 /\
  exists a : Z,
    (0 <= a <= Z.of_nat 1)%Z /\
    res_fraction result1 = float_of_Z a / float_of_Z (Z.of_nat 1).
Proof.
  split; [exact run_result1|].
  apply (acceptance_count exp_model log_model lin_interp no_inv
           (tape_of 2 1 0.5) D12 Delta12 1 true result1).
  exact run_result1.
Defined.

Lemma no_trial_raises_witness :
  p Delta12 = Some delta_p /\
  evaluate exp_model log_model lin_interp no_inv Delta12 D12
  = inr 79.014203100167933 /\
  metro_hast exp_model log_model lin_interp no_inv (tape_of 2 1 0.5) 0 D12
             Delta12 true = inl ZeroDivisionError.
Proof.
  assert (Hv : evaluate exp_model log_model lin_interp no_inv Delta12 D12
               = inr 79.014203100167933) by (vm_compute; reflexivity).
  split; [reflexivity|]. split; [exact Hv|].
  apply (no_trial_raises exp_model log_model lin_interp no_inv
           (tape_of 2 1 0.5) D12 Delta12 delta_p 79.014203100167933 true).
  - reflexivity.
  - exact Hv.
Defined.
End SamplerMoreExamples.

(** ** More on the covariance propagator *)

Section CovarianceMore.
Local Open Scope float_scope.

Lemma mapM_length {A B} (g : A -> result B) (xs : list A) (ys : list B) :
  mapM g xs = inr ys -> length ys = length xs.
Proof.
  revert ys. induction xs as [|x xs IH]; intros ys H; simpl in H.
  - apply ret_inr in H. subst ys. reflexivity.
  - apply bind_inr in H. destruct H as (y & _ & H).
    apply bind_inr in H. destruct H as (ys' & Hys & H).
    apply ret_inr in H. subst ys. simpl. f_equal. auto.
Qed.

Lemma bc2_length (op : float -> float -> float) (a b r : list float) :
  length a = length b -> bc2 op a b = inr r -> length r = length a.
Proof.
  intros Hlen. unfold bc2. rewrite decide_True by exact Hlen.
  intros H. apply ret_inr in H. subst r. rewrite length_zip_with. lia.
Qed.

Lemma np_sq_length (a : list float) : length (np_sq a) = length a.
Proof. apply length_map. Qed.

Lemma set_diag_shape (n : nat) (A A' : matrix) (d : list float) :
  is_shape n n A -> set_diag A d = inr A' -> is_shape n n A'.
Proof.
  intros [Hn Hrows] H. unfold set_diag in H.
  assert (Himap : forall g : nat -> float,
             is_shape n n (imap (fun i row => <[i := g i]> row) A)).
  { intros g. split; [rewrite length_imap; exact Hn|].
    apply Forall_lookup. intros i row Hrow. rewrite list_lookup_imap in Hrow.
    destruct (A !! i) as [row0|] eqn:E; [|discriminate].
    injection Hrow as <-. rewrite length_insert.
    eapply (proj1 (Forall_lookup _ _) Hrows); eauto. }
  destruct (decide (length d = length A)).
  - apply ret_inr in H. subst A'. apply (Himap (fun i => nth i d 0)).
  - destruct d as [|d0 [|]]; try discriminate H.
    apply ret_inr in H. subst A'. apply (Himap (fun _ => d0)).
Qed.

(** the last two statements of [get_covarmatrix]: mirroring and halving the
    diagonal give a symmetric array of the same shape *)
Lemma mirror_symmetric (n : nat) (A B C : matrix) (d : list float) :
  is_shape n n A -> mat_iadd A (transpose A) = inr B -> set_diag B d = inr C ->
  is_shape n n C /\ symmetric C.
Proof.
  intros HA HB HC.
  pose proof (mat_iadd_transpose_shape n A B HA HB) as HBs.
  split; [eapply set_diag_shape; eassumption|].
  intros i j. destruct (decide (i = j)) as [->|Hne]; [reflexivity|].
  rewrite (set_diag_lookup_ne _ _ _ i j HC Hne).
  rewrite (set_diag_lookup_ne _ _ _ j i HC) by congruence.
  rewrite (mat_iadd_transpose_lookup n _ _ i j HA HB).
  rewrite (mat_iadd_transpose_lookup n _ _ j i HA HB).
  rewrite (andb_comm (j <? n)%nat).
  destruct ((i <? n)%nat && (j <? n)%nat); [|reflexivity].
  f_equal. apply float_add_comm.
Qed.

(** what [get_covarmatrix] returns: a symmetric array with one row and one
    column per target point; for a kernel of length 1 it is the diagonal
    array of a vector [v] *)
Lemma get_covarmatrix_inr (x xinterp z k : list float) (bw : float)
    (C : matrix) :
  get_covarmatrix x xinterp z k bw = inr C ->
  is_shape (length xinterp) (length xinterp) C /\ symmetric C /\
  (length k = 1%nat ->
   exists v, length v = length xinterp /\ C = np_diag v 0).
Proof.
  unfold get_covarmatrix. intros H.
  apply bind_inr in H. destruct H as (xlo & Hxlo & H).
  apply bind_inr in H. destruct H as (xhi & Hxhi & H).
  apply bind_inr in H. destruct H as (num & Hnum & H).
  apply bind_inr in H. destruct H as (den & Hden & H).
  apply bind_inr in H. destruct H as (f0 & Hf & H).
  apply bind_inr in H. destruct H as (zhi & Hzhi & H).
  apply bind_inr in H. destruct H as (zlo & Hzlo & H).
  apply bind_inr in H. destruct H as (a & Ha & H).
  apply bind_inr in H. destruct H as (b & Hb & H).
  apply bind_inr in H. destruct H as (s & Hs & H).
  apply mapM_length in Hxlo, Hxhi, Hzhi, Hzlo.
  unfold searchsorted in Hxlo, Hxhi, Hzhi, Hzlo.
  repeat rewrite length_map in Hxlo. repeat rewrite length_map in Hxhi.
  repeat rewrite length_map in Hzhi. repeat rewrite length_map in Hzlo.
  apply bc2_length in Hnum; [|lia].
  apply bc2_length in Hden; [|lia].
  apply bc2_length in Hf; [|lia].
  apply bc2_length in Ha; [|rewrite !np_sq_length; lia].
  apply bc2_length in Hb; [|rewrite !np_sq_length, length_map; lia].
  repeat rewrite np_sq_length in Ha. repeat rewrite np_sq_length in Hb.
  repeat rewrite length_map in Hb.
  apply bc2_length in Hs; [|lia].
  assert (Hn : length (map PrimFloat.sqrt s) = length xinterp)
    by (rewrite length_map; lia).
  destruct (decide (length k = 1%nat)) as [Hk|Hk].
  - apply ret_inr in H. subst C.
    assert (Hv : length (np_sq (map PrimFloat.sqrt s)) = length xinterp)
      by (rewrite np_sq_length; exact Hn).
    split; [|split].
    + unfold np_diag. rewrite Hv. simpl. rewrite Nat.add_0_r.
      apply mat_of_fun_shape.
    + apply np_diag0_symmetric.
    + intros _. eexists. split; [exact Hv | reflexivity].
  - rewrite Hn in H.
    apply bind_inr in H. destruct H as (c1 & _ & H).
    apply bind_inr in H. destruct H as (fa & _ & H).
    apply bind_inr in H. destruct H as (imin & _ & H).
    apply bind_inr in H. destruct H as (imax & _ & H).
    apply bind_inr in H. destruct H as (diag1 & _ & H).
    apply bind_inr in H. destruct H as (c1' & _ & H).
    apply bind_inr in H. destruct H as (c1'' & _ & H).
    apply bind_inr in H. destruct H as (c2 & Hloop & H).
    apply bind_inr in H. destruct H as (c2' & Hadd & H).
    assert (Hshape : is_shape (length xinterp) (length xinterp) c2)
      by (eapply covar_loop_shape; [apply zeros_shape | exact Hloop]).
    destruct (mirror_symmetric _ _ _ _ _ Hshape Hadd H) as [HCs HCsym].
    split; [exact HCs|]. split; [exact HCsym|]. intros Hk1. contradiction.
Qed.

(** X8: the matrix [get_covarmatrix] returns has one row and one column per
    target point of [xinterp]. *)
Theorem get_covarmatrix_square (x xinterp z k : list float) (bw : float)
    (C : matrix) :
  get_covarmatrix x xinterp z k bw = inr C ->
  is_shape (length xinterp) (length xinterp) C.
Proof. intros H. apply (get_covarmatrix_inr _ _ _ _ _ _ H). Qed.

(** X9: for a kernel of length 1, the Delta kernel, the matrix returned is
    diagonal: every entry off the diagonal is 0. *)
Theorem get_covarmatrix_delta_diagonal (x xinterp z k : list float)
    (bw : float) (C : matrix) (i j : nat) :
  get_covarmatrix x xinterp z k bw = inr C -> length k = 1%nat ->
  (i < length xinterp)%nat -> (j < length xinterp)%nat -> i <> j ->
  mat_lookup C i j = Some 0.
Proof.
  intros H Hk Hi Hj Hne.
  destruct (get_covarmatrix_inr _ _ _ _ _ _ H) as (_ & _ & Hdiag).
  destruct (Hdiag Hk) as (v & Hv & ->).
  unfold np_diag. rewrite mat_of_fun_lookup, Hv. simpl. rewrite Nat.add_0_r.
  destruct (Nat.ltb_spec i (length xinterp)); [|lia].
  destruct (Nat.ltb_spec j (length xinterp)); [|lia]. simpl.
  destruct (Z.eqb_spec (Z.of_nat j - Z.of_nat i) 0); [lia | reflexivity].
Qed.
End CovarianceMore.

Lemma get_covarmatrix_square_witness :
  exists C : matrix,
    get_covarmatrix [0; 1; 2; 3; 4; 5]%float [0.5; 1.5; 2.5; 3.5; 4.5]%float
                    [1; 1; 1; 1; 1; 1]%float [0.25; 0.5; 0.25]%float 2%float
    = inr C /\ is_shape 5 5 C.
Proof.
  eexists. split; [vm_compute; reflexivity|].
  apply (get_covarmatrix_square
           [0; 1; 2; 3; 4; 5]%float [0.5; 1.5; 2.5; 3.5; 4.5]%float
           [1; 1; 1; 1; 1; 1]%float [0.25; 0.5; 0.25]%float 2%float).
  vm_compute. reflexivity.
Defined.

Lemma get_covarmatrix_delta_diagonal_witness :
  exists C : matrix,
    get_covarmatrix [0; 1; 2; 3; 4; 5]%float [0.5; 1.5; 2.5; 3.5; 4.5]%float
                    [1; 1; 1; 1; 1; 1]%float [1]%float 2%float
    = inr C /\ mat_lookup C 1 3 = Some 0%float.
Proof.
  eexists. split; [vm_compute; reflexivity|].
  apply (get_covarmatrix_delta_diagonal
           [0; 1; 2; 3; 4; 5]%float [0.5; 1.5; 2.5; 3.5; 4.5]%float
           [1; 1; 1; 1; 1; 1]%float [1]%float 2%float);
    [vm_compute; reflexivity | reflexivity | simpl; lia | simpl; lia | lia].
Defined.

Section CovarianceEdges.
Local Open Scope float_scope.

Lemma foldM_const {A S} (body : S -> A -> result S) (xs : list A) (s : S) :
  (forall s' x, body s' x = inr s') -> foldM body xs s = inr s.
Proof.
  intros Hbody. induction xs as [|x xs IH]; simpl; [reflexivity|].
  rewrite Hbody. exact IH.
Qed.

(** with [int(breakwidth) <= 0] the inner loop never runs *)
Lemma covar_loop_narrow (size : nat) k cent covar1 (bw : float) (nb : Z)
    (A : matrix) :
  int_of_float bw = inr nb -> (nb <= 0)%Z ->
  covar_loop size k cent covar1 bw A = inr A.
Proof.
  intros Hnb Hle. unfold covar_loop. apply foldM_const.
  intros A' i. rewrite Hnb. simpl.
  replace (Z.to_nat nb) with 0%nat by lia. reflexivity.
Qed.

Lemma mat_get_zeros (n i j : nat) : mat_get (zeros n n) i j = 0.
Proof.
  unfold mat_get, zeros. rewrite mat_of_fun_lookup.
  destruct ((i <? n)%nat && (j <? n)%nat); reflexivity.
Qed.

Lemma nth_list_of_fun {A} (n i : nat) (g : nat -> A) (d : A) :
  (i < n)%nat -> nth i (list_of_fun n g) d = g i.
Proof.
  intros Hi. rewrite nth_lookup, list_of_fun_lookup.
  destruct (Nat.ltb_spec i n); [reflexivity | lia].
Qed.

(** the entry that [A[diag] = d] writes *)
Lemma set_diag_lookup_eq (n : nat) (A A' : matrix) (d : list float) (i : nat) :
  is_shape n n A -> length d = n -> set_diag A d = inr A' -> (i < n)%nat ->
  mat_lookup A' i i = Some (nth i d 0).
Proof.
  intros [Hn Hrows] Hd H Hi. unfold set_diag in H.
  rewrite decide_True in H by congruence. apply ret_inr in H. subst A'.
  unfold mat_lookup. rewrite list_lookup_imap.
  destruct (lookup_lt_is_Some_2 A i) as [row Hrow]; [lia|].
  rewrite Hrow. simpl. apply list_lookup_insert_eq.
  rewrite (proj1 (Forall_lookup _ _) Hrows i row Hrow). exact Hi.
Qed.

(** X10: when [int(breakwidth)] is 0 or negative and the kernel has more
    than one element, no pair of positions is visited and the matrix
    returned is zero everywhere, the diagonal included. *)
Theorem narrow_breakwidth_zero (x xinterp z k : list float) (bw : float)
    (nb : Z) (C : matrix) (i j : nat) :
  get_covarmatrix x xinterp z k bw = inr C ->
  length k <> 1%nat -> int_of_float bw = inr nb -> (nb <= 0)%Z ->
  (i < length xinterp)%nat -> (j < length xinterp)%nat ->
  mat_lookup C i j = Some 0.
Proof.
  intros H Hk Hnb Hle Hi Hj.
  pose proof (get_covarmatrix_inr _ _ _ _ _ _ H) as (_ & _ & _).
  unfold get_covarmatrix in H.
  apply bind_inr in H. destruct H as (xlo & Hxlo & H).
  apply bind_inr in H. destruct H as (xhi & Hxhi & H).
  apply bind_inr in H. destruct H as (num & Hnum & H).
  apply bind_inr in H. destruct H as (den & Hden & H).
  apply bind_inr in H. destruct H as (f0 & Hf & H).
  apply bind_inr in H. destruct H as (zhi & Hzhi & H).
  apply bind_inr in H. destruct H as (zlo & Hzlo & H).
  apply bind_inr in H. destruct H as (a & Ha & H).
  apply bind_inr in H. destruct H as (b & Hb & H).
  apply bind_inr in H. destruct H as (s & Hs & H).
  apply mapM_length in Hxlo, Hxhi, Hzhi, Hzlo.
  unfold searchsorted in Hxlo, Hxhi, Hzhi, Hzlo.
  repeat rewrite length_map in Hxlo. repeat rewrite length_map in Hxhi.
  repeat rewrite length_map in Hzhi. repeat rewrite length_map in Hzlo.
  apply bc2_length in Hnum; [|lia].
  apply bc2_length in Hden; [|lia].
  apply bc2_length in Hf; [|lia].
  apply bc2_length in Ha; [|rewrite !np_sq_length; lia].
  apply bc2_length in Hb; [|rewrite !np_sq_length, length_map; lia].
  repeat rewrite np_sq_length in Ha. repeat rewrite np_sq_length in Hb.
  repeat rewrite length_map in Hb.
  apply bc2_length in Hs; [|lia].
  assert (Hn : length (map PrimFloat.sqrt s) = length xinterp)
    by (rewrite length_map; lia).
  rewrite decide_False in H by exact Hk. rewrite Hn in H.
  set (n := length xinterp) in *.
  apply bind_inr in H. destruct H as (c1 & _ & H).
  apply bind_inr in H. destruct H as (fa & _ & H).
  apply bind_inr in H. destruct H as (imin & _ & H).
  apply bind_inr in H. destruct H as (imax & _ & H).
  apply bind_inr in H. destruct H as (diag1 & _ & H).
  apply bind_inr in H. destruct H as (c1' & _ & H).
  apply bind_inr in H. destruct H as (c1'' & _ & H).
  apply bind_inr in H. destruct H as (c2 & Hloop & H).
  apply bind_inr in H. destruct H as (B & Hadd & H).
  rewrite (covar_loop_narrow _ _ _ _ _ nb _ Hnb Hle) in Hloop.
  injection Hloop as <-.
  pose proof (zeros_shape n n) as Hz.
  pose proof (mat_iadd_transpose_shape n _ _ Hz Hadd) as HB.
  assert (HBij : forall a' b', (a' < n)%nat -> (b' < n)%nat ->
                               mat_lookup B a' b' = Some 0).
  { intros a' b' Ha' Hb'.
    rewrite (mat_iadd_transpose_lookup n _ _ a' b' Hz Hadd).
    destruct (Nat.ltb_spec a' n); [|lia]. destruct (Nat.ltb_spec b' n); [|lia].
    simpl. rewrite !mat_get_zeros. reflexivity. }
  destruct (decide (i = j)) as [->|Hne].
  - assert (Hd : length (map (fun v => v / 2) (get_diag B)) = n).
    { rewrite length_map. unfold get_diag. rewrite list_of_fun_length.
      apply HB. }
    rewrite (set_diag_lookup_eq n B C _ j HB Hd H Hj).
    change 0 with (0 / 2) at 1. rewrite (map_nth (fun v => v / 2)).
    unfold get_diag. rewrite (proj1 HB), nth_list_of_fun by exact Hj.
    unfold mat_get. rewrite HBij by assumption. reflexivity.
  - rewrite (set_diag_lookup_ne _ _ _ i j H Hne). apply HBij; assumption.
Qed.

Lemma searchsorted1_above (x : list float) (v : float) :
  Forall (fun x0 => (x0 <? v) = true) x -> searchsorted1 x v = length x.
Proof.
  induction 1 as [|x0 x Hx0 _ IH]; simpl; [reflexivity|].
  rewrite Hx0, IH. reflexivity.
Qed.

Lemma py_index_length {A} (l : list A) :
  py_index l (Z.of_nat (length l)) = inl IndexError.
Proof.
  unfold py_index. destruct (Z.ltb_spec (Z.of_nat (length l)) 0); [lia|].
  destruct (Z.ltb_spec (Z.of_nat (length l)) 0); [lia|].
  rewrite Nat2Z.id, (proj2 (lookup_ge_None l (length l))) by lia. reflexivity.
Qed.

Lemma py_index_error {A} (l : list A) (i : Z) (e : PyErr) :
  py_index l i = inl e -> e = IndexError.
Proof.
  unfold py_index.
  destruct ((if (i <? 0)%Z then _ else _) <? 0)%Z;
    [intros H; injection H; auto|].
  destruct (l !! _); simpl; [discriminate | intros H; injection H; auto].
Qed.

Lemma take_indices_error {A} (l : list A) (idx : list Z) (e : PyErr) :
  take_indices l idx = inl e -> e = IndexError.
Proof.
  unfold take_indices. induction idx as [|i idx IH]; simpl; [discriminate|].
  destruct (py_index l i) as [e'|v] eqn:E; simpl.
  - intros H. injection H as <-. eapply py_index_error; eassumption.
  - destruct (mapM (py_index l) idx) as [e'|vs]; simpl; [|discriminate].
    intros H. injection H as <-. apply IH. reflexivity.
Qed.

Lemma take_indices_out_of_range {A} (l : list A) (idx : list Z) :
  Z.of_nat (length l) ∈ idx -> take_indices l idx = inl IndexError.
Proof.
  intros Hin. destruct (take_indices l idx) as [e|vs] eqn:E.
  - f_equal. eapply take_indices_error; eassumption.
  - exfalso. revert vs E. unfold take_indices.
    induction idx as [|i idx IH]; intros vs E; [set_solver|].
    simpl in E. apply bind_inr in E. destruct E as (v & Hv & E).
    apply bind_inr in E. destruct E as (vs' & Hvs & _).
    apply elem_of_cons in Hin. destruct Hin as [<-|Hin].
    + rewrite py_index_length in Hv. discriminate.
    + eapply IH; eassumption.
Qed.

(** X11: a target point above every source point makes [get_covarmatrix]
    raise IndexError: [searchsorted] places it after the last source sample,
    and [x[isort]] reads past the end. *)
Theorem target_beyond_source (x xinterp z k : list float) (bw xi : float) :
  xi ∈ xinterp -> Forall (fun x0 => (x0 <? xi) = true) x ->
  get_covarmatrix x xinterp z k bw = inl IndexError.
Proof.
  intros Hin Habove. unfold get_covarmatrix.
  assert (Hhi : take_indices x (searchsorted x xinterp) = inl IndexError).
  { apply take_indices_out_of_range.
    unfold searchsorted. apply list_elem_of_fmap. exists xi.
    split; [|exact Hin]. rewrite searchsorted1_above by exact Habove.
    reflexivity. }
  rewrite Hhi.
  destruct (take_indices x (map _ _)) as [e|xlo] eqn:Hlo.
  - rewrite (take_indices_error _ _ _ Hlo). reflexivity.
  - reflexivity.
Qed.
End CovarianceEdges.

Lemma narrow_breakwidth_zero_witness :
  exists C : matrix,
    get_covarmatrix [0; 1; 2; 3; 4; 5]%float [0.5; 1.5; 2.5; 3.5; 4.5]%float
                    [1; 1; 1; 1; 1; 1]%float [0.25; 0.5; 0.25]%float 0.9%float
    = inr C /\
    int_of_float 0.9 = inr 0%Z /\ mat_lookup C 2 2 = Some 0%float.
Proof.
  eexists. split; [vm_compute; reflexivity|].
  split; [vm_compute; reflexivity|].
  apply (narrow_breakwidth_zero
           [0; 1; 2; 3; 4; 5]%float [0.5; 1.5; 2.5; 3.5; 4.5]%float
           [1; 1; 1; 1; 1; 1]%float [0.25; 0.5; 0.25]%float 0.9%float 0);
    [vm_compute; reflexivity | simpl; lia | vm_compute; reflexivity
    | lia | simpl; lia | simpl; lia].
Defined.

Lemma target_beyond_source_witness :
  2.5%float ∈ [0.5; 2.5]%float /\
  Forall (fun x0 => (x0 <? 2.5)%float = true) [0; 1; 2]%float /\
  get_covarmatrix [0; 1; 2]%float [0.5; 2.5]%float [1; 1; 1]%float [1]%float
                  2%float = inl IndexError.
Proof.
  assert (Hin : 2.5%float ∈ [0.5; 2.5]%float) by (right; left).
  assert (Hall : Forall (fun x0 => (x0 <? 2.5)%float = true) [0; 1; 2]%float)
    by (repeat constructor).
  split; [exact Hin|]. split; [exact Hall|].
  apply (target_beyond_source [0; 1; 2]%float [0.5; 2.5]%float [1; 1; 1]%float
           [1]%float 2%float 2.5%float Hin Hall).
Defined.

(** ** Covariance returned by [_get_yz] and [output] *)

Section CovarianceOut.
Local Open Scope float_scope.

Variable fexp : float -> float.
Variable interp : Spectrum -> list float -> result (list float * list float).

Lemma mat_scale_lookup (A : matrix) (s : float) (i j : nat) :
  mat_lookup (mat_scale A s) i j = (fun a => a * s) <$> mat_lookup A i j.
Proof.
  unfold mat_lookup, mat_scale. rewrite list_lookup_fmap.
  destruct (A !! i) as [row|]; simpl; [|reflexivity].
  apply list_lookup_fmap.
Qed.

Lemma mat_scale_shape (n m : nat) (A : matrix) (s : float) :
  is_shape n m A -> is_shape n m (mat_scale A s).
Proof.
  intros [Hn Hrows]. unfold mat_scale. split; [rewrite length_map; exact Hn|].
  apply Forall_fmap. eapply Forall_impl; [exact Hrows|].
  intros row Hrow. simpl. rewrite length_map. exact Hrow.
Qed.

Lemma mat_scale_symmetric (A : matrix) (s : float) :
  symmetric A -> symmetric (mat_scale A s).
Proof. intros HA i j. rewrite !mat_scale_lookup, (HA i j). reflexivity. Qed.

Lemma set_diag_symmetric (A A' : matrix) (d : list float) :
  symmetric A -> set_diag A d = inr A' -> symmetric A'.
Proof.
  intros HA H i j. destruct (decide (i = j)) as [->|Hne]; [reflexivity|].
  rewrite (set_diag_lookup_ne _ _ _ i j H Hne).
  rewrite (set_diag_lookup_ne _ _ _ j i H) by congruence. apply HA.
Qed.

Lemma py_slice_lookup {A} (l : list A) (t nt : Z) (i : nat) :
  py_slice l t nt !! i =
  if (i <? snd (window (length l) t nt))%nat
  then l !! (fst (window (length l) t nt) + i)%nat else None.
Proof.
  unfold py_slice, window. cbn [fst snd]. rewrite lookup_take.
  destruct (Nat.ltb_spec i
              (Z.to_nat (slice_bound (Z.of_nat (length l)) nt -
                         slice_bound (Z.of_nat (length l)) t))).
  - rewrite decide_True by assumption. apply lookup_drop.
  - rewrite decide_False by lia. reflexivity.
Qed.

Lemma slice2_lookup (n : nat) (C : matrix) (t nt : Z) (i j : nat) :
  is_shape n n C ->
  mat_lookup (py_slice (map (fun row => py_slice row t nt) C) t nt) i j =
  if ((i <? snd (window n t nt)) && (j <? snd (window n t nt)))%nat
  then mat_lookup C (fst (window n t nt) + i) (fst (window n t nt) + j)
  else None.
Proof.
  intros [Hn Hrows]. unfold mat_lookup. rewrite py_slice_lookup, length_map, Hn.
  destruct (i <? snd (window n t nt))%nat; [|reflexivity].
  rewrite list_lookup_fmap.
  destruct (C !! (fst (window n t nt) + i)%nat) as [row|] eqn:E; simpl.
  - rewrite py_slice_lookup.
    rewrite (proj1 (Forall_lookup _ _) Hrows _ _ E). reflexivity.
  - destruct (j <? _)%nat; reflexivity.
Qed.

Lemma slice2_symmetric (n : nat) (C : matrix) (t nt : Z) :
  is_shape n n C -> symmetric C ->
  symmetric (py_slice (map (fun row => py_slice row t nt) C) t nt).
Proof.
  intros HC Hsym i j. rewrite !(slice2_lookup n) by exact HC.
  rewrite (andb_comm (j <? _)%nat). destruct (_ && _); [apply Hsym|reflexivity].
Qed.

(** X12: the covariance matrix that [_get_yz] returns when asked for one is
    symmetric: symmetry survives the scaling by [scale**2], the reference
    variances added on the diagonal, and the trimming of both axes. *)
Theorem get_yz_covariance_symmetric (self : RescaleModel) (L : Spectrum)
    (y var : list float) (m2 : list bool) (oc : option matrix) :
  _get_yz fexp interp self L true = inr (y, var, m2, oc) ->
  exists C, oc = Some C /\ symmetric C.
Proof.
  unfold _get_yz. intros H.
  apply bind_inr in H. destruct H as ([[l m] wvm] & _ & H).
  apply bind_inr in H. destruct H as ([y0 z0] & _ & H).
  apply bind_inr in H. destruct H as (k & _ & H).
  apply bind_inr in H. destruct H as (covar & Hcov & H).
  apply bind_inr in Hcov. destruct Hcov as (bw & _ & Hcov).
  apply bind_inr in Hcov. destruct Hcov as (C0 & HC0 & Hcov).
  apply ret_inr in Hcov. subst covar.
  apply bind_inr in H. destruct H as (z1 & _ & H).
  apply bind_inr in H. destruct H as (y1 & _ & H).
  apply bind_inr in H. destruct H as (scale & _ & H).
  apply bind_inr in H. destruct H as (covar & Hcov & H).
  apply bind_inr in Hcov. destruct Hcov as (efm & _ & Hcov).
  apply bind_inr in Hcov. destruct Hcov as (d & _ & Hcov).
  apply bind_inr in Hcov. destruct Hcov as (C1 & HC1 & Hcov).
  apply ret_inr in Hcov. subst covar.
  apply bind_inr in H. destruct H as (t & _ & H).
  apply bind_inr in H. destruct H as (nt & _ & H).
  apply bind_inr in H. destruct H as (w_lo & _ & H).
  apply bind_inr in H. destruct H as (w_hi & _ & H).
  apply ret_inr in H. injection H as _ _ _ <-.
  destruct (get_covarmatrix_inr _ _ _ _ _ _ HC0) as (Hshape & Hsym & _).
  eexists. split; [reflexivity|].
  apply (slice2_symmetric (length wvm)).
  - eapply set_diag_shape; [|exact HC1]. apply mat_scale_shape, Hshape.
  - eapply set_diag_symmetric; [|exact HC1]. apply mat_scale_symmetric, Hsym.
Qed.

(** X13: the covariance matrix that [output] returns when asked for one is
    symmetric, with one row and one column per wavelength of the spectrum
    returned with it; those wavelengths are the samples of [S] that the mask
    selects. *)
Theorem output_covariance (self : RescaleModel) (S : Spectrum)
    (sout : Spectrum) (m : list bool) (oc : option matrix) :
  output fexp interp self S true = inr (sout, m, oc) ->
  compress (wv S) m = inr (wv sout) /\
  exists C, oc = Some C /\
            is_shape (length (wv sout)) (length (wv sout)) C /\ symmetric C.
Proof.
  unfold output. intros H.
  apply bind_inr in H. destruct H as (shift & _ & H).
  apply bind_inr in H. destruct H as (lo & _ & H).
  apply bind_inr in H. destruct H as (hi & _ & H).
  apply bind_inr in H. destruct H as (wvm & Hwvm & H).
  apply bind_inr in H. destruct H as ([y0 z0] & _ & H).
  apply bind_inr in H. destruct H as (k & _ & H).
  apply bind_inr in H. destruct H as (covar & Hcov & H).
  apply bind_inr in Hcov. destruct Hcov as (bw & _ & Hcov).
  apply bind_inr in Hcov. destruct Hcov as (C0 & HC0 & Hcov).
  apply ret_inr in Hcov. subst covar.
  apply bind_inr in H. destruct H as (z1 & _ & H).
  apply bind_inr in H. destruct H as (y1 & _ & H).
  apply bind_inr in H. destruct H as (scale & _ & H).
  apply ret_inr in H. injection H as <- <- <-.
  destruct (get_covarmatrix_inr _ _ _ _ _ _ HC0) as (Hshape & Hsym & _).
  cbn [wv]. split; [exact Hwvm|].
  eexists. split; [reflexivity|]. split.
  - apply mat_scale_shape, Hshape.
  - apply mat_scale_symmetric, Hsym.
Qed.
End CovarianceOut.

Lemma get_yz_covariance_symmetric_witness :
  exists y var m2 oc,
    _get_yz Fixture.exp_model Fixture.lin_interp Fixture.Gauss12 Fixture.D12
            true = inr (y, var, m2, oc) /\
    exists C, oc = Some C /\ symmetric C.
Proof.
  do 4 eexists. split; [vm_compute; reflexivity|].
  eapply (get_yz_covariance_symmetric Fixture.exp_model Fixture.lin_interp
            Fixture.Gauss12 Fixture.D12).
  vm_compute. reflexivity.
Defined.

Lemma output_covariance_witness :
  exists sout m oc,
    output Fixture.exp_model Fixture.lin_interp Fixture.Gauss12 Fixture.D12
           true = inr (sout, m, oc) /\
    compress (wv Fixture.D12) m = inr (wv sout) /\
    exists C, oc = Some C /\
              is_shape (length (wv sout)) (length (wv sout)) C /\ symmetric C.
Proof.
  do 3 eexists. split; [vm_compute; reflexivity|].
  apply (output_covariance Fixture.exp_model Fixture.lin_interp
           Fixture.Gauss12 Fixture.D12).
  vm_compute. reflexivity.
Defined.

(** ** The kernel generators, once more *)

Section KernelShape.
Context {T : Type} {num : Num T}.

Lemma r_range_lookup (a b : Z) (i : nat) :
  (i < Z.to_nat (b - a))%nat -> r_range a b !! i = Some (a + Z.of_nat i)%Z.
Proof.
  intros Hi. unfold r_range. rewrite list_lookup_fmap.
  rewrite lookup_seq_lt by exact Hi. reflexivity.
Qed.

(** [prange] runs from [-(n//2) + 1] to [n//2 - 1]: reversed, it is its own
    negation *)
Lemma prange_reverse (size : nat) :
  rev (prange_of size) = map Z.opp (prange_of size).
Proof.
  rewrite rev_alt. change (rev_append (prange_of size) []) with
    (reverse (prange_of size)).
  apply list_eq. intros i. unfold prange_of.
  set (m := (Z.of_nat size / 2)%Z).
  destruct (decide (i < Z.to_nat (m - (- m + 1)))%nat) as [Hi|Hi].
  - rewrite reverse_lookup by (rewrite r_range_length; exact Hi).
    rewrite list_lookup_fmap, r_range_length.
    rewrite !r_range_lookup by lia. simpl. f_equal. lia.
  - rewrite (proj2 (lookup_ge_None _ _))
      by (rewrite length_reverse, r_range_length; lia).
    rewrite (proj2 (lookup_ge_None _ _))
      by (rewrite length_map, r_range_length; lia).
    reflexivity.
Qed.

(** X14: the Gauss kernel reads the same from both ends.  [prange] is
    symmetric about 0 and enters only through its square, which is taken on
    the integers, so the equality is exact in every arithmetic. *)
Theorem Gauss_kernel_palindrome (getp : string -> result T) (x k : list T) :
  _Gauss getp x = inr k -> rev k = k.
Proof.
  unfold _Gauss. intros H.
  apply bind_inr in H. destruct H as (k0 & Hraw & H).
  apply ret_inr in H. subst k. unfold normalize.
  rewrite <- map_rev. f_equal.
  unfold _Gauss_raw in Hraw.
  apply bind_inr in Hraw. destruct Hraw as (x1 & _ & Hraw).
  apply bind_inr in Hraw. destruct Hraw as (x0 & _ & Hraw).
  apply bind_inr in Hraw. destruct Hraw as (width & _ & Hraw).
  destruct (negb _); [discriminate|].
  apply ret_inr in Hraw. subst k0.
  rewrite <- map_rev, prange_reverse, map_map.
  apply map_ext. intros i. rewrite Z.mul_opp_opp. reflexivity.
Qed.
End KernelShape.

Lemma Gauss_kernel_palindrome_witness :
  exists k : list float,
    @_Gauss float (float_num Fixture.exp_model) (getp Fixture.Gauss12)
            (wv Fixture.Lref12) = inr k /\
    rev k = k.
Proof.
  eexists. split; [vm_compute; reflexivity|].
  apply (@Gauss_kernel_palindrome float (float_num Fixture.exp_model)
           (getp Fixture.Gauss12) (wv Fixture.Lref12)).
  vm_compute. reflexivity.
Defined.

(** ** Construction, priors and limits *)

Section ModelEdges.
Local Open Scope float_scope.

Variables fexp flog : float -> float.
Variable interp : Spectrum -> list float -> result (list float * list float).
Variable linalg_inv : matrix -> result matrix.

(** X15: the Gauss and Hermite families read [Lref.wv[1]] when the model is
    constructed: on a reference with fewer than two wavelengths the
    constructor raises IndexError. *)
Theorem init_needs_two_wavelengths (Lref0 : Spectrum) (kernel : string)
    (b : bool) :
  (length (wv Lref0) < 2)%nat -> kernel = "Gauss" \/ kernel = "Hermite" ->
  __init__ Lref0 kernel b = inl IndexError.
Proof.
  intros Hlen [->| ->]; unfold __init__; cbn [String.eqb Ascii.eqb Bool.eqb];
    cbn [Lref set_family mbind result_bind mret result_ret ret];
    rewrite (py_index_1_short _ Hlen); reflexivity.
Qed.

Lemma foldM_inr_each {A S} (body : S -> A -> result S) (xs : list A)
    (s s' : S) (x : A) :
  foldM body xs s = inr s' -> x ∈ xs -> exists a b, body a x = inr b.
Proof.
  revert s. induction xs as [|y xs IH]; intros s H Hin; [set_solver|].
  simpl in H. apply bind_inr in H. destruct H as (s1 & H1 & H2).
  apply elem_of_cons in Hin. destruct Hin as [->|Hin]; eauto.
Qed.

(** X16: an evaluation [M(D)] returns a value only if every registered
    prior is registered under the name of a parameter of [M.p]. *)
Theorem call_needs_prior_keys (self : RescaleModel) (L : Spectrum)
    (d : gmap string float) (v : float) :
  __call__ fexp flog interp linalg_inv self L = inr v -> p self = Some d ->
  dom (prior_prob self) ⊆ dom d.
Proof.
  unfold __call__. intros H Hp.
  apply bind_inr in H. destruct H as (chi & _ & H).
  apply bind_inr in H. destruct H as (pr & Hpr & _).
  intros k Hk. apply elem_of_dom in Hk. destruct Hk as [dens Hdens].
  apply elem_of_map_to_list in Hdens.
  unfold _add_priors in Hpr.
  destruct (foldM_inr_each _ _ _ _ _ Hpr Hdens) as (a & b & Hbody).
  simpl in Hbody. apply bind_inr in Hbody. destruct Hbody as (w & Hw & _).
  unfold getp in Hw. rewrite Hp in Hw. simpl in Hw.
  unfold py_getitem in Hw. apply elem_of_dom.
  destruct (d !! k) as [w'|]; [eauto | discriminate].
Qed.

(** X17: which limits [_prior_limits] applies is decided by the number of
    parameters, not by the kernel: with more than two parameters and none
    called width it raises KeyError. *)
Theorem prior_limits_by_count (self : RescaleModel) (d : gmap string float) :
  p self = Some d -> (2 < size d)%nat -> "width" ∉ dom d ->
  (2 <= length (wv (Lref self)))%nat ->
  _prior_limits self = inl KeyError.
Proof.
  intros Hp Hsize Hw Hlen. unfold _prior_limits. rewrite Hp. simpl.
  destruct (Nat.ltb_spec 2 (size d)); [|lia].
  destruct (wv (Lref self)) as [|w0 [|w1 rest]]; simpl in Hlen; try lia.
  rewrite py_index_1, py_index_0. simpl.
  apply not_elem_of_dom in Hw. unfold py_getitem. rewrite Hw. reflexivity.
Qed.
End ModelEdges.

Lemma init_needs_two_wavelengths_witness :
  (length (wv {| wv := [1%float]; f := [1%float]; ef := [1%float] |}) < 2)%nat
  /\ __init__ {| wv := [1%float]; f := [1%float]; ef := [1%float] |}
              "Hermite" false = inl IndexError.
Proof.
  split; [simpl; lia|].
  apply (init_needs_two_wavelengths
           {| wv := [1%float]; f := [1%float]; ef := [1%float] |}
           "Hermite" false); [simpl; lia | right; reflexivity].
Defined.

Lemma call_needs_prior_keys_witness :
  exists v,
    __call__ Fixture.exp_model Fixture.log_model Fixture.lin_interp
             Fixture.no_inv
             (make_func_prior Fixture.Delta12 "scale" (fun x _ => x) tt)
             Fixture.D12 = inr v /\
    dom (prior_prob (make_func_prior Fixture.Delta12 "scale"
                       (fun x (_ : unit) => x) tt))
    ⊆ dom Fixture.delta_p.
Proof.
  eexists. split; [vm_compute; reflexivity|].
  eapply (call_needs_prior_keys Fixture.exp_model Fixture.log_model
            Fixture.lin_interp Fixture.no_inv
            (make_func_prior Fixture.Delta12 "scale" (fun x _ => x) tt)
            Fixture.D12 Fixture.delta_p).
  - vm_compute. reflexivity.
  - reflexivity.
Defined.

Lemma prior_limits_by_count_witness :
  (2 < size (<["h3" := 0%float]> Fixture.delta_p))%nat /\
  ("width" ∉ dom (<["h3" := 0%float]> Fixture.delta_p)) /\
  _prior_limits (set_p Fixture.Delta12 (<["h3" := 0%float]> Fixture.delta_p))
  = inl KeyError.
Proof.
  assert (Hs : (2 < size (<["h3" := 0%float]> Fixture.delta_p))%nat)
    by (vm_compute; lia).
  assert (Hw : "width" ∉ dom (<["h3" := 0%float]> Fixture.delta_p)).
  { apply not_elem_of_dom. vm_compute. reflexivity. }
  split; [exact Hs|]. split; [exact Hw|].
  apply (prior_limits_by_count
           (set_p Fixture.Delta12 (<["h3" := 0%float]> Fixture.delta_p))
           (<["h3" := 0%float]> Fixture.delta_p)).
  - reflexivity.
  - exact Hs.
  - exact Hw.
  - simpl. lia.
Defined.

(** ** The chain and its index *)

Section ChainIndex.
Local Open Scope float_scope.

Lemma enumerate_snoc (ks : list string) (x : string) (ix : gmap string nat) :
  enumerate_into (ks ++ [x]) ix = <[x := length ks]> (enumerate_into ks ix).
Proof.
  unfold enumerate_into.
  rewrite imap_app, fold_left_app. simpl. rewrite Nat.add_0_r. reflexivity.
Qed.

Lemma enumerate_lookup (ks : list string) (ix : gmap string nat) (i : nat)
    (k : string) :
  NoDup ks -> ks !! i = Some k -> enumerate_into ks ix !! k = Some i.
Proof.
  revert i. induction ks as [|x ks IH] using rev_ind; intros i Hnd Hi;
    [discriminate|].
  rewrite enumerate_snoc. apply NoDup_app in Hnd. destruct Hnd as (Hnd & Hx & _).
  destruct (decide (i < length ks)%nat) as [Hlt|Hge].
  - rewrite lookup_app_l in Hi by exact Hlt.
    assert (k <> x).
    { intros ->. apply (Hx x); [eapply list_elem_of_lookup_2; eauto|left]. }
    rewrite lookup_insert_ne by congruence. apply IH; assumption.
  - rewrite lookup_app_r in Hi by lia.
    destruct (i - length ks)%nat as [|j] eqn:E; [|destruct j; discriminate].
    injection Hi as <-. rewrite lookup_insert_eq. f_equal. lia.
Qed.

Lemma enumerate_lookup_other (ks : list string) (ix : gmap string nat)
    (k : string) :
  k ∉ ks -> enumerate_into ks ix !! k = ix !! k.
Proof.
  induction ks as [|x ks IH] using rev_ind; intros Hk; [reflexivity|].
  rewrite enumerate_snoc. rewrite not_elem_of_app in Hk. destruct Hk as [Hk Hx].
  rewrite lookup_insert_ne by set_solver. apply IH, Hk.
Qed.

Lemma enumerate_lookup_iff (ks : list string) (i : nat) (k : string) :
  NoDup ks -> enumerate_into ks ∅ !! k = Some i <-> ks !! i = Some k.
Proof.
  intros Hnd. split; [|apply enumerate_lookup; exact Hnd].
  intros H. destruct (decide (k ∈ ks)) as [Hin|Hout].
  - apply list_elem_of_lookup in Hin. destruct Hin as [j Hj].
    rewrite (enumerate_lookup ks ∅ j k Hnd Hj) in H. congruence.
  - rewrite enumerate_lookup_other in H by exact Hout. discriminate.
Qed.

Lemma Chain_add_index_first (M0 : RescaleModel) (v : float) (ch : Chain)
    (d : gmap string float) :
  Chain_add Chain_new M0 v = inr ch -> p M0 = Some d ->
  index ch = enumerate_into (keys d) ∅ /\ pchain ch = [values d].
Proof.
  unfold Chain_add. intros H Hp. rewrite Hp in H. simpl in H.
  apply ret_inr in H. subst ch. simpl. auto.
Qed.

Lemma Chain_add_index_later (c0 : Chain) (M0 : RescaleModel) (v : float)
    (ch : Chain) :
  pchain c0 <> [] -> Chain_add c0 M0 v = inr ch -> index ch = index c0.
Proof.
  unfold Chain_add. intros Hne H.
  rewrite decide_False in H by (destruct (pchain c0); [congruence|discriminate]).
  simpl in H. apply bind_inr in H. destruct H as (d & _ & H).
  apply ret_inr in H. subst ch. reflexivity.
Qed.

(** X18: the first record of a chain can be read back by name: the column
    [index[k]] of the first row holds [M.p[k]], for every parameter [k] of
    the model, and the index has no other names. *)
Theorem chain_first_record (M0 : RescaleModel) (chi : float) (ch : Chain)
    (d : gmap string float) (k : string) (v : float) :
  Chain_add Chain_new M0 chi = inr ch -> p M0 = Some d ->
  d !! k = Some v <->
  exists i row, index ch !! k = Some i /\ pchain ch !! 0%nat = Some row /\
                row !! i = Some v.
Proof.
  intros H Hp. destruct (Chain_add_index_first _ _ _ _ H Hp) as [-> ->].
  pose proof (keys_NoDup d) as Hnd. split.
  - intros Hk. apply elem_of_map_to_list in Hk.
    apply list_elem_of_lookup in Hk. destruct Hk as [i Hi].
    exists i, (values d). split; [|split; [reflexivity|]].
    + apply enumerate_lookup_iff; [exact Hnd|].
      unfold keys. rewrite list_lookup_fmap, Hi. reflexivity.
    + unfold values. rewrite list_lookup_fmap, Hi. reflexivity.
  - intros (i & row & Hix & Hrow & Hv). injection Hrow as <-.
    apply enumerate_lookup_iff in Hix; [|exact Hnd].
    unfold keys in Hix. unfold values in Hv.
    rewrite list_lookup_fmap in Hix. rewrite list_lookup_fmap in Hv.
    destruct (map_to_list d !! i) as [[k' v']|] eqn:E; [|discriminate].
    simpl in Hix, Hv. injection Hix as ->. injection Hv as ->.
    apply elem_of_map_to_list. eapply list_elem_of_lookup_2; eauto.
Qed.

Variables fexp flog : float -> float.
Variable interp : Spectrum -> list float -> result (list float * list float).
Variable linalg_inv : matrix -> result matrix.
Variable tape : nat -> float.
Variable D : Spectrum.

(** X19: the index of the chain a run returns is the enumeration of the
    names of the parameters the run started from: the records appended by
    the trials leave it as the first record made it. *)
Theorem run_chain_index (M0 : RescaleModel) (ntrial : nat) (r : mh_result)
    (d0 : gmap string float) (ch : Chain) (k : string) (i : nat) :
  metro_hast fexp flog interp linalg_inv tape ntrial D M0 true = inr r ->
  p M0 = Some d0 -> res_chain r = Some ch ->
  index ch !! k = Some i <-> keys d0 !! i = Some k.
Proof.
  unfold metro_hast. intros H Hp Hch.
  apply bind_inr in H. destruct H as (s0 & Hinit & H).
  apply bind_inr in H. destruct H as (s & Hloop & H).
  destruct (decide (ntrial = 0%nat)); [discriminate|].
  apply ret_inr in H. subst r. simpl in Hch. injection Hch as <-.
  assert (Hinv : index (c s) = enumerate_into (keys d0) ∅ /\ pchain (c s) <> []).
  { revert Hloop.
    apply (mh_loop_invariant fexp flog interp linalg_inv tape D
             (fun s => index (c s) = enumerate_into (keys d0) ∅ /\
                       pchain (c s) <> [])).
    - intros a b [Hix Hne] Hiter.
      destruct (mh_iter_record fexp flog interp linalg_inv tape D a b Hiter)
        as [Hrow _].
      apply mh_iter_inr in Hiter.
      destruct Hiter as (ptry & pos1 & chi2try & _ & _ & Hadd & _).
      rewrite (Chain_add_index_later _ _ _ _ Hne Hadd), Hrow.
      split; [exact Hix|]. destruct (pchain (c a)); discriminate.
    - unfold mh_init in Hinit. rewrite Hp in Hinit. simpl in Hinit.
      apply bind_inr in Hinit. destruct Hinit as (v0 & _ & Hinit).
      apply bind_inr in Hinit. destruct Hinit as (c0 & Hc0 & Hinit).
      apply ret_inr in Hinit. subst s0. simpl.
      destruct (Chain_add_index_first _ _ _ _ Hc0 Hp) as [-> ->].
      split; [reflexivity | discriminate]. }
  destruct Hinv as [-> _]. apply enumerate_lookup_iff, keys_NoDup.
Qed.
End ChainIndex.

Lemma chain_first_record_witness :
  Chain_add Chain_new Fixture.Gauss12 7%float
  = inr (Fixture.chain0 (Fixture.gauss_p 0.51) 7) /\
  (Fixture.gauss_p 0.51 !! "width" = Some 0.51%float <->
   exists i row,
     index (Fixture.chain0 (Fixture.gauss_p 0.51) 7) !! "width" = Some i /\
     pchain (Fixture.chain0 (Fixture.gauss_p 0.51) 7) !! 0%nat = Some row /\
     row !! i = Some 0.51%float).
Proof.
  assert (H : Chain_add Chain_new Fixture.Gauss12 7%float
              = inr (Fixture.chain0 (Fixture.gauss_p 0.51) 7))
    by reflexivity.
  split; [exact H|].
  apply (chain_first_record Fixture.Gauss12 7%float
           (Fixture.chain0 (Fixture.gauss_p 0.51) 7) (Fixture.gauss_p 0.51)
           "width" 0.51%float H).
  reflexivity.
Defined.

Lemma run_chain_index_witness :
  metro_hast Fixture.exp_model Fixture.log_model Fixture.lin_interp
             Fixture.no_inv (Fixture.tape_of 2 1 0.5) 1 Fixture.D12
             Fixture.Delta12 true = inr Fixture.result1 /\
  forall ch, res_chain Fixture.result1 = Some ch ->
             (index ch !! "scale" = Some 0%nat <->
              keys Fixture.delta_p !! 0%nat = Some "scale").
Proof.
  split; [exact run_result1|]. intros ch Hch.
  apply (run_chain_index Fixture.exp_model Fixture.log_model
           Fixture.lin_interp Fixture.no_inv (Fixture.tape_of 2 1 0.5)
           Fixture.D12 Fixture.Delta12 1 Fixture.result1 Fixture.delta_p ch).
  - exact run_result1.
  - reflexivity.
  - exact Hch.
Defined.

(** ** The two modes of [_get_yz] *)

Ltac red_bind := cbn [mbind result_bind mret result_ret ret].

Section Modes.
Local Open Scope float_scope.

Variable fexp : float -> float.
Variable interp : Spectrum -> list float -> result (list float * list float).

(** X20: asking [_get_yz] for the covariance matrix changes nothing else:
    whenever the call with [getcovar] returns, the call without it returns
    the same flux, the same variance and the same mask. *)
Theorem get_yz_modes_agree (self : RescaleModel) (L : Spectrum)
    (y var : list float) (m2 : list bool) (oc : option matrix) :
  _get_yz fexp interp self L true = inr (y, var, m2, oc) ->
  _get_yz fexp interp self L false = inr (y, var, m2, None).
Proof.
  unfold _get_yz. intros H.
  apply bind_inr in H. destruct H as ([[l m] wvm] & -> & H). red_bind.
  apply bind_inr in H. destruct H as ([y0 z0] & Hi & H).
  rewrite Hi. red_bind.
  apply bind_inr in H. destruct H as (k & -> & H). red_bind.
  apply bind_inr in H. destruct H as (covar & Hcov & H).
  apply bind_inr in Hcov. destruct Hcov as (bw & _ & Hcov).
  apply bind_inr in Hcov. destruct Hcov as (C0 & _ & Hcov).
  apply ret_inr in Hcov. subst covar.
  apply bind_inr in H. destruct H as (z1 & -> & H). red_bind.
  apply bind_inr in H. destruct H as (y1 & -> & H). red_bind.
  apply bind_inr in H. destruct H as (scale & -> & H). red_bind.
  apply bind_inr in H. destruct H as (covar & _ & H).
  apply bind_inr in H. destruct H as (t & -> & H). red_bind.
  apply bind_inr in H. destruct H as (nt & -> & H). red_bind.
  apply bind_inr in H. destruct H as (w_lo & -> & H). red_bind.
  apply bind_inr in H. destruct H as (w_hi & -> & H). red_bind.
  apply ret_inr in H. injection H as <- <- <- _.
  reflexivity.
Qed.
End Modes.

Lemma get_yz_modes_agree_witness :
  exists y var m2 oc,
    _get_yz Fixture.exp_model Fixture.lin_interp Fixture.Gauss12 Fixture.D12
            true = inr (y, var, m2, oc) /\
    _get_yz Fixture.exp_model Fixture.lin_interp Fixture.Gauss12 Fixture.D12
            false = inr (y, var, m2, None).
Proof.
  do 4 eexists. split; [vm_compute; reflexivity|].
  eapply (get_yz_modes_agree Fixture.exp_model Fixture.lin_interp
            Fixture.Gauss12 Fixture.D12).
  vm_compute. reflexivity.
Defined.

(** ** The best parameters and the chain *)

Section BestRecord.
Local Open Scope float_scope.

Variables fexp flog : float -> float.
Variable interp : Spectrum -> list float -> result (list float * list float).
Variable linalg_inv : matrix -> result matrix.
Variable tape : nat -> float.
Variable D : Spectrum.

Lemma keys_fmap {A B} (g : A -> B) (d : gmap string A) :
  keys (g <$> d) = keys d.
Proof.
  unfold keys. rewrite map_to_list_fmap, <- list_fmap_compose.
  apply list_fmap_ext. intros i [k v] _. reflexivity.
Qed.

(** the iteration order of a dictionary, as modelled, is that of its keys *)
Lemma keys_of_dom {A B} (d : gmap string A) (d' : gmap string B) :
  dom d = dom d' -> keys d = keys d'.
Proof.
  intros Hdom.
  rewrite <- (keys_fmap (fun _ => tt) d), <- (keys_fmap (fun _ => tt) d').
  f_equal. apply map_eq. intros k. rewrite !lookup_fmap.
  destruct (d !! k) as [v|] eqn:E, (d' !! k) as [v'|] eqn:E'; try reflexivity.
  - exfalso. apply (not_elem_of_dom d' k); [exact E'|].
    rewrite <- Hdom. apply elem_of_dom. eauto.
  - exfalso. apply (not_elem_of_dom d k); [exact E|].
    rewrite Hdom. apply elem_of_dom. eauto.
Qed.

(** at the end of the loop the index is the one made for the first record,
    and the best parameters have the names of the initial ones *)
Lemma loop_index_and_names (M0 : RescaleModel) (d0 : gmap string float)
    (n : nat) (s0 s : mh_state) :
  p M0 = Some d0 ->
  mh_init fexp flog interp linalg_inv D M0 = inr s0 ->
  mh_loop fexp flog interp linalg_inv tape D n s0 = inr s ->
  index (c s) = enumerate_into (keys d0) ∅ /\ dom (pbest s) = dom d0.
Proof.
  intros Hp Hinit Hloop.
  assert (Hinv : index (c s) = enumerate_into (keys d0) ∅ /\
                 pchain (c s) <> [] /\
                 (exists d, p (M s) = Some d /\ dom d = dom d0) /\
                 dom (pbest s) = dom d0).
  { revert Hloop.
    apply (mh_loop_invariant fexp flog interp linalg_inv tape D
             (fun s => index (c s) = enumerate_into (keys d0) ∅ /\
                       pchain (c s) <> [] /\
                       (exists d, p (M s) = Some d /\ dom d = dom d0) /\
                       dom (pbest s) = dom d0)).
    - intros a b (Hix & Hne & (da & Hda & Hdoma) & Hbest) Hiter.
      destruct (mh_iter_record fexp flog interp linalg_inv tape D a b Hiter)
        as [Hrow _].
      pose proof (mh_iter_inr fexp flog interp linalg_inv tape D a b Hiter)
        as (_ & _ & _ & _ & _ & Hadd & _).
      apply mh_iter_cases in Hiter.
      destruct Hiter as (ptry & pos1 & chi2try & Hstep & _ & Hcase).
      apply step_inr in Hstep. destruct Hstep as (d & Hd & Hdom & _).
      rewrite Hda in Hd. injection Hd as <-.
      assert (Hptry : dom ptry = dom d0) by congruence.
      split; [rewrite (Chain_add_index_later _ _ _ _ Hne Hadd); exact Hix|].
      split; [rewrite Hrow; destruct (pchain (c a)); discriminate|].
      split.
      + destruct Hcase as [(_ & -> & _)|[(_ & -> & _)|(_ & -> & _)]];
          simpl; eauto.
      + destruct Hcase
          as [(_ & _ & _ & _ & _ & [(_ & _ & ->)|(_ & _ & ->)])
             |[(_ & _ & _ & _ & _ & _ & ->)|(_ & _ & _ & _ & _ & _ & ->)]];
          assumption.
    - unfold mh_init in Hinit. rewrite Hp in Hinit. simpl in Hinit.
      apply bind_inr in Hinit. destruct Hinit as (v0 & _ & Hinit).
      apply bind_inr in Hinit. destruct Hinit as (c0 & Hc0 & Hinit).
      apply ret_inr in Hinit. subst s0. simpl.
      destruct (Chain_add_index_first _ _ _ _ Hc0 Hp) as [-> ->].
      split; [reflexivity|]. split; [discriminate|]. split; [eauto|].
      reflexivity. }
  destruct Hinv as (Hix & _ & _ & Hbest). auto.
Qed.

(** X6: the best chi2 a run returns is never the score [M(D)] of the model
    it started from.  It is the constant 1e12, with the initial parameters,
    or it is below 1e12 and is the chi2 of a record appended by a trial; the
    row of that record holds the best parameters returned, by name: the
    best value of a parameter is the entry in the column that the index of
    the chain gives for its name. *)
Theorem best_is_recorded (M0 : RescaleModel) (ntrial : nat) (r : mh_result) :
  metro_hast fexp flog interp linalg_inv tape ntrial D M0 true = inr r ->
  best_recorded M0 r.
Proof.
  intros H.
  destruct (best_row_values fexp flog interp linalg_inv tape D M0 ntrial r H)
    as (d0 & ch & Hp & Hch & Hbest).
  exists d0, ch. split; [exact Hp|]. split; [exact Hch|].
  destruct Hbest as [Hl|(i & Hi & Hrow & Hll & Hlt)]; [left; exact Hl|].
  right. exists i, (values (res_pbest r)).
  split; [exact Hi|]. split; [exact Hrow|]. split; [exact Hll|].
  split; [exact Hlt|].
  unfold metro_hast in H.
  apply bind_inr in H. destruct H as (s0 & Hinit & H).
  apply bind_inr in H. destruct H as (s & Hloop & H).
  destruct (decide (ntrial = 0%nat)); [discriminate|].
  apply ret_inr in H. subst r. simpl in *. injection Hch as <-.
  destruct (loop_index_and_names M0 d0 ntrial s0 s Hp Hinit Hloop)
    as [Hix Hdom].
  pose proof (keys_of_dom _ _ Hdom) as Hkeys.
  intros k v. rewrite Hix. split.
  - intros Hk. apply elem_of_map_to_list in Hk.
    apply list_elem_of_lookup in Hk. destruct Hk as [j Hj].
    exists j. split.
    + apply enumerate_lookup_iff; [apply keys_NoDup|].
      rewrite <- Hkeys. unfold keys. rewrite list_lookup_fmap, Hj. reflexivity.
    + unfold values. rewrite list_lookup_fmap, Hj. reflexivity.
  - intros (j & Hj & Hv).
    apply enumerate_lookup_iff in Hj; [|apply keys_NoDup].
    rewrite <- Hkeys in Hj. unfold keys in Hj. unfold values in Hv.
    rewrite list_lookup_fmap in Hj. rewrite list_lookup_fmap in Hv.
    destruct (map_to_list (pbest s) !! j) as [[k' v']|] eqn:E; [|discriminate].
    simpl in Hj, Hv. injection Hj as ->. injection Hv as ->.
    apply elem_of_map_to_list. eapply list_elem_of_lookup_2; eauto.
Qed.
End BestRecord.

Lemma best_is_recorded_witness :
  metro_hast Fixture.exp_model Fixture.log_model Fixture.lin_interp
             Fixture.no_inv (Fixture.tape_of 2 1 0.5) 1 Fixture.D12
             Fixture.Delta12 true = inr Fixture.result1 /\
  best_recorded Fixture.Delta12 Fixture.result1.
Proof.
  split; [exact run_result1|].
  apply (best_is_recorded Fixture.exp_model Fixture.log_model
           Fixture.lin_interp Fixture.no_inv (Fixture.tape_of 2 1 0.5)
           Fixture.D12 Fixture.Delta12 1 Fixture.result1).
  exact run_result1.
Defined.
